(** * orderedmap: an insertion-ordered map over a doubly linked list and an index

    A shallow embedding of [map.go] (package [orderedmap]).  The nodes of
    every container live in one shared store of heap cells addressed by
    location, so that aliasing between containers is visible; a container
    is the record of its fields.  Loops that follow [next] pointers take
    fuel, and a result of [None] stands for a walk that does not end. *)

From Stdlib Require Import ZArith String Ascii List Bool Lia.
From Stdlib Require Import Floats.SpecFloat.
From stdpp Require Import base option list gmap strings sorting.

#[local] Set Warnings "-register-all,-abstract-large-number".

Local Open Scope string_scope.
Local Open Scope list_scope.
Local Open Scope Z_scope.

(* ===================================================================== *)
(** ** Go values *)
(* ===================================================================== *)

(** [float64] is IEEE 754 binary64: 53 bits of precision, exponent of the
    infinities 1024. *)
Definition float64 : Type := spec_float.
Definition prec64 : Z := 53.
Definition emax64 : Z := 1024.

(** Go's [int] and [int64] are 64-bit two's complement. *)
Definition wrap64 (z : Z) : Z := (z + 2 ^ 63) mod 2 ^ 64 - 2 ^ 63.
Definition in_int64 (z : Z) : bool := (- 2 ^ 63 <=? z) && (z <=? 2 ^ 63 - 1).

(** The values stored in a container ([Value any]): the dynamic types that
    JSON decoding produces, integers as callers store them, and
    [json.Number]. *)
Inductive any : Type :=
  | Nil
  | Bool (b : bool)
  | Int (n : Z)
  | Int64 (n : Z)
  | Float64 (f : float64)
  | Str (s : string)
  | Number (s : string)
  | Slice (l : list any)
  | Object (m : list (string * any)).

(** The keys of a container ([Key any]): the nil interface or a value of a
    comparable dynamic type.  (Go panics when a value of an unhashable
    type is used as a map key; such values are not keys.) *)
Inductive key : Type :=
  | KNil
  | KBool (b : bool)
  | KInt (n : Z)
  | KInt64 (n : Z)
  | KFloat64 (f : float64)
  | KString (s : string).

(** [key == nil] *)
Definition is_nil (k : key) : bool :=
  match k with KNil => true | _ => false end.

(** Go's [==] on interface values, as the map uses it: equal dynamic types
    and equal values.  On floats this is IEEE equality: NaN differs from
    itself and the two zeros are equal. *)
Definition key_eqb (a b : key) : bool :=
  match a, b with
  | KNil, KNil => true
  | KBool x, KBool y => Bool.eqb x y
  | KInt x, KInt y => Z.eqb x y
  | KInt64 x, KInt64 y => Z.eqb x y
  | KFloat64 x, KFloat64 y => SFeqb x y
  | KString x, KString y => String.eqb x y
  | _, _ => false
  end.

(** [error]: nil or an error value.  The errors of this package carry
    their message; those of the standard library are kept by kind. *)
Inductive err : Type :=
  | Errorf (msg : string)
  | SyntaxError
  | UnmarshalTypeError (value : string)
  | EOF
  | ErrUnexpectedEOF
  | UnsupportedValueError
  | InvalidNumberLiteral (lit : string).

Definition error : Type := option err.

(* ===================================================================== *)
(** ** The store of nodes *)
(* ===================================================================== *)

(** Addresses of nodes. *)
Abbreviation loc := nat (only parsing).

Record Node : Type := mkNode {
  Key : key;
  Value : any;
  prev : option loc;
  next : option loc
}.

Abbreviation heap := (gmap loc Node) (only parsing).

Definition set_Value (v : any) (n : Node) : Node :=
  mkNode (Key n) v (prev n) (next n).
Definition set_prev (p : option loc) (n : Node) : Node :=
  mkNode (Key n) (Value n) p (next n).
Definition set_next (p : option loc) (n : Node) : Node :=
  mkNode (Key n) (Value n) (prev n) p.

(** [&Node{...}]: a cell at an address not in use. *)
Definition new_loc (h : heap) : loc := fresh (dom h).

(* ===================================================================== *)
(** ** [map[any]*Node] *)
(* ===================================================================== *)

(** The index, as its entries.  An entry is found by [==] on keys, so a
    NaN key is never found again and each store of one adds an entry. *)
Definition nodemap : Type := list (key * loc).

Fixpoint map_lookup (m : nodemap) (k : key) : option loc :=
  match m with
  | [] => None
  | (k', p) :: m' => if key_eqb k' k then Some p else map_lookup m' k
  end.

Fixpoint map_store (m : nodemap) (k : key) (p : loc) : nodemap :=
  match m with
  | [] => [(k, p)]
  | (k', p') :: m' =>
      if key_eqb k' k then (k', p) :: m' else (k', p') :: map_store m' k p
  end.

Fixpoint map_delete (m : nodemap) (k : key) : nodemap :=
  match m with
  | [] => []
  | (k', p) :: m' => if key_eqb k' k then m' else (k', p) :: map_delete m' k
  end.

(* ===================================================================== *)
(** ** [sync.RWMutex] *)
(* ===================================================================== *)

(** The mutex of a container is modelled by the calls made on it, oldest
    first. *)
Inductive mu_event : Type := EvLock | EvUnlock | EvRLock | EvRUnlock.
Definition RWMutex : Type := list mu_event.

(* ===================================================================== *)
(** ** The container *)
(* ===================================================================== *)

Record OrderedMap : Type := mkOrderedMap {
  mu : RWMutex;
  head : option loc;
  tail : option loc;
  nodeMap : nodemap;
  length : Z
}.

Definition mu_call (e : mu_event) (om : OrderedMap) : OrderedMap :=
  mkOrderedMap (mu om ++ [e]) (head om) (tail om) (nodeMap om) (length om).
Definition Lock := mu_call EvLock.
Definition Unlock := mu_call EvUnlock.
Definition RLock := mu_call EvRLock.
Definition RUnlock := mu_call EvRUnlock.

Definition set_head (p : option loc) (om : OrderedMap) : OrderedMap :=
  mkOrderedMap (mu om) p (tail om) (nodeMap om) (length om).
Definition set_tail (p : option loc) (om : OrderedMap) : OrderedMap :=
  mkOrderedMap (mu om) (head om) p (nodeMap om) (length om).
Definition set_nodeMap (m : nodemap) (om : OrderedMap) : OrderedMap :=
  mkOrderedMap (mu om) (head om) (tail om) m (length om).
Definition set_length (n : Z) (om : OrderedMap) : OrderedMap :=
  mkOrderedMap (mu om) (head om) (tail om) (nodeMap om) n.

Definition NewOrderedMap : OrderedMap := mkOrderedMap [] None None [] 0.

Definition key_cannot_be_nil : err := Errorf "key cannot be nil".

(** The part of [Set] after the lock is taken; [empty] is the test that
    chooses between the first node and an append ([om.tail == nil] in
    [Set], [om.head == nil] in [set]). *)
Definition store_pair (empty : OrderedMap -> bool)
    (h : heap) (om : OrderedMap) (k : key) (value : any) : heap * OrderedMap :=
  match map_lookup (nodeMap om) k with
  | Some node => (alter (set_Value value) node h, om)
  | None =>
      let newNode := new_loc h in
      let h := <[newNode := mkNode k value None None]> h in
      let '(h, om) :=
        if empty om then
          (h, set_tail (Some newNode) (set_head (Some newNode) om))
        else
          let h := alter (set_prev (tail om)) newNode h in
          let h := match tail om with
                   | Some t => alter (set_next (Some newNode)) t h
                   | None => h
                   end in
          (h, set_tail (Some newNode) om) in
      (h, set_length (wrap64 (length om + 1))
            (set_nodeMap (map_store (nodeMap om) k newNode) om))
  end.

Definition Set_ (h : heap) (om : OrderedMap) (k : key) (value : any)
    : heap * OrderedMap * error :=
  if is_nil k then (h, om, Some key_cannot_be_nil)
  else
    let om := Lock om in
    let '(h, om) := store_pair (fun om => bool_decide (tail om = None)) h om k value in
    (h, Unlock om, None).

(** [set]: the internal method, without locking. *)
Definition set (h : heap) (om : OrderedMap) (k : key) (value : any)
    : heap * OrderedMap * error :=
  if is_nil k then (h, om, Some key_cannot_be_nil)
  else
    let '(h, om) := store_pair (fun om => bool_decide (head om = None)) h om k value in
    (h, om, None).

Definition Delete (h : heap) (om : OrderedMap) (k : key)
    : heap * OrderedMap * error :=
  if is_nil k then (h, om, Some key_cannot_be_nil)
  else
    let om := Lock om in
    match map_lookup (nodeMap om) k with
    | None => (h, Unlock om, None)
    | Some node =>
        match h !! node with
        | None => (h, Unlock om, None)
        | Some nd =>
            let '(h, om) :=
              match prev nd with
              | Some p => (alter (set_next (next nd)) p h, om)
              | None => (h, set_head (next nd) om)
              end in
            let '(h, om) :=
              match next nd with
              | Some n => (alter (set_prev (prev nd)) n h, om)
              | None => (h, set_tail (prev nd) om)
              end in
            let om := set_nodeMap (map_delete (nodeMap om) k) om in
            let om := set_length (wrap64 (length om - 1)) om in
            let h := alter (set_next None) node (alter (set_prev None) node h) in
            (h, Unlock om, None)
        end
    end.

(** The loop [for current != nil { ...; current = current.next }],
    collecting the nodes it visits. *)
Fixpoint walk (fuel : nat) (h : heap) (current : option loc) : option (list Node) :=
  match current with
  | None => Some []
  | Some p =>
      match fuel with
      | O => None
      | S fuel =>
          match h !! p with
          | None => None
          | Some nd => cons nd <$> walk fuel h (next nd)
          end
      end
  end.

(** Fuel for a walk: more than the number of cells there are. *)
Definition enough (h : heap) : nat := S (size h).

Definition Keys (h : heap) (om : OrderedMap) : OrderedMap * option (list key) :=
  let om := RLock om in
  (RUnlock om, map Key <$> walk (enough h) h (head om)).

Definition Values (h : heap) (om : OrderedMap) : OrderedMap * option (list any) :=
  let om := RLock om in
  (RUnlock om, map Value <$> walk (enough h) h (head om)).

(** [Range]: the visitor [f] is called on each pair in turn until it
    returns false; the result is the sequence of pairs it was called on. *)
Fixpoint visit (f : key -> any -> bool) (l : list Node) : list (key * any) :=
  match l with
  | [] => []
  | nd :: l' =>
      (Key nd, Value nd) :: (if f (Key nd) (Value nd) then visit f l' else [])
  end.

Definition Range (h : heap) (om : OrderedMap) (f : key -> any -> bool)
    : OrderedMap * option (list (key * any)) :=
  let om := RLock om in
  (RUnlock om, visit f <$> walk (enough h) h (head om)).

Definition Clear (om : OrderedMap) : OrderedMap :=
  set_length 0 (set_tail None (set_head None (set_nodeMap [] om))).

Definition Get (h : heap) (om : OrderedMap) (k : key) : OrderedMap * (any * bool) :=
  if is_nil k then (om, (Nil, false))
  else
    let om := RLock om in
    match map_lookup (nodeMap om) k with
    | Some node =>
        match h !! node with
        | Some nd => (RUnlock om, (Value nd, true))
        | None => (RUnlock om, (Nil, false))
        end
    | None => (RUnlock om, (Nil, false))
    end.

Definition Len (om : OrderedMap) : OrderedMap * Z :=
  let om := RLock om in
  (RUnlock om, length om).

Definition Has (om : OrderedMap) (k : key) : OrderedMap * bool :=
  if is_nil k then (om, false)
  else
    let om := RLock om in
    (RUnlock om, bool_decide (is_Some (map_lookup (nodeMap om) k))).

Definition First (h : heap) (om : OrderedMap) : OrderedMap * (key * any * bool) :=
  let om := RLock om in
  match head om with
  | None => (RUnlock om, (KNil, Nil, false))
  | Some p =>
      match h !! p with
      | Some nd => (RUnlock om, (Key nd, Value nd, true))
      | None => (RUnlock om, (KNil, Nil, false))
      end
  end.

Definition Last (h : heap) (om : OrderedMap) : OrderedMap * (key * any * bool) :=
  let om := RLock om in
  match tail om with
  | None => (RUnlock om, (KNil, Nil, false))
  | Some p =>
      match h !! p with
      | Some nd => (RUnlock om, (Key nd, Value nd, true))
      | None => (RUnlock om, (KNil, Nil, false))
      end
  end.

(** The loop of [Copy]: each node of the source is read from the store as
    it is at that moment and set into [newMap]. *)
Fixpoint Copy_loop (fuel : nat) (h : heap) (newMap : OrderedMap)
    (current : option loc) : option (heap * OrderedMap) :=
  match current with
  | None => Some (h, newMap)
  | Some p =>
      match fuel with
      | O => None
      | S fuel =>
          match h !! p with
          | None => None
          | Some nd =>
              let '(h, newMap, _) := Set_ h newMap (Key nd) (Value nd) in
              Copy_loop fuel h newMap (next nd)
          end
      end
  end.

Definition Copy (h : heap) (om : OrderedMap)
    : option (heap * OrderedMap * OrderedMap) :=
  let om := RLock om in
  match Copy_loop (enough h) h NewOrderedMap (head om) with
  | Some (h, newMap) => Some (h, RUnlock om, newMap)
  | None => None
  end.

(* ===================================================================== *)
(** ** Package [strconv], as far as the calls of this package go *)
(* ===================================================================== *)

Definition is_digit (c : ascii) : bool :=
  (48 <=? N_of_ascii c)%N && (N_of_ascii c <=? 57)%N.

Definition digit_val (c : ascii) : Z := Z.of_N (N_of_ascii c) - 48.

(** The number a string of decimal digits denotes. *)
Fixpoint digits_val (acc : Z) (s : string) : Z :=
  match s with
  | EmptyString => acc
  | String c s' => digits_val (10 * acc + digit_val c) s'
  end.

Fixpoint all_digits (s : string) : bool :=
  match s with
  | EmptyString => true
  | String c s' => is_digit c && all_digits s'
  end.

(** The longest prefix of digits, and what follows it. *)
Fixpoint span_digits (s : string) : string * string :=
  match s with
  | String c s' =>
      if is_digit c then let '(ds, r) := span_digits s' in (String c ds, r)
      else (EmptyString, s)
  | EmptyString => (EmptyString, EmptyString)
  end.

(** [strconv.ParseInt(s, 10, 64)]: an optional sign and one or more
    decimal digits, in the range of [int64]; [None] when it returns an
    error. *)
Definition ParseInt (s : string) : option Z :=
  let '(neg, ds) :=
    match s with
    | String c s' =>
        if Ascii.eqb c "-" then (true, s')
        else if Ascii.eqb c "+" then (false, s')
        else (false, s)
    | EmptyString => (false, s)
    end in
  match ds with
  | EmptyString => None
  | _ =>
      if all_digits ds then
        let n := if neg then - digits_val 0 ds else digits_val 0 ds in
        if in_int64 n then Some n else None
      else None
  end.

(** The decimal digits of a natural number, most significant first. *)
Fixpoint digits_of (fuel : nat) (n : N) (acc : string) : string :=
  let acc' := String (ascii_of_N (48 + n mod 10)) acc in
  match fuel with
  | O => acc'
  | S fuel => if (n / 10 =? 0)%N then acc' else digits_of fuel (n / 10) acc'
  end.

(** [strconv.FormatInt(n, 10)] *)
Definition FormatInt (n : Z) : string :=
  let ds := digits_of (N.to_nat (N.log2 (Z.abs_N n))) (Z.abs_N n) "" in
  if n <? 0 then String "-" ds else ds.

(** The parts of a number in the grammar of JSON, and what follows it: an
    optional minus; a zero, or a digit from 1 to 9 and any digits; then,
    optionally, a point and one or more digits; then, optionally, [e] or
    [E], an optional sign and one or more digits.  A point or an exponent mark that is not followed
    by a digit is an error, as in the scanner of [encoding/json]. *)
Record number_parts : Type := mkNumber {
  num_neg : bool;
  num_int : string;
  num_frac : string;
  num_exp : option (bool * string)
}.

Definition scan_exp (s : string) : option (option (bool * string) * string) :=
  match s with
  | String c s1 =>
      if Ascii.eqb c "e" || Ascii.eqb c "E" then
        let '(eneg, s2) :=
          match s1 with
          | String c' s' =>
              if Ascii.eqb c' "-" then (true, s')
              else if Ascii.eqb c' "+" then (false, s')
              else (false, s1)
          | EmptyString => (false, s1)
          end in
        let '(ds, r) := span_digits s2 in
        match ds with
        | EmptyString => None
        | _ => Some (Some (eneg, ds), r)
        end
      else Some (None, s)
  | EmptyString => Some (None, s)
  end.

Definition scan_frac (s : string) : option (string * string) :=
  match s with
  | String c s1 =>
      if Ascii.eqb c "." then
        let '(ds, r) := span_digits s1 in
        match ds with
        | EmptyString => None
        | _ => Some (ds, r)
        end
      else Some (EmptyString, s)
  | EmptyString => Some (EmptyString, s)
  end.

Definition scan_number (s : string) : option (number_parts * string) :=
  let '(neg, s1) :=
    match s with
    | String c s' => if Ascii.eqb c "-" then (true, s') else (false, s)
    | EmptyString => (false, s)
    end in
  match s1 with
  | String c s2 =>
      if is_digit c then
        let '(ip, s3) :=
          if Ascii.eqb c "0" then ("0", s2)
          else let '(ds, r) := span_digits s2 in (String c ds, r) in
        match scan_frac s3 with
        | Some (fp, s4) =>
            match scan_exp s4 with
            | Some (ep, s5) => Some (mkNumber neg ip fp ep, s5)
            | None => None
            end
        | None => None
        end
      else None
  | EmptyString => None
  end.

(** The float nearest to [m * 10 ^ e], ties to even, with the sign [neg];
    an infinity when it is out of range. *)
Definition round_decimal (neg : bool) (m : Z) (e : Z) : float64 :=
  match m with
  | Z0 => S754_zero neg
  | Zneg _ => S754_nan
  | Zpos p =>
      if 0 <=? e then
        match Zpos p * 10 ^ e with
        | Zpos q => binary_round prec64 emax64 neg q 0
        | _ => S754_nan
        end
      else
        let '(q, e', l) := SFdiv_core_binary prec64 emax64 (Zpos p) 0 (10 ^ (- e)) 0 in
        binary_round_aux prec64 emax64 neg q e' l
  end.

Definition parts_value (n : number_parts) : float64 :=
  let m := digits_val 0 (num_int n +:+ num_frac n) in
  let e := match num_exp n with
           | Some (eneg, ds) => if eneg then - digits_val 0 ds else digits_val 0 ds
           | None => 0
           end in
  round_decimal (num_neg n) m (e - Z.of_nat (String.length (num_frac n))).

Definition is_finite (f : float64) : bool :=
  match f with
  | S754_zero _ | S754_finite _ _ _ => true
  | _ => false
  end.

(** What the standard library does and this development leaves open:
    how a finite float is written in JSON ([FormatFloat]), how [%v] writes
    a float ([Sprint_float]), and what [strconv.ParseFloat] accepts beyond
    the numbers of JSON ([ParseFloat_other]: hexadecimal floats,
    underscores, infinities, NaN, a leading plus or point). *)
Class GoLib : Type := mkGoLib {
  FormatFloat : float64 -> string;
  Sprint_float : float64 -> string;
  ParseFloat_other : string -> option float64
}.

(** [strconv.ParseFloat(s, 64)] with a nil error: on a number of JSON, the
    nearest float when it is finite. *)
Definition ParseFloat `{GoLib} (s : string) : option float64 :=
  match scan_number s with
  | Some (n, EmptyString) =>
      let f := parts_value n in if is_finite f then Some f else None
  | _ => ParseFloat_other s
  end.

(** A finite float written in full, for examples: the decimal expansion
    of a binary fraction ends, so this text denotes the float itself. *)
Fixpoint strip_zeros (s : string) : string :=
  match s with
  | EmptyString => EmptyString
  | String c s' =>
      match strip_zeros s' with
      | EmptyString => if Ascii.eqb c "0" then EmptyString else String c EmptyString
      | t => String c t
      end
  end.

Fixpoint zeros (n : nat) : string :=
  match n with
  | O => ""
  | S n' => String "0" (zeros n')
  end.

Definition format_exact (f : float64) : string :=
  match f with
  | S754_zero s => if s then "-0" else "0"
  | S754_finite s m e =>
      (if s then "-" else "") +:+
      (if 0 <=? e then FormatInt (Zpos m * 2 ^ e)
       else
         let n := Z.to_nat (- e) in
         let ds := FormatInt (Zpos m * 5 ^ (- e)) in
         let padded := zeros (S n - String.length ds) +:+ ds in
         let k := (String.length padded - n)%nat in
         match strip_zeros (substring k n padded) with
         | EmptyString => substring 0 k padded
         | fp => substring 0 k padded +:+ "." +:+ fp
         end)
  | _ => "NaN"
  end.

Definition exact_lib : GoLib := mkGoLib format_exact format_exact (fun _ => None).

(* ===================================================================== *)
(** ** Package [encoding/json]: decoding *)
(* ===================================================================== *)

(** The values of JSON; a number keeps its text. *)
Inductive json : Type :=
  | JNull
  | JBool (b : bool)
  | JNumber (lit : string)
  | JString (s : string)
  | JArray (l : list json)
  | JObject (m : list (string * json)).

(** The double quote. *)
Definition dquote : ascii := "034"%char.

(** A text between double quotes, for writing JSON down. *)
Definition quoted (s : string) : string := String dquote (s +:+ String dquote "").

Definition is_space (c : ascii) : bool :=
  Ascii.eqb c " " || Ascii.eqb c "009" || Ascii.eqb c "010" || Ascii.eqb c "013".

Fixpoint skip_ws (s : string) : string :=
  match s with
  | String c s' => if is_space c then skip_ws s' else s
  | EmptyString => s
  end.

Definition number_text (n : number_parts) : string :=
  (if num_neg n then "-" else "") +:+ num_int n +:+
  (match num_frac n with EmptyString => "" | fp => "." +:+ fp end) +:+
  (match num_exp n with
   | Some (eneg, ds) => "e" +:+ (if eneg then "-" else "") +:+ ds
   | None => ""
   end).

(** The text of the number at the head of [s], as it stands in [s]. *)
Definition scan_number_text (s : string) : option (string * string) :=
  match scan_number s with
  | Some (_, r) =>
      Some (substring 0 (String.length s - String.length r)%nat s, r)
  | None => None
  end.

Definition hex_val (c : ascii) : option N :=
  let n := N_of_ascii c in
  if (48 <=? n)%N && (n <=? 57)%N then Some (n - 48)%N
  else if (97 <=? n)%N && (n <=? 102)%N then Some (n - 87)%N
  else if (65 <=? n)%N && (n <=? 70)%N then Some (n - 55)%N
  else None.

(** [getu4]: the code unit of a [\uXXXX] escape, given what follows the
    backslash. *)
Definition getu4 (s : string) : option (N * string) :=
  match s with
  | String u (String a (String b (String c (String d r)))) =>
      if Ascii.eqb u "u" then
        match hex_val a, hex_val b, hex_val c, hex_val d with
        | Some x, Some y, Some z, Some w =>
            Some (x * 4096 + y * 256 + z * 16 + w, r)%N
        | _, _, _, _ => None
        end
      else None
  | _ => None
  end.

Definition replacement_char : string :=
  String (ascii_of_N 239) (String (ascii_of_N 191) (String (ascii_of_N 189) "")).

(** [utf8.EncodeRune] *)
Definition EncodeRune (r : N) : string :=
  if (r <? 128)%N then String (ascii_of_N r) ""
  else if (r <? 2048)%N then
    String (ascii_of_N (192 + r / 64)) (String (ascii_of_N (128 + r mod 64)) "")
  else if ((55296 <=? r) && (r <? 57344) || (1114111 <? r))%N then replacement_char
  else if (r <? 65536)%N then
    String (ascii_of_N (224 + r / 4096))
      (String (ascii_of_N (128 + (r / 64) mod 64))
         (String (ascii_of_N (128 + r mod 64)) ""))
  else
    String (ascii_of_N (240 + r / 262144))
      (String (ascii_of_N (128 + (r / 4096) mod 64))
         (String (ascii_of_N (128 + (r / 64) mod 64))
            (String (ascii_of_N (128 + r mod 64)) ""))).

Definition is_cont (lo hi : N) (c : ascii) : bool :=
  (lo <=? N_of_ascii c)%N && (N_of_ascii c <=? hi)%N.

(** [utf8.DecodeRune], as far as its size goes: the length of the
    well-formed encoding at the head of [s], or [None] where Go returns
    [RuneError] with size 1. *)
Definition rune_size (s : string) : option nat :=
  match s with
  | EmptyString => None
  | String c0 s1 =>
      let b := N_of_ascii c0 in
      if (b <? 128)%N then Some 1%nat
      else if (b <? 194)%N then None
      else if (b <? 224)%N then
        match s1 with
        | String c1 _ => if is_cont 128 191 c1 then Some 2%nat else None
        | _ => None
        end
      else if (b <? 240)%N then
        match s1 with
        | String c1 (String c2 _) =>
            let lo := if (b =? 224)%N then 160%N else 128%N in
            let hi := if (b =? 237)%N then 159%N else 191%N in
            if is_cont lo hi c1 && is_cont 128 191 c2 then Some 3%nat else None
        | _ => None
        end
      else if (b <? 245)%N then
        match s1 with
        | String c1 (String c2 (String c3 _)) =>
            let lo := if (b =? 240)%N then 144%N else 128%N in
            let hi := if (b =? 244)%N then 143%N else 191%N in
            if is_cont lo hi c1 && is_cont 128 191 c2 && is_cont 128 191 c3
            then Some 4%nat else None
        | _ => None
        end
      else None
  end.

(** A simple escape: the byte that stands after the backslash, and the
    byte it denotes. *)
Definition unescape (c : ascii) : option ascii :=
  if Ascii.eqb c dquote then Some dquote
  else if Ascii.eqb c "\" then Some "\"%char
  else if Ascii.eqb c "/" then Some "/"%char
  else if Ascii.eqb c "b" then Some "008"%char
  else if Ascii.eqb c "f" then Some "012"%char
  else if Ascii.eqb c "n" then Some "010"%char
  else if Ascii.eqb c "r" then Some "013"%char
  else if Ascii.eqb c "t" then Some "009"%char
  else None.

Fixpoint drop_string (n : nat) (s : string) : string :=
  match n, s with
  | S n', String _ s' => drop_string n' s'
  | _, _ => s
  end.

Fixpoint take_string (n : nat) (s : string) : string :=
  match n, s with
  | S n', String c s' => String c (take_string n' s')
  | _, _ => EmptyString
  end.

(** The body of a string literal, after its opening quote: the string it
    denotes and what follows the closing quote.  Escapes are resolved, a
    surrogate pair becomes one rune, a lone surrogate and an ill-formed
    byte become U+FFFD, a control character is an error. *)
Fixpoint scan_string (fuel : nat) (s : string) : option (string * string) :=
  match fuel with
  | O => None
  | S fuel =>
      match s with
      | EmptyString => None
      | String c s1 =>
          if Ascii.eqb c dquote then Some (EmptyString, s1)
          else if Ascii.eqb c "\" then
            match s1 with
            | EmptyString => None
            | String e s2 =>
                if Ascii.eqb e "u" then
                  match getu4 s1 with
                  | None => None
                  | Some (rr, s3) =>
                      let '(out, s4) :=
                        if ((55296 <=? rr) && (rr <? 57344))%N then
                          match s3 with
                          | String b s3' =>
                              match (if Ascii.eqb b "\" then getu4 s3' else None) with
                              | Some (rr1, s5) =>
                                  if ((rr <? 56320) && (56320 <=? rr1) && (rr1 <? 57344))%N
                                  then (EncodeRune ((rr - 55296) * 1024 + (rr1 - 56320) + 65536)%N, s5)
                                  else (replacement_char, s3)
                              | None => (replacement_char, s3)
                              end
                          | EmptyString => (replacement_char, s3)
                          end
                        else (EncodeRune rr, s3) in
                      match scan_string fuel s4 with
                      | Some (t, r) => Some (out +:+ t, r)
                      | None => None
                      end
                  end
                else
                  match unescape e with
                  | Some b =>
                      match scan_string fuel s2 with
                      | Some (t, r) => Some (String b t, r)
                      | None => None
                      end
                  | None => None
                  end
            end
          else if (N_of_ascii c <? 32)%N then None
          else
            match rune_size s with
            | Some n =>
                match scan_string fuel (drop_string n s) with
                | Some (t, r) => Some (take_string n s +:+ t, r)
                | None => None
                end
            | None =>
                match scan_string fuel s1 with
                | Some (t, r) => Some (replacement_char +:+ t, r)
                | None => None
                end
            end
      end
  end.

Definition starts_with (p s : string) : option string :=
  if String.prefix p s then Some (drop_string (String.length p) s) else None.

(** The scanner allows values nested ten thousand deep. *)
Definition maxNestingDepth : nat := 10000.

(** One value at the head of [s], after white space, and what follows it.
    [fuel] bounds the number of values and members read; [depth] is the
    nesting that is still allowed. *)
Fixpoint parse_value (fuel : nat) (depth : nat) (s : string) : option (json * string) :=
  match fuel with
  | O => None
  | S fuel =>
      match skip_ws s with
      | EmptyString => None
      | String c s1 =>
          if Ascii.eqb c "{" then
            match depth with
            | O => None
            | S depth =>
                match skip_ws s1 with
                | String c' s2 =>
                    if Ascii.eqb c' "}" then Some (JObject [], s2)
                    else
                      match parse_members fuel depth s1 with
                      | Some (m, r) => Some (JObject m, r)
                      | None => None
                      end
                | EmptyString => None
                end
            end
          else if Ascii.eqb c "[" then
            match depth with
            | O => None
            | S depth =>
                match skip_ws s1 with
                | String c' s2 =>
                    if Ascii.eqb c' "]" then Some (JArray [], s2)
                    else
                      match parse_elements fuel depth s1 with
                      | Some (l, r) => Some (JArray l, r)
                      | None => None
                      end
                | EmptyString => None
                end
            end
          else if Ascii.eqb c dquote then
            match scan_string (S (String.length s1)) s1 with
            | Some (t, r) => Some (JString t, r)
            | None => None
            end
          else if Ascii.eqb c "-" || is_digit c then
            match scan_number_text (String c s1) with
            | Some (lit, r) => Some (JNumber lit, r)
            | None => None
            end
          else
            match starts_with "true" (String c s1) with
            | Some r => Some (JBool true, r)
            | None =>
                match starts_with "false" (String c s1) with
                | Some r => Some (JBool false, r)
                | None =>
                    match starts_with "null" (String c s1) with
                    | Some r => Some (JNull, r)
                    | None => None
                    end
                end
            end
      end
  end

(** The members of an object after its brace, up to and with the closing
    brace: at least one. *)
with parse_members (fuel : nat) (depth : nat) (s : string)
    : option (list (string * json) * string) :=
  match fuel with
  | O => None
  | S fuel =>
      match skip_ws s with
      | String q s1 =>
          if Ascii.eqb q dquote then
            match scan_string (S (String.length s1)) s1 with
            | Some (k, s2) =>
                match skip_ws s2 with
                | String c s3 =>
                    if Ascii.eqb c ":" then
                      match parse_value fuel depth s3 with
                      | Some (v, s4) =>
                          match skip_ws s4 with
                          | String d s5 =>
                              if Ascii.eqb d "}" then Some ([(k, v)], s5)
                              else if Ascii.eqb d "," then
                                match parse_members fuel depth s5 with
                                | Some (m, r) => Some ((k, v) :: m, r)
                                | None => None
                                end
                              else None
                          | EmptyString => None
                          end
                      | None => None
                      end
                    else None
                | EmptyString => None
                end
            | None => None
            end
          else None
      | EmptyString => None
      end
  end

(** The elements of an array after its bracket, up to and with the closing
    bracket: at least one. *)
with parse_elements (fuel : nat) (depth : nat) (s : string)
    : option (list json * string) :=
  match fuel with
  | O => None
  | S fuel =>
      match parse_value fuel depth s with
      | Some (v, s1) =>
          match skip_ws s1 with
          | String d s2 =>
              if Ascii.eqb d "]" then Some ([v], s2)
              else if Ascii.eqb d "," then
                match parse_elements fuel depth s2 with
                | Some (l, r) => Some (v :: l, r)
                | None => None
                end
              else None
          | EmptyString => None
          end
      | None => None
      end
  end.

(** Fuel for a text: every value and member takes at least one byte. *)
Definition parse_fuel (s : string) : nat := S (String.length s).

Definition parse (s : string) : option (json * string) :=
  parse_value (parse_fuel s) maxNestingDepth s.

(** [m[k] = v] on the members of a decoded object. *)
Fixpoint obj_store (m : list (string * any)) (k : string) (v : any) : list (string * any) :=
  match m with
  | [] => [(k, v)]
  | (k', v') :: m' =>
      if String.eqb k' k then (k', v) :: m' else (k', v') :: obj_store m' k v
  end.

Definition slice_result (r : err + list any) : err + any :=
  match r with inr vs => inr (Slice vs) | inl e => inl e end.
Definition object_result (r : err + list (string * any)) : err + any :=
  match r with inr kvs => inr (Object kvs) | inl e => inl e end.

(** A value of JSON as an [interface{}]: a number is a [float64], or a
    [json.Number] under [UseNumber]; a number out of the range of
    [float64] is an error. *)
Fixpoint to_any `{GoLib} (useNumber : bool) (j : json) : err + any :=
  match j with
  | JNull => inr Nil
  | JBool b => inr (Bool b)
  | JString s => inr (Str s)
  | JNumber lit =>
      if useNumber then inr (Number lit)
      else match ParseFloat lit with
           | Some f => inr (Float64 f)
           | None => inl (UnmarshalTypeError ("number " +:+ lit))
           end
  | JArray l =>
      slice_result
      ((fix go (l : list json) : err + list any :=
         match l with
         | [] => inr []
         | j :: l' =>
             match to_any useNumber j, go l' with
             | inr v, inr vs => inr (v :: vs)
             | inl e, _ => inl e
             | _, inl e => inl e
             end
         end) l)
  | JObject m =>
      object_result
      ((fix go (m : list (string * json)) (acc : list (string * any))
         : err + list (string * any) :=
         match m with
         | [] => inr acc
         | (k, j) :: m' =>
             match to_any useNumber j with
             | inr v => go m' (obj_store acc k v)
             | inl e => inl e
             end
         end) m [])
  end.

(** The members of a top-level object stored into [map[string]interface{}]. *)
Fixpoint store_members `{GoLib} (useNumber : bool) (m : list (string * json))
    (acc : gmap string any) : err + gmap string any :=
  match m with
  | [] => inr acc
  | (k, j) :: m' =>
      match to_any useNumber j with
      | inr v => store_members useNumber m' (<[k := v]> acc)
      | inl e => inl e
      end
  end.

(** A decoded value stored into a [map[string]interface{}] that holds
    [tmpMap]: an object adds its members, [null] sets the map to nil, any
    other value is a type error. *)
Definition unmarshal_map `{GoLib} (useNumber : bool) (j : json)
    (tmpMap : gmap string any) : err + gmap string any :=
  match j with
  | JObject m => store_members useNumber m tmpMap
  | JNull => inr ∅
  | JArray _ => inl (UnmarshalTypeError "array")
  | JString _ => inl (UnmarshalTypeError "string")
  | JNumber _ => inl (UnmarshalTypeError "number")
  | JBool _ => inl (UnmarshalTypeError "bool")
  end.

(** [json.Unmarshal(data, &tmpMap)]: the whole of [data] is one value. *)
Definition json_Unmarshal `{GoLib} (data : string) (tmpMap : gmap string any)
    : err + gmap string any :=
  match parse data with
  | Some (j, r) =>
      match skip_ws r with
      | EmptyString => unmarshal_map false j tmpMap
      | _ => inl SyntaxError
      end
  | None => inl SyntaxError
  end.

(** [d.Decode(&tmpMap)] on a fresh decoder over [data]: the first value of
    the stream; what follows it is not read.  No value at all is [io.EOF]. *)
Definition Decoder_Decode `{GoLib} (useNumber : bool) (data : string)
    (tmpMap : gmap string any) : err + gmap string any :=
  match skip_ws data with
  | EmptyString => inl EOF
  | _ =>
      match parse data with
      | Some (j, _) => unmarshal_map useNumber j tmpMap
      | None => inl SyntaxError
      end
  end.

(* ===================================================================== *)
(** ** Package [encoding/json]: encoding *)
(* ===================================================================== *)

Definition hex_digit (n : N) : ascii :=
  if (n <? 10)%N then ascii_of_N (48 + n) else ascii_of_N (87 + n).

(** U+2028 and U+2029 in UTF-8. *)
Definition line_separator : string :=
  String (ascii_of_N 226) (String (ascii_of_N 128) (String (ascii_of_N 168) "")).
Definition paragraph_separator : string :=
  String (ascii_of_N 226) (String (ascii_of_N 128) (String (ascii_of_N 169) "")).

(** How [appendString] writes an ASCII byte, with HTML escaping on. *)
Definition escape_byte (c : ascii) : string :=
  let b := N_of_ascii c in
  if Ascii.eqb c dquote || Ascii.eqb c "\" then String "\" (String c "")
  else if (b =? 8)%N then "\b"
  else if (b =? 12)%N then "\f"
  else if (b =? 10)%N then "\n"
  else if (b =? 13)%N then "\r"
  else if (b =? 9)%N then "\t"
  else if (b <? 32)%N || Ascii.eqb c "<" || Ascii.eqb c ">" || Ascii.eqb c "&" then
    "\u00" +:+ String (hex_digit (b / 16)) (String (hex_digit (b mod 16)) "")
  else String c "".

(** The text between the quotes: an ill-formed byte is written as
    [\ufffd], the two separators as escapes, any other rune as it is. *)
Fixpoint escape_string (fuel : nat) (s : string) : string :=
  match fuel with
  | O => ""
  | S fuel =>
      match s with
      | EmptyString => ""
      | String c s1 =>
          if (N_of_ascii c <? 128)%N then escape_byte c +:+ escape_string fuel s1
          else
            match rune_size s with
            | None => "\ufffd" +:+ escape_string fuel s1
            | Some n =>
                let r := take_string n s in
                (if String.eqb r line_separator then "\u2028"
                 else if String.eqb r paragraph_separator then "\u2029"
                 else r) +:+ escape_string fuel (drop_string n s)
            end
      end
  end.

Definition quote (s : string) : string :=
  String dquote (escape_string (String.length s) s) +:+ String dquote "".

(** Indentation, as [MarshalIndent(v, "", "  ")] lays a value out: [None]
    is the compact form, [Some d] the indented form at depth [d]. *)
Fixpoint spaces (d : nat) : string :=
  match d with
  | O => ""
  | S d' => "  " +:+ spaces d'
  end.

Definition newline (d : nat) : string := String "010"%char (spaces d).

Definition sep_open (ind : option nat) : string :=
  match ind with None => "" | Some d => newline (S d) end.
Definition sep_close (ind : option nat) : string :=
  match ind with None => "" | Some d => newline d end.
Definition sep_colon (ind : option nat) : string :=
  match ind with None => ":" | Some _ => ": " end.

Fixpoint join_with (sep : string) (l : list string) : string :=
  match l with
  | [] => ""
  | [x] => x
  | x :: l' => x +:+ sep +:+ join_with sep l'
  end.

(** An object or an array around the texts of its parts. *)
Definition bracket (ind : option nat) (op cl : string) (parts : list string) : string :=
  match parts with
  | [] => op +:+ cl
  | _ => op +:+ sep_open ind +:+ join_with ("," +:+ sep_open ind) parts
           +:+ sep_close ind +:+ cl
  end.

Definition member_text (ind : option nat) (kv : string * string) : string :=
  quote kv.1 +:+ sep_colon ind +:+ kv.2.

(** Keys in the order of their bytes. *)
Definition key_le {A} (a b : string * A) : Prop := String.leb a.1 b.1 = true.

#[global] Instance key_le_dec {A} (a b : string * A) : Decision (key_le a b).
Proof. unfold key_le. apply _. Defined.

Definition sort_members {A} (l : list (string * A)) : list (string * A) :=
  merge_sort key_le l.

(** The first error among the parts, or all their texts. *)
Fixpoint collect {A} (l : list (A * (err + string))) : err + list (A * string) :=
  match l with
  | [] => inr []
  | (a, inl e) :: _ => inl e
  | (a, inr t) :: l' =>
      match collect l' with
      | inr ts => inr ((a, t) :: ts)
      | inl e => inl e
      end
  end.

Definition is_number_literal (s : string) : bool :=
  match scan_number s with
  | Some (_, EmptyString) => true
  | _ => false
  end.

(** The text of a value. *)
Fixpoint marshal_any `{GoLib} (ind : option nat) (v : any) : err + string :=
  match v with
  | Nil => inr "null"
  | Bool b => inr (if b then "true" else "false")
  | Int n => inr (FormatInt n)
  | Int64 n => inr (FormatInt n)
  | Float64 f => if is_finite f then inr (FormatFloat f) else inl UnsupportedValueError
  | Str s => inr (quote s)
  | Number s =>
      match s with
      | EmptyString => inr "0"
      | _ => if is_number_literal s then inr s else inl (InvalidNumberLiteral s)
      end
  | Slice l =>
      match collect (map (fun x => (tt, marshal_any (S <$> ind) x)) l) with
      | inr ts => inr (bracket ind "[" "]" (map snd ts))
      | inl e => inl e
      end
  | Object m =>
      match collect (sort_members
                       (map (fun kv => (kv.1, marshal_any (S <$> ind) kv.2)) m)) with
      | inr ts => inr (bracket ind "{" "}" (map (member_text ind) ts))
      | inl e => inl e
      end
  end.

(** [json.Marshal] and [json.MarshalIndent] of a [map[string]interface{}]:
    the members in the order of their keys. *)
Definition marshal_map `{GoLib} (ind : option nat) (m : gmap string any) : err + string :=
  match collect (sort_members
                   (map (fun kv => (kv.1, marshal_any (S <$> ind) kv.2)) (map_to_list m))) with
  | inr ts => inr (bracket ind "{" "}" (map (member_text ind) ts))
  | inl e => inl e
  end.

Definition json_Marshal `{GoLib} (m : gmap string any) : err + string :=
  marshal_map None m.
Definition json_MarshalIndent `{GoLib} (m : gmap string any) : err + string :=
  marshal_map (Some 0%nat) m.

(* ===================================================================== *)
(** ** The JSON methods of the container *)
(* ===================================================================== *)

(** [fmt.Sprintf("%v", key)] *)
Definition Sprint `{GoLib} (k : key) : string :=
  match k with
  | KNil => "<nil>"
  | KBool b => if b then "true" else "false"
  | KInt n => FormatInt n
  | KInt64 n => FormatInt n
  | KFloat64 f => Sprint_float f
  | KString s => s
  end.

Record JSONOptions : Type := mkJSONOptions {
  KeyAsString : bool;
  PreserveType : bool;
  PrettyPrint : bool
}.

(** The order in which a [range] over a map visits its entries is chosen
    by the runtime: some order of the entries, each once. *)
Definition range_order : Type := gmap string any -> list (string * any).

Definition is_range (visit : range_order) : Prop :=
  forall m, visit m ≡ₚ map_to_list m.

(** The loop of [MarshalJSON] over the nodes of the list. *)
Fixpoint MarshalJSON_loop `{GoLib} (l : list Node) (tmpMap : gmap string any)
    : gmap string any :=
  match l with
  | [] => tmpMap
  | current :: l' =>
      let keyStr := match Key current with
                    | KString s => s
                    | k => Sprint k
                    end in
      MarshalJSON_loop l' (<[keyStr := Value current]> tmpMap)
  end.

Definition MarshalJSON `{GoLib} (h : heap) (om : OrderedMap)
    : OrderedMap * option (err + string) :=
  let om := RLock om in
  (RUnlock om,
   (fun l => json_Marshal (MarshalJSON_loop l ∅)) <$> walk (enough h) h (head om)).

(** The loop of [UnmarshalJSON] and [FromJSON] over the entries of
    [tmpMap] in the order of the visit; [convert] is what the body does to
    a pair before it is set. *)
Fixpoint set_all (convert : string * any -> key * any)
    (h : heap) (om : OrderedMap) (kvs : list (string * any))
    : heap * OrderedMap * error :=
  match kvs with
  | [] => (h, om, None)
  | kv :: kvs' =>
      match set h om (convert kv).1 (convert kv).2 with
      | (h, om, Some e) => (h, om, Some e)
      | (h, om, None) => set_all convert h om kvs'
      end
  end.

Definition UnmarshalJSON `{GoLib} (visit : range_order)
    (h : heap) (om : OrderedMap) (data : string) : heap * OrderedMap * error :=
  match json_Unmarshal data ∅ with
  | inl e => (h, om, Some e)
  | inr tmpMap =>
      let om := Lock om in
      let om := set_length 0 (set_tail None (set_head None (set_nodeMap [] om))) in
      let '(h, om, e) := set_all (fun kv => (KString kv.1, kv.2)) h om (visit tmpMap) in
      (h, Unlock om, e)
  end.

Definition non_string_key `{GoLib} (k : key) : err :=
  Errorf ("non-string key " +:+ Sprint k +:+ " cannot be converted to JSON").

(** The loop of [ToJSON]. *)
Fixpoint ToJSON_loop `{GoLib} (opts : JSONOptions) (l : list Node)
    (tmpMap : gmap string any) : err + gmap string any :=
  match l with
  | [] => inr tmpMap
  | current :: l' =>
      match (if KeyAsString opts then inr (Sprint (Key current))
             else match Key current with
                  | KString strKey => inr strKey
                  | k => inl (non_string_key k)
                  end) with
      | inl e => inl e
      | inr k =>
          let value :=
            if PreserveType opts then
              match Value current with
              | Str str =>
                  match ParseInt str with
                  | Some v => Int64 v
                  | None =>
                      match ParseFloat str with
                      | Some v => Float64 v
                      | None => Str str
                      end
                  end
              | v => v
              end
            else Value current in
          ToJSON_loop opts l' (<[k := value]> tmpMap)
      end
  end.

Definition default_ToJSON : JSONOptions := mkJSONOptions true false false.
Definition default_FromJSON : JSONOptions := mkJSONOptions true false false.

Definition ToJSON `{GoLib} (h : heap) (om : OrderedMap) (opts : option JSONOptions)
    : OrderedMap * option (err + string) :=
  let opts := default default_ToJSON opts in
  let om := RLock om in
  (RUnlock om,
   (fun l =>
      match ToJSON_loop opts l ∅ with
      | inl e => inl e
      | inr tmpMap =>
          if PrettyPrint opts then json_MarshalIndent tmpMap else json_Marshal tmpMap
      end) <$> walk (enough h) h (head om)).

(** What the body of the loop of [FromJSON] makes of an entry. *)
Definition FromJSON_convert `{GoLib} (opts : JSONOptions) (kv : string * any) : key * any :=
  let k := kv.1 in
  let key :=
    if negb (KeyAsString opts) then
      match ParseInt k with
      | Some i => KInt64 i
      | None =>
          match ParseFloat k with
          | Some f => KFloat64 f
          | None => KString k
          end
      end
    else KString k in
  let v :=
    if PreserveType opts then
      match kv.2 with
      | Number num =>
          match ParseFloat num with
          | Some f => Float64 f
          | None => kv.2
          end
      | v => v
      end
    else kv.2 in
  (key, v).

Definition FromJSON `{GoLib} (visit : range_order)
    (h : heap) (om : OrderedMap) (data : string) (opts : option JSONOptions)
    : heap * OrderedMap * error :=
  let opts := default default_FromJSON opts in
  match Decoder_Decode (PreserveType opts) data ∅ with
  | inl e => (h, om, Some e)
  | inr tmpMap =>
      let om := Lock om in
      let om := set_length 0 (set_tail None (set_head None (set_nodeMap [] om))) in
      let '(h, om, e) := set_all (FromJSON_convert opts) h om (visit tmpMap) in
      (h, Unlock om, e)
  end.
(* ===================================================================== *)
(** ** [String], [Reverse], [Filter] and [Map] *)
(* ===================================================================== *)

(** [fmt.Sprintf("%v", value)]: a slice between brackets, a map as
    [map[k:v ...]] in the order of its keys, the parts separated by a
    blank. *)
Fixpoint Sprint_any `{GoLib} (v : any) : string :=
  match v with
  | Nil => "<nil>"
  | Bool b => if b then "true" else "false"
  | Int n => FormatInt n
  | Int64 n => FormatInt n
  | Float64 f => Sprint_float f
  | Str s => s
  | Number s => s
  | Slice l => "[" +:+ join_with " " (map Sprint_any l) +:+ "]"
  | Object m =>
      "map[" +:+
      join_with " "
        (map (fun kt : string * string => kt.1 +:+ ":" +:+ kt.2)
           (sort_members (map (fun kv => (kv.1, Sprint_any kv.2)) m)))
      +:+ "]"
  end.

(** The loop of [String]: [result] grows by one pair at each node, after
    a separator at every node but the one [om.head] points at. *)
Fixpoint String_loop `{GoLib} (fuel : nat) (h : heap) (om : OrderedMap)
    (result : string) (current : option loc) : option string :=
  match current with
  | None => Some result
  | Some p =>
      match fuel with
      | O => None
      | S fuel =>
          match h !! p with
          | None => None
          | Some nd =>
              let result :=
                if bool_decide (current <> head om) then result +:+ ", " else result in
              let result :=
                result +:+ (Sprint (Key nd) +:+ ": " +:+ Sprint_any (Value nd)) in
              String_loop fuel h om result (next nd)
          end
      end
  end.

Definition String_ `{GoLib} (h : heap) (om : OrderedMap) : OrderedMap * option string :=
  let om := RLock om in
  (RUnlock om,
   (fun result => result +:+ "}") <$> String_loop (enough h) h om "{" (head om)).

(** The loop of [Reverse]: from the tail along [prev]. *)
Fixpoint Reverse_loop (fuel : nat) (h : heap) (reversed : OrderedMap)
    (current : option loc) : option (heap * OrderedMap) :=
  match current with
  | None => Some (h, reversed)
  | Some p =>
      match fuel with
      | O => None
      | S fuel =>
          match h !! p with
          | None => None
          | Some nd =>
              let '(h, reversed, _) := Set_ h reversed (Key nd) (Value nd) in
              Reverse_loop fuel h reversed (prev nd)
          end
      end
  end.

Definition Reverse (h : heap) (om : OrderedMap)
    : option (heap * OrderedMap * OrderedMap) :=
  let om := RLock om in
  match Reverse_loop (enough h) h NewOrderedMap (tail om) with
  | Some (h, reversed) => Some (h, RUnlock om, reversed)
  | None => None
  end.

(** The loop of [Filter]. *)
Fixpoint Filter_loop (predicate : key -> any -> bool) (fuel : nat) (h : heap)
    (filtered : OrderedMap) (current : option loc) : option (heap * OrderedMap) :=
  match current with
  | None => Some (h, filtered)
  | Some p =>
      match fuel with
      | O => None
      | S fuel =>
          match h !! p with
          | None => None
          | Some nd =>
              let '(h, filtered) :=
                if predicate (Key nd) (Value nd) then
                  let '(h, filtered, _) := Set_ h filtered (Key nd) (Value nd) in
                  (h, filtered)
                else (h, filtered) in
              Filter_loop predicate fuel h filtered (next nd)
          end
      end
  end.

Definition Filter (h : heap) (om : OrderedMap) (predicate : key -> any -> bool)
    : option (heap * OrderedMap * OrderedMap) :=
  let om := RLock om in
  match Filter_loop predicate (enough h) h NewOrderedMap (head om) with
  | Some (h, filtered) => Some (h, RUnlock om, filtered)
  | None => None
  end.

(** The loop of [Map]; the error of [Set] is dropped, as in [Copy]. *)
Fixpoint Map_loop (mapper : key -> any -> key * any) (fuel : nat) (h : heap)
    (mapped : OrderedMap) (current : option loc) : option (heap * OrderedMap) :=
  match current with
  | None => Some (h, mapped)
  | Some p =>
      match fuel with
      | O => None
      | S fuel =>
          match h !! p with
          | None => None
          | Some nd =>
              let '(newKey, newValue) := mapper (Key nd) (Value nd) in
              let '(h, mapped, _) := Set_ h mapped newKey newValue in
              Map_loop mapper fuel h mapped (next nd)
          end
      end
  end.

Definition Map (h : heap) (om : OrderedMap) (mapper : key -> any -> key * any)
    : option (heap * OrderedMap * OrderedMap) :=
  let om := RLock om in
  match Map_loop mapper (enough h) h NewOrderedMap (head om) with
  | Some (h, mapped) => Some (h, RUnlock om, mapped)
  | None => None
  end.

(* ===================================================================== *)
(** ** The representation invariant *)
(* ===================================================================== *)

(** What [next] points at after a node that is followed by the cells [ls]
    and then by [qn]. *)
Definition first_or (ls : list loc) (qn : option loc) : option loc :=
  match ls with
  | [] => qn
  | q :: _ => Some q
  end.

(** The cells at [ls] form a doubly linked segment: the first has [prev]
    equal to [pp], each has [next] pointing at its successor, the last at
    [qn]. *)
Fixpoint dseg (h : heap) (pp : option loc) (ls : list loc) (qn : option loc) : Prop :=
  match ls with
  | [] => True
  | p :: ls' =>
      exists nd, h !! p = Some nd /\ prev nd = pp /\ next nd = first_or ls' qn
                 /\ dseg h (Some p) ls' qn
  end.

Definition nodes_at (h : heap) (ls : list loc) : list Node :=
  omap (fun p => h !! p) ls.

(** The pairs of a chain, in list order. *)
Definition entries (h : heap) (ls : list loc) : list (key * any) :=
  map (fun nd => (Key nd, Value nd)) (nodes_at h ls).

(** No entry is equal, by [==], to a later one. *)
Fixpoint distinct (ks : list key) : Prop :=
  match ks with
  | [] => True
  | k :: ks' => Forall (fun k' => key_eqb k k' = false) ks' /\ distinct ks'
  end.

(** [inv h om ls]: the list of [om] is the chain of cells [ls], and the
    index and the count agree with it. *)
Record inv (h : heap) (om : OrderedMap) (ls : list loc) : Prop := mkInv {
  inv_nodup : NoDup ls;
  inv_dseg : dseg h None ls None;
  inv_head : head om = ls !! 0%nat;
  inv_tail : tail om = last ls;
  inv_index : nodeMap om = zip (map Key (nodes_at h ls)) ls;
  inv_distinct : distinct (map Key (nodes_at h ls));
  inv_nonnil : Forall (fun k => is_nil k = false) (map Key (nodes_at h ls));
  inv_length : length om = wrap64 (Z.of_nat (List.length ls))
}.

Definition wf (h : heap) (om : OrderedMap) : Prop := exists ls, inv h om ls.

(** Two containers of one store share no node. *)
Definition separate (h : heap) (om1 om2 : OrderedMap) : Prop :=
  exists l1 l2, inv h om1 l1 /\ inv h om2 l2 /\ l1 ## l2.

(* ===================================================================== *)
(** ** The contents of a container, as a sequence of pairs *)
(* ===================================================================== *)

Definition has_key (k : key) (l : list (key * any)) : bool :=
  existsb (fun e => key_eqb (fst e) k) l.

(** Replace the value of the first pair whose key is [k]. *)
Fixpoint assoc_update (l : list (key * any)) (k : key) (v : any) : list (key * any) :=
  match l with
  | [] => []
  | (k', v') :: l' =>
      if key_eqb k' k then (k', v) :: l' else (k', v') :: assoc_update l' k v
  end.

(** Setting a pair: in place when the key is there, at the end when not. *)
Definition assoc_set (l : list (key * any)) (k : key) (v : any) : list (key * any) :=
  if has_key k l then assoc_update l k v else l ++ [(k, v)].

(** Removing the first pair whose key is [k]. *)
Fixpoint assoc_remove (l : list (key * any)) (k : key) : list (key * any) :=
  match l with
  | [] => []
  | (k', v') :: l' =>
      if key_eqb k' k then l' else (k', v') :: assoc_remove l' k
  end.

Fixpoint assoc_get (l : list (key * any)) (k : key) : option any :=
  match l with
  | [] => None
  | (k', v') :: l' => if key_eqb k' k then Some v' else assoc_get l' k
  end.

(** The place of the first key equal to [k]. *)
Fixpoint key_index (k : key) (ks : list key) : option nat :=
  match ks with
  | [] => None
  | k' :: ks' => if key_eqb k' k then Some O else S <$> key_index k ks'
  end.

(** The keys of a sequence of [Set] calls in the order of their first
    insertion: a key is appended when it is not nil and no key equal to it
    is there yet. *)
Definition first_inserted (ks : list key) : list key :=
  fold_left
    (fun acc k =>
       if is_nil k || existsb (fun k' => key_eqb k' k) acc then acc
       else acc ++ [k])
    ks [].

(** The value a sequence of [Set] calls leaves at a key: that of the last
    call on a key equal to it. *)
Definition last_set (ops : list (key * any)) (k : key) : option any :=
  assoc_get (rev ops) k.

(** Running a sequence of [Set] calls. *)
Definition run_Set (ops : list (key * any)) (s : heap * OrderedMap) : heap * OrderedMap :=
  fold_left (fun s kv => (Set_ s.1 s.2 kv.1 kv.2).1) ops s.

(** The mutating calls on one container. *)
Inductive call : Type :=
  | CallSet (k : key) (v : any)
  | CallDelete (k : key).

Definition do_call (s : heap * OrderedMap) (c : call) : heap * OrderedMap :=
  match c with
  | CallSet k v => (Set_ s.1 s.2 k v).1
  | CallDelete k => (Delete s.1 s.2 k).1
  end.

Definition run_calls (cs : list call) (s : heap * OrderedMap) : heap * OrderedMap :=
  fold_left do_call cs s.

(* ===================================================================== *)
(** ** Auxiliary views of the store *)
(* ===================================================================== *)

(** The pair stored at a cell. *)
Definition data_of (h : heap) (q : loc) : option (key * any) :=
  (fun nd => (Key nd, Value nd)) <$> h !! q.

(** The store after the node at [p], with links [pv] and [nx], is unlinked. *)
Definition unlink (h : heap) (p : loc) (pv nx : option loc) : heap :=
  let ha := match pv with Some a => alter (set_next nx) a h | None => h end in
  let hb := match nx with Some b => alter (set_prev pv) b ha | None => ha end in
  alter (set_next None) p (alter (set_prev None) p hb).


(** What a call does to the sequence of pairs. *)
Definition model_call (l : list (key * any)) (c : call) : list (key * any) :=
  match c with
  | CallSet k v => if is_nil k then l else assoc_set l k v
  | CallDelete k => if is_nil k then l else assoc_remove l k
  end.

(** A step from store [h], on the chain [ls], to store [h'] and chain
    [ls'] is framed when it leaves every other cell of [h] as it was and
    adds only cells that were not in use. *)
Definition framed (h : heap) (ls : list loc) (h' : heap) (ls' : list loc) : Prop :=
  (forall p, p ∉ ls -> is_Some (h !! p) -> h' !! p = h !! p) /\
  (forall p, p ∈ ls' -> p ∈ ls \/ h !! p = None).

(** The calls that change a container; the two that read JSON come with
    the order in which the runtime visits the decoded map. *)
Inductive op : Type :=
  | OpSet (k : key) (v : any)
  | OpDelete (k : key)
  | OpClear
  | OpUnmarshalJSON (visit : range_order) (data : string)
  | OpFromJSON (visit : range_order) (data : string) (opts : option JSONOptions).

Definition step `{GoLib} (s : heap * OrderedMap) (o : op) : heap * OrderedMap :=
  match o with
  | OpSet k v => (Set_ s.1 s.2 k v).1
  | OpDelete k => (Delete s.1 s.2 k).1
  | OpClear => (s.1, Clear s.2)
  | OpUnmarshalJSON visit data => (UnmarshalJSON visit s.1 s.2 data).1
  | OpFromJSON visit data opts => (FromJSON visit s.1 s.2 data opts).1
  end.

(** The state after a sequence of calls on a new container. *)
Definition run `{GoLib} (ops : list op) : heap * OrderedMap :=
  fold_left step ops (∅, NewOrderedMap).

(** Calls on two containers of one store, in any order: [true] is a call
    on the first, [false] on the second. *)
Definition do_call2 (s : heap * OrderedMap * OrderedMap) (c : bool * call)
    : heap * OrderedMap * OrderedMap :=
  if c.1 then
    let r := do_call (s.1.1, s.1.2) c.2 in (r.1, r.2, s.2)
  else
    let r := do_call (s.1.1, s.2) c.2 in (r.1, s.1.2, r.2).

Definition run_calls2 (cs : list (bool * call)) (s : heap * OrderedMap * OrderedMap)
    : heap * OrderedMap * OrderedMap :=
  fold_left do_call2 cs s.

(** The calls made on one of the two. *)
Definition calls_on (side : bool) (cs : list (bool * call)) : list call :=
  map snd (filter (fun c => c.1 = side) cs).


(** What [FromJSON] stores for a value decoded under [UseNumber] when
    [PreserveType] is on: the float of a number in the range of
    [float64], the value itself otherwise. *)
Definition stored_number `{GoLib} (v : any) : any :=
  match v with
  | Number lit =>
      match ParseFloat lit with
      | Some f => Float64 f
      | None => Number lit
      end
  | _ => v
  end.


(* ===================================================================== *)
(** ** Scalars through JSON *)
(* ===================================================================== *)

(** [utf8.ValidString] *)
Fixpoint utf8_valid_from (fuel : nat) (s : string) : bool :=
  match s with
  | EmptyString => true
  | _ =>
      match fuel with
      | O => false
      | S fuel =>
          match rune_size s with
          | Some n => utf8_valid_from fuel (drop_string n s)
          | None => false
          end
      end
  end.

Definition utf8_valid (s : string) : bool := utf8_valid_from (String.length s) s.

(** The float nearest to an integer. *)
Definition float64_of_int (n : Z) : float64 := round_decimal (n <? 0) (Z.abs n) 0.

(** What the library promises of the text of a float: it is a number of
    JSON, and it reads back as that float. *)
Definition float_ok `{GoLib} (f : float64) : Prop :=
  is_finite f = true /\
  is_number_literal (FormatFloat f) = true /\
  ParseFloat (FormatFloat f) = Some f.

(** The value that [ToJSON] hands to the encoder. *)
Definition sent_value `{GoLib} (opts : JSONOptions) (v : any) : any :=
  if PreserveType opts then
    match v with
    | Str str =>
        match ParseInt str with
        | Some n => Int64 n
        | None =>
            match ParseFloat str with
            | Some f => Float64 f
            | None => Str str
            end
        end
    | v => v
    end
  else v.

(** A scalar that JSON can carry: nil, a boolean, a 64-bit integer, a
    float whose text reads back, a text that is well-formed UTF-8. *)
Definition scalar_ok `{GoLib} (v : any) : Prop :=
  match v with
  | Nil | Bool _ => True
  | Int n | Int64 n => in_int64 n = true
  | Float64 f => float_ok f
  | Str s => utf8_valid s = true
  | _ => False
  end.

(** What a scalar comes back as: an integer as the float nearest to it,
    any other scalar as itself. *)
Definition json_image (v : any) : any :=
  match v with
  | Int n | Int64 n => Float64 (float64_of_int n)
  | v => v
  end.

(** The value of JSON that the text of a scalar denotes. *)
Definition value_json `{GoLib} (v : any) : json :=
  match v with
  | Nil => JNull
  | Bool b => JBool b
  | Int n | Int64 n => JNumber (FormatInt n)
  | Float64 f => JNumber (FormatFloat f)
  | Str s => JString s
  | _ => JNull
  end.

(** A pair of a container that the round trip is about: a text key and a
    scalar, as the encoder gets it. *)
Definition pair_ok `{GoLib} (opts : JSONOptions) (e : key * any) : Prop :=
  (exists s, e.1 = KString s /\ utf8_valid s = true) /\
  scalar_ok (sent_value opts e.2).

(** A byte that cannot continue a number. *)
Definition ends_number (rest : string) : Prop :=
  match rest with
  | EmptyString => True
  | String c _ =>
      is_digit c = false /\ c <> "."%char /\ c <> "e"%char /\ c <> "E"%char
  end.

(** One round of [scan_string], with the rest of the scan as [again]. *)
Definition scan_step (again : string -> option (string * string))
    (s : string) : option (string * string) :=
  match s with
  | EmptyString => None
  | String c s1 =>
      if Ascii.eqb c dquote then Some (EmptyString, s1)
      else if Ascii.eqb c "\" then
        match s1 with
        | EmptyString => None
        | String e s2 =>
            if Ascii.eqb e "u" then
              match getu4 s1 with
              | None => None
              | Some (rr, s3) =>
                  let '(out, s4) :=
                    if ((55296 <=? rr) && (rr <? 57344))%N then
                      match s3 with
                      | String b s3' =>
                          match (if Ascii.eqb b "\" then getu4 s3' else None) with
                          | Some (rr1, s5) =>
                              if ((rr <? 56320) && (56320 <=? rr1) && (rr1 <? 57344))%N
                              then (EncodeRune ((rr - 55296) * 1024 + (rr1 - 56320) + 65536)%N, s5)
                              else (replacement_char, s3)
                          | None => (replacement_char, s3)
                          end
                      | EmptyString => (replacement_char, s3)
                      end
                    else (EncodeRune rr, s3) in
                  match again s4 with
                  | Some (t, r) => Some (out +:+ t, r)
                  | None => None
                  end
              end
            else
              match unescape e with
              | Some b =>
                  match again s2 with
                  | Some (t, r) => Some (String b t, r)
                  | None => None
                  end
              | None => None
              end
        end
      else if (N_of_ascii c <? 32)%N then None
      else
        match rune_size s with
        | Some n =>
            match again (drop_string n s) with
            | Some (t, r) => Some (take_string n s +:+ t, r)
            | None => None
            end
        | None =>
            match again s1 with
            | Some (t, r) => Some (replacement_char +:+ t, r)
            | None => None
            end
        end
  end.
(* ===================================================================== *)
(** ** Loops over the list *)
(* ===================================================================== *)

(** The cells [ls] are those a loop visits, in turn, that starts at
    [start] and goes on along the link [dir] until it is nil. *)
Fixpoint path (dir : Node -> option loc) (h : heap) (start : option loc)
    (ls : list loc) : Prop :=
  match ls with
  | [] => start = None
  | p :: ls' =>
      start = Some p /\ exists nd, h !! p = Some nd /\ path dir h (dir nd) ls'
  end.

(* ===================================================================== *)
(** * Proofs: keys and the index *)
(* ===================================================================== *)

Lemma SFeqb_true (x y : float64) :
  SFeqb x y = true ->
  match x, y with
  | S754_zero _, S754_zero _ => True
  | S754_infinity a, S754_infinity b => a = b
  | S754_finite a m e, S754_finite b m' e' => a = b /\ m = m' /\ e = e'
  | _, _ => False
  end.
Proof.
  unfold SFeqb, SFcompare. intros H.
  destruct x as [a|a| |a m e], y as [b|b| |b m' e'];
    try discriminate H; try (destruct a; discriminate H);
    try (destruct b; discriminate H); auto.
  - destruct a, b; try discriminate; auto.
  - fold (Pos.compare m m') in H.
    destruct a, b; try discriminate H;
      destruct (Z.compare_spec e e'); try discriminate H;
      destruct (Pos.compare_spec m m'); try discriminate H; subst; auto.
Qed.

Lemma SFeqb_finite_refl a m e : SFeqb (S754_finite a m e) (S754_finite a m e) = true.
Proof.
  unfold SFeqb, SFcompare. rewrite Z.compare_refl.
  fold (Pos.compare m m). rewrite Pos.compare_refl. destruct a; reflexivity.
Qed.

Lemma SFeqb_sym (x y : float64) : SFeqb x y = true -> SFeqb y x = true.
Proof.
  intros H. apply SFeqb_true in H.
  destruct x as [a|a| |a m e], y as [b|b| |b m' e']; try contradiction; auto.
  - subst; destruct b; reflexivity.
  - destruct H as (-> & -> & ->). apply SFeqb_finite_refl.
Qed.

Lemma SFeqb_trans (x y z : float64) :
  SFeqb x y = true -> SFeqb y z = true -> SFeqb x z = true.
Proof.
  intros H1 H2. apply SFeqb_true in H1. apply SFeqb_true in H2.
  destruct x as [a|a| |a m e], y as [b|b| |b m' e'], z as [c|c| |c m'' e''];
    try contradiction; auto.
  - subst; destruct c; reflexivity.
  - destruct H1 as (-> & -> & ->), H2 as (-> & -> & ->). apply SFeqb_finite_refl.
Qed.

Lemma key_eqb_sym (a b : key) : key_eqb a b = true -> key_eqb b a = true.
Proof.
  destruct a, b; simpl; try discriminate; auto.
  - intros H; apply Bool.eqb_prop in H; subst; apply Bool.eqb_reflx.
  - rewrite !Z.eqb_eq; auto.
  - rewrite !Z.eqb_eq; auto.
  - apply SFeqb_sym.
  - rewrite !String.eqb_eq; auto.
Qed.

Lemma key_eqb_trans (a b c : key) :
  key_eqb a b = true -> key_eqb b c = true -> key_eqb a c = true.
Proof.
  destruct a, b; simpl; try discriminate; destruct c; simpl; try discriminate; auto.
  - intros H1 H2; apply Bool.eqb_prop in H1, H2; subst; apply Bool.eqb_reflx.
  - rewrite !Z.eqb_eq; congruence.
  - rewrite !Z.eqb_eq; congruence.
  - apply SFeqb_trans.
  - rewrite !String.eqb_eq; congruence.
Qed.

Lemma key_eqb_false_sym (a b : key) : key_eqb a b = false -> key_eqb b a = false.
Proof.
  intros H. destruct (key_eqb b a) eqn:E; [|done].
  apply key_eqb_sym in E. congruence.
Qed.

(** A key equal to one of two unequal keys is unequal to the other. *)
Lemma key_eqb_false_l (a b c : key) :
  key_eqb a b = true -> key_eqb a c = false -> key_eqb b c = false.
Proof.
  intros H1 H2. destruct (key_eqb b c) eqn:E; [|done].
  rewrite (key_eqb_trans _ _ _ H1 E) in H2. done.
Qed.

Lemma key_eqb_nil_false (a k : key) :
  is_nil a = false -> is_nil k = true -> key_eqb a k = false.
Proof. destruct a, k; simpl; congruence. Qed.

Lemma distinct_app (ks1 ks2 : list key) :
  distinct (ks1 ++ ks2) <->
  distinct ks1 /\ distinct ks2 /\
  Forall (fun k1 => Forall (fun k2 => key_eqb k1 k2 = false) ks2) ks1.
Proof.
  induction ks1 as [|k ks1 IH]; simpl.
  - split; [intros; repeat split; auto|tauto].
  - rewrite Forall_app, IH, Forall_cons. tauto.
Qed.

Lemma distinct_snoc (ks : list key) (k : key) :
  distinct ks -> Forall (fun k' => key_eqb k' k = false) ks -> distinct (ks ++ [k]).
Proof.
  intros Hd Hk. apply distinct_app. repeat split; simpl; auto.
  eapply Forall_impl; [exact Hk|]. intros k' Hk'. auto.
Qed.

(* ===================================================================== *)
(** * Proofs: segments of the store *)
(* ===================================================================== *)

Lemma dseg_lookup h pp ls qn p :
  dseg h pp ls qn -> p ∈ ls -> is_Some (h !! p).
Proof.
  revert pp. induction ls as [|q ls IH]; intros pp Hd Hin.
  - inversion Hin.
  - destruct Hd as (nd & Hq & _ & _ & Hd).
    apply elem_of_cons in Hin as [->|Hin]; eauto.
Qed.

Lemma dseg_frame h h' pp ls qn :
  (forall p, p ∈ ls -> h' !! p = h !! p) ->
  dseg h pp ls qn -> dseg h' pp ls qn.
Proof.
  revert pp. induction ls as [|q ls IH]; intros pp Hag Hd; [done|].
  destruct Hd as (nd & Hq & Hp & Hn & Hd).
  exists nd. rewrite Hag by left. repeat split; auto.
  apply IH; auto. intros p Hp'. apply Hag. by right.
Qed.

Arguments nodes_at : simpl never.

Lemma nodes_at_unfold h p ls :
  nodes_at h (p :: ls) =
  match h !! p with Some nd => nd :: nodes_at h ls | None => nodes_at h ls end.
Proof. reflexivity. Qed.

Lemma nodes_at_frame h h' ls :
  (forall p, p ∈ ls -> h' !! p = h !! p) ->
  nodes_at h' ls = nodes_at h ls.
Proof.
  induction ls as [|q ls IH]; intros Hag; [done|].
  rewrite !nodes_at_unfold, Hag by left. rewrite IH; [done|].
  intros p Hp. apply Hag. by right.
Qed.

Lemma nodes_at_app h l1 l2 :
  nodes_at h (l1 ++ l2) = nodes_at h l1 ++ nodes_at h l2.
Proof. unfold nodes_at. apply omap_app. Qed.

Lemma nodes_at_cons h p nd ls :
  h !! p = Some nd -> nodes_at h (p :: ls) = nd :: nodes_at h ls.
Proof. intros H. by rewrite nodes_at_unfold, H. Qed.

Lemma nodes_at_length h pp ls qn :
  dseg h pp ls qn -> List.length (nodes_at h ls) = List.length ls.
Proof.
  revert pp. induction ls as [|q ls IH]; intros pp Hd; [done|].
  destruct Hd as (nd & Hq & _ & _ & Hd).
  rewrite (nodes_at_cons _ _ nd) by done. simpl. f_equal. eauto.
Qed.

Lemma last_or_cons (pp : option loc) p l :
  from_option Some pp (last (p :: l)) = from_option Some (Some p) (last l).
Proof. rewrite last_cons. by destruct (last l). Qed.

Lemma dseg_app h pp l1 l2 qn :
  dseg h pp (l1 ++ l2) qn <->
  dseg h pp l1 (first_or l2 qn) /\ dseg h (from_option Some pp (last l1)) l2 qn.
Proof.
  revert pp. induction l1 as [|p l1 IH]; intros pp.
  - simpl. tauto.
  - rewrite last_or_cons. simpl. split.
    + intros (nd & Hp & Hpp & Hn & Hd). apply IH in Hd as [Hd1 Hd2]. split; [|done].
      exists nd. repeat split; auto. destruct l1; auto.
    + intros ((nd & Hp & Hpp & Hn & Hd1) & Hd2).
      exists nd. repeat split; auto.
      * destruct l1; auto.
      * apply IH. by split.
Qed.

Lemma walk_dseg h pp ls fuel :
  dseg h pp ls None -> (List.length ls <= fuel)%nat ->
  walk fuel h (first_or ls None) = Some (nodes_at h ls).
Proof.
  revert pp fuel. induction ls as [|p ls IH]; intros pp fuel Hd Hf.
  - destruct fuel; reflexivity.
  - destruct Hd as (nd & Hp & _ & Hn & Hd).
    destruct fuel as [|fuel]; [simpl in Hf; lia|].
    simpl. rewrite Hp, Hn. erewrite IH; [|exact Hd|simpl in Hf; lia].
    simpl. by rewrite (nodes_at_cons _ _ nd).
Qed.

Lemma chain_bound (h : heap) (ls : list loc) :
  NoDup ls -> (forall p, p ∈ ls -> is_Some (h !! p)) ->
  (List.length ls <= size h)%nat.
Proof.
  intros Hnd Hin.
  rewrite <- (size_dom (D := gset loc)).
  rewrite <- (size_list_to_set (C := gset loc) ls) by done.
  apply subseteq_size. intros p Hp.
  apply elem_of_list_to_set in Hp. apply elem_of_dom. auto.
Qed.

Lemma first_or_None ls : first_or ls None = ls !! 0%nat.
Proof. by destruct ls. Qed.

Lemma walk_inv h om ls :
  inv h om ls -> walk (enough h) h (head om) = Some (nodes_at h ls).
Proof.
  intros [Hnd Hd Hh _ _ _ _ _]. rewrite Hh, <- first_or_None.
  eapply walk_dseg; [exact Hd|]. unfold enough.
  pose proof (chain_bound h ls Hnd (fun p => dseg_lookup _ _ _ _ _ Hd)). lia.
Qed.
Lemma wrap64_succ n : wrap64 (wrap64 n + 1) = wrap64 (n + 1).
Proof.
  unfold wrap64.
  replace (((n + 2 ^ 63) mod 2 ^ 64 - 2 ^ 63 + 1 + 2 ^ 63)) with ((n + 2 ^ 63) mod 2 ^ 64 + 1) by lia.
  replace (n + 1 + 2 ^ 63) with ((n + 2 ^ 63) + 1) by lia.
  rewrite Zplus_mod_idemp_l. reflexivity.
Qed.
Lemma wrap64_pred n : wrap64 (wrap64 n - 1) = wrap64 (n - 1).
Proof.
  unfold wrap64.
  replace (((n + 2 ^ 63) mod 2 ^ 64 - 2 ^ 63 - 1 + 2 ^ 63)) with ((n + 2 ^ 63) mod 2 ^ 64 + (-1)) by lia.
  replace (n - 1 + 2 ^ 63) with ((n + 2 ^ 63) + (-1)) by lia.
  rewrite Zplus_mod_idemp_l. reflexivity.
Qed.
Lemma wrap64_small n : - 2 ^ 63 <= n < 2 ^ 63 -> wrap64 n = n.
Proof. intros H. unfold wrap64. rewrite Z.mod_small; lia. Qed.

Lemma map_lookup_split h pp ls qn k p :
  dseg h pp ls qn ->
  map_lookup (zip (map Key (nodes_at h ls)) ls) k = Some p ->
  exists l1 l2 nd, ls = l1 ++ p :: l2 /\ h !! p = Some nd /\
    key_eqb (Key nd) k = true /\
    Forall (fun n => key_eqb (Key n) k = false) (nodes_at h l1).
Proof.
  revert pp. induction ls as [|q ls IH]; intros pp Hd Hl.
  - discriminate.
  - destruct Hd as (nd & Hq & _ & _ & Hd).
    rewrite (nodes_at_cons _ _ nd) in Hl by done. simpl in Hl.
    destruct (key_eqb (Key nd) k) eqn:E.
    + injection Hl as <-. exists [], ls, nd. repeat split; auto.
    + destruct (IH _ Hd Hl) as (l1 & l2 & nd' & -> & Hp & Hk & Hall).
      exists (q :: l1), l2, nd'. repeat split; auto.
      rewrite (nodes_at_cons _ _ nd) by done. constructor; auto.
Qed.

Lemma map_lookup_none h pp ls qn k :
  dseg h pp ls qn ->
  map_lookup (zip (map Key (nodes_at h ls)) ls) k = None ->
  Forall (fun n => key_eqb (Key n) k = false) (nodes_at h ls).
Proof.
  revert pp. induction ls as [|q ls IH]; intros pp Hd Hl.
  - constructor.
  - destruct Hd as (nd & Hq & _ & _ & Hd).
    rewrite (nodes_at_cons _ _ nd) in Hl |- * by done. simpl in Hl.
    destruct (key_eqb (Key nd) k) eqn:E; [discriminate|].
    constructor; eauto.
Qed.

Lemma map_store_fresh (ks : list key) (ls : list nat) k p :
  List.length ks = List.length ls ->
  map_lookup (zip ks ls) k = None ->
  map_store (zip ks ls) k p = zip (ks ++ [k]) (ls ++ [p]).
Proof.
  revert ls. induction ks as [|k' ks IH]; intros [|q ls] Hlen Hl; try discriminate.
  - reflexivity.
  - simpl in *. destruct (key_eqb k' k); [discriminate|]. f_equal. apply IH; auto.
Qed.

Lemma map_delete_split (ks1 ks2 : list key) (l1 l2 : list nat) k k' p :
  List.length ks1 = List.length l1 ->
  Forall (fun x => key_eqb x k = false) ks1 ->
  key_eqb k' k = true ->
  map_delete (zip (ks1 ++ k' :: ks2) (l1 ++ p :: l2)) k = zip (ks1 ++ ks2) (l1 ++ l2).
Proof.
  revert l1. induction ks1 as [|x ks1 IH]; intros [|q l1] Hlen Hall Hk; try discriminate.
  - simpl. by rewrite Hk.
  - simpl. inversion Hall; subst. rewrite H1. f_equal. apply IH; auto.
Qed.
Lemma assoc_update_app l1 l2 k v :
  Forall (fun e => key_eqb (fst e) k = false) l1 ->
  assoc_update (l1 ++ l2) k v = l1 ++ assoc_update l2 k v.
Proof.
  induction l1 as [|[k' v'] l1 IH]; intros Hall; [done|].
  inversion Hall; subst. simpl in *. rewrite H1. f_equal. auto.
Qed.

Lemma assoc_remove_app l1 l2 k :
  Forall (fun e => key_eqb (fst e) k = false) l1 ->
  assoc_remove (l1 ++ l2) k = l1 ++ assoc_remove l2 k.
Proof.
  induction l1 as [|[k' v'] l1 IH]; intros Hall; [done|].
  inversion Hall; subst. simpl in *. rewrite H1. f_equal. auto.
Qed.

Lemma assoc_get_app l1 l2 k :
  Forall (fun e => key_eqb (fst e) k = false) l1 ->
  assoc_get (l1 ++ l2) k = assoc_get l2 k.
Proof.
  induction l1 as [|[k' v'] l1 IH]; intros Hall; [done|].
  inversion Hall; subst. simpl in *. rewrite H1. auto.
Qed.

Lemma has_key_false l k :
  has_key k l = false <-> Forall (fun e => key_eqb (fst e) k = false) l.
Proof.
  unfold has_key. induction l as [|e l IH]; simpl.
  - split; [constructor|done].
  - rewrite orb_false_iff, Forall_cons, IH. tauto.
Qed.

Lemma has_key_app l1 l2 k : has_key k (l1 ++ l2) = has_key k l1 || has_key k l2.
Proof. unfold has_key. apply existsb_app. Qed.

Lemma entries_app h l1 l2 : entries h (l1 ++ l2) = entries h l1 ++ entries h l2.
Proof. unfold entries. by rewrite nodes_at_app, map_app. Qed.

Lemma entries_cons h p nd ls :
  h !! p = Some nd -> entries h (p :: ls) = (Key nd, Value nd) :: entries h ls.
Proof. intros H. unfold entries. by rewrite (nodes_at_cons _ _ nd). Qed.

Lemma entries_frame h h' ls :
  (forall p, p ∈ ls -> h' !! p = h !! p) -> entries h' ls = entries h ls.
Proof. intros H. unfold entries. by rewrite (nodes_at_frame h h'). Qed.

Lemma Forall_keys_entries h ls (P : key -> Prop) :
  Forall (fun n => P (Key n)) (nodes_at h ls) <->
  Forall (fun e => P (fst e)) (entries h ls).
Proof. unfold entries. by rewrite Forall_map. Qed.

Lemma keys_entries h ls : map fst (entries h ls) = map Key (nodes_at h ls).
Proof. unfold entries. rewrite map_map. reflexivity. Qed.

Lemma new_loc_fresh (h : heap) : h !! new_loc h = None.
Proof. apply not_elem_of_dom. unfold new_loc. apply is_fresh. Qed.

Lemma last_None_nil {A} (l : list A) : last l = None <-> l = [].
Proof. split; [apply last_None|intros ->; done]. Qed.

Lemma head_None_nil {A} (l : list A) : l !! 0%nat = None <-> l = [].
Proof. destruct l; split; done. Qed.

(** The invariant speaks of the cells of the chain only. *)
Lemma inv_frame h h' om ls :
  (forall p, p ∈ ls -> h' !! p = h !! p) -> inv h om ls -> inv h' om ls.
Proof.
  intros Hag [Hnd Hd Hh Ht Hi Hdi Hnn Hl].
  split; auto.
  - by apply (dseg_frame h).
  - by rewrite (nodes_at_frame h h').
  - by rewrite (nodes_at_frame h h').
  - by rewrite (nodes_at_frame h h').
Qed.

Lemma inv_mu h om ls e : inv h om ls -> inv h (mu_call e om) ls.
Proof. intros [Hnd Hd Hh Ht Hi Hdi Hnn Hl]. split; auto. Qed.

Lemma inv_lookup h om ls p : inv h om ls -> p ∈ ls -> is_Some (h !! p).
Proof. intros Hi. eapply dseg_lookup. apply Hi. Qed.
Lemma inv_lengths h om ls :
  inv h om ls -> List.length (map Key (nodes_at h ls)) = List.length ls.
Proof. intros Hi. rewrite length_map. eapply nodes_at_length. apply Hi. Qed.

(** Updating the value of a node of the chain. *)
Lemma store_existing h om l1 p l2 nd k v :
  inv h om (l1 ++ p :: l2) -> h !! p = Some nd ->
  key_eqb (Key nd) k = true ->
  Forall (fun n => key_eqb (Key n) k = false) (nodes_at h l1) ->
  let h' := alter (set_Value v) p h in
  inv h' om (l1 ++ p :: l2) /\
  entries h' (l1 ++ p :: l2) = assoc_set (entries h (l1 ++ p :: l2)) k v /\
  has_key k (entries h (l1 ++ p :: l2)) = true.
Proof.
  intros Hi Hp Hk Hall h'.
  pose proof (inv_nodup _ _ _ Hi) as Hnd.
  apply NoDup_app in Hnd as (Hnd1 & Hp1 & Hnd2).
  apply NoDup_cons in Hnd2 as (Hp2 & Hnd2).
  assert (Hf1 : forall q, q ∈ l1 -> h' !! q = h !! q).
  { intros q Hq. unfold h'. rewrite lookup_alter_ne; [done|].
    intros ->. apply (Hp1 _ Hq). by left. }
  assert (Hf2 : forall q, q ∈ l2 -> h' !! q = h !! q).
  { intros q Hq. unfold h'. rewrite lookup_alter_ne; [done|]. by intros ->. }
  assert (Hp' : h' !! p = Some (set_Value v nd)).
  { unfold h'. by rewrite lookup_alter_eq, Hp. }
  assert (Hn : nodes_at h (l1 ++ p :: l2) = nodes_at h l1 ++ nd :: nodes_at h l2).
  { by rewrite nodes_at_app, (nodes_at_cons _ _ nd). }
  assert (Hn' : nodes_at h' (l1 ++ p :: l2) = nodes_at h l1 ++ set_Value v nd :: nodes_at h l2).
  { rewrite nodes_at_app, (nodes_at_cons _ _ (set_Value v nd)) by done.
    by rewrite (nodes_at_frame h h' l1), (nodes_at_frame h h' l2). }
  assert (Hkeys : map Key (nodes_at h' (l1 ++ p :: l2)) = map Key (nodes_at h (l1 ++ p :: l2))).
  { rewrite Hn, Hn'. by rewrite !map_app. }
  assert (Hhas : has_key k (entries h (l1 ++ p :: l2)) = true).
  { rewrite entries_app, (entries_cons _ _ nd), has_key_app by done.
    simpl. rewrite Hk. apply orb_true_r. }
  split; [|split; [|done]].
  - destruct Hi as [_ Hd Hh Ht Hix Hdi Hnn Hl]. split; auto.
    + apply NoDup_app. repeat split; auto. by apply NoDup_cons.
    + apply dseg_app in Hd as [Hd1 Hd2]. apply dseg_app. split.
      * by apply (dseg_frame h).
      * destruct Hd2 as (nd0 & Hp0 & Hpp & Hnx & Hd2).
        assert (nd0 = nd) as -> by congruence.
        exists (set_Value v nd). repeat split; auto.
        by apply (dseg_frame h).
    + by rewrite Hkeys.
    + by rewrite Hkeys.
    + by rewrite Hkeys.
  - unfold assoc_set. rewrite Hhas.
    rewrite !entries_app, (entries_cons h _ nd), (entries_cons h' _ (set_Value v nd)) by done.
    rewrite (entries_frame h h' l1), (entries_frame h h' l2) by done.
    rewrite assoc_update_app
      by (by apply (Forall_keys_entries h l1 (fun x => key_eqb x k = false))).
    simpl. by rewrite Hk.
Qed.
Lemma store_pair_spec empty h om ls k v :
  inv h om ls -> is_nil k = false ->
  empty om = bool_decide (ls = []) ->
  let r := store_pair empty h om k v in
  let ls' := if has_key k (entries h ls) then ls else ls ++ [new_loc h] in
  inv r.1 r.2 ls' /\
  entries r.1 ls' = assoc_set (entries h ls) k v /\
  (forall p, p ∉ ls' -> r.1 !! p = h !! p) /\
  mu r.2 = mu om.
Proof.
  intros Hi Hk He r ls'. subst r ls'. unfold store_pair.
  pose proof (inv_index _ _ _ Hi) as Hix.
  pose proof (inv_dseg _ _ _ Hi) as Hd.
  destruct (map_lookup (nodeMap om) k) as [p|] eqn:Hl; rewrite Hix in Hl.
  - destruct (map_lookup_split _ _ _ _ _ _ Hd Hl) as (l1 & l2 & nd & -> & Hp & Hkk & Hall).
    destruct (store_existing h om l1 p l2 nd k v Hi Hp Hkk Hall) as (Hi' & Hen & Hhas).
    rewrite Hhas. simpl. split; [exact Hi'|split; [exact Hen|split; [|done]]].
    intros q Hq. rewrite lookup_alter_ne; [done|]. intros ->. apply Hq.
    apply elem_of_app. right. by left.
  - pose proof (map_lookup_none _ _ _ _ _ Hd Hl) as Hall.
    assert (Hhas : has_key k (entries h ls) = false).
    { apply has_key_false. by apply (Forall_keys_entries h ls (fun x => key_eqb x k = false)). }
    rewrite Hhas, He. unfold assoc_set. rewrite Hhas.
    set (new := new_loc h).
    assert (Hnew : h !! new = None) by apply new_loc_fresh.
    assert (Hnin : new ∉ ls).
    { intros Hin. destruct (inv_lookup _ _ _ _ Hi Hin) as [x Hx]. congruence. }
    destruct Hi as [Hnd _ Hh Ht _ Hdi Hnn Hlen].
    pose proof (nodes_at_length _ _ _ _ Hd) as Hnl.
    destruct ls as [|t0 l0 _] using rev_ind.
    + rewrite bool_decide_eq_true_2 by done. simpl.
      assert (Hn : nodes_at (<[new:=mkNode k v None None]> h) [new] = [mkNode k v None None]).
      { by rewrite (nodes_at_cons _ _ (mkNode k v None None)) by apply lookup_insert_eq. }
      repeat split; simpl; auto.
      * apply NoDup_singleton.
      * exists (mkNode k v None None). rewrite lookup_insert_eq. done.
      * rewrite Hix, Hn. reflexivity.
      * rewrite Hn. simpl. auto.
      * rewrite Hn. simpl. auto.
      * rewrite Hlen. reflexivity.
      * unfold entries. by rewrite Hn.
      * intros q Hq. rewrite lookup_insert_ne; [done|]. intros ->. apply Hq. by left.
    + rewrite bool_decide_eq_false_2 by (by destruct l0). simpl.
      rewrite Ht, last_snoc. simpl.
      set (h1 := <[new:=mkNode k v None None]> h).
      set (h2 := alter (set_prev (Some t0)) new h1).
      set (h3 := alter (set_next (Some new)) t0 h2).
      apply NoDup_app in Hnd as (Hnd0 & Ht0 & _).
      assert (Hne : t0 <> new).
      { intros ->. apply Hnin. apply elem_of_app. right. by left. }
      assert (Ht0' : t0 ∉ l0).
      { intros Hin. apply (Ht0 _ Hin). by left. }
      assert (Hf0 : forall q, q ∈ l0 -> h3 !! q = h !! q).
      { intros q Hq. unfold h3, h2, h1.
        rewrite lookup_alter_ne by (by intros ->).
        rewrite lookup_alter_ne by (intros ->; apply Hnin; apply elem_of_app; by left).
        rewrite lookup_insert_ne by (intros ->; apply Hnin; apply elem_of_app; by left).
        done. }
      apply dseg_app in Hd as [Hd0 (ndt & Hpt & Hppt & Hnxt & _)].
      assert (Hpt3 : h3 !! t0 = Some (set_next (Some new) ndt)).
      { unfold h3, h2, h1. rewrite lookup_alter_eq, lookup_alter_ne, lookup_insert_ne by done.
        by rewrite Hpt. }
      assert (Hpn3 : h3 !! new = Some (mkNode k v (Some t0) None)).
      { unfold h3, h2, h1. rewrite lookup_alter_ne, lookup_alter_eq, lookup_insert_eq by done.
        done. }
      assert (Hn : nodes_at h (l0 ++ [t0]) = nodes_at h l0 ++ [ndt]).
      { by rewrite nodes_at_app, (nodes_at_cons _ _ ndt). }
      assert (Hn3 : nodes_at h3 ((l0 ++ [t0]) ++ [new]) =
                    nodes_at h l0 ++ [set_next (Some new) ndt; mkNode k v (Some t0) None]).
      { rewrite <- app_assoc. simpl. rewrite nodes_at_app.
        rewrite (nodes_at_frame h h3 l0) by done.
        by rewrite (nodes_at_cons _ _ (set_next (Some new) ndt)),
                   (nodes_at_cons _ _ (mkNode k v (Some t0) None)). }
      assert (Hkeys : map Key (nodes_at h3 ((l0 ++ [t0]) ++ [new])) =
                      map Key (nodes_at h (l0 ++ [t0])) ++ [k]).
      { rewrite Hn3, Hn, !map_app, <- app_assoc. reflexivity. }
      repeat split; simpl; auto.
      * apply NoDup_app. repeat split.
        -- apply NoDup_app. repeat split; auto. apply NoDup_singleton.
        -- intros q Hq Hq'. apply list_elem_of_singleton in Hq' as ->. done.
        -- apply NoDup_singleton.
      * rewrite <- app_assoc. apply dseg_app. split.
        -- simpl. by apply (dseg_frame h).
        -- simpl. exists (set_next (Some new) ndt). repeat split; auto.
           exists (mkNode k v (Some t0) None). repeat split; auto.
      * rewrite Hh. rewrite <- app_assoc. by destruct l0.
      * by rewrite last_snoc.
      * rewrite Hkeys. rewrite Hix. apply map_store_fresh; [|exact Hl].
        by rewrite length_map.
      * rewrite Hkeys. apply distinct_snoc; [done|].
        by apply Forall_map.
      * rewrite Hkeys. apply Forall_app. split; [done|]. by constructor.
      * rewrite Hlen. rewrite wrap64_succ. f_equal. rewrite !length_app. simpl. lia.
      * unfold entries. rewrite Hn3, Hn. rewrite !map_app. simpl.
        rewrite <- app_assoc. reflexivity.
      * intros q Hq. unfold h3, h2, h1.
        rewrite lookup_alter_ne, lookup_alter_ne, lookup_insert_ne; [done|..].
        -- intros ->. apply Hq. apply elem_of_app. right. by left.
        -- intros ->. apply Hq. apply elem_of_app. right. by left.
        -- intros ->. apply Hq. apply elem_of_app. left. apply elem_of_app. right. by left.
Qed.
Lemma dseg_set_next h h' pp l a qn qn' :
  dseg h pp (l ++ [a]) qn ->
  (forall q, q ∈ l -> h' !! q = h !! q) ->
  h' !! a = set_next qn' <$> h !! a ->
  dseg h' pp (l ++ [a]) qn'.
Proof.
  intros Hd Hf Ha. apply dseg_app in Hd as [Hd1 (nd & Hp & Hpp & Hn & _)].
  apply dseg_app. split.
  - by apply (dseg_frame h).
  - exists (set_next qn' nd). rewrite Ha, Hp. done.
Qed.

Lemma dseg_set_prev h h' pp pp' b l qn :
  dseg h pp (b :: l) qn ->
  (forall q, q ∈ l -> h' !! q = h !! q) ->
  h' !! b = set_prev pp' <$> h !! b ->
  dseg h' pp' (b :: l) qn.
Proof.
  intros (nd & Hp & Hpp & Hn & Hd) Hf Hb.
  exists (set_prev pp' nd). rewrite Hb, Hp. repeat split; auto.
  by apply (dseg_frame h).
Qed.

Lemma entries_data h ls : entries h ls = omap (data_of h) ls.
Proof.
  induction ls as [|q ls IH]; [done|].
  unfold entries in *. rewrite nodes_at_unfold. simpl. unfold data_of at 1.
  destruct (h !! q); simpl; by rewrite IH.
Qed.

Lemma entries_ext h h' ls :
  (forall q, q ∈ ls -> data_of h' q = data_of h q) -> entries h' ls = entries h ls.
Proof.
  intros H. rewrite !entries_data. apply list_omap_ext.
  induction ls as [|q ls IH]; constructor.
  - apply H. by left.
  - apply IH. intros; apply H; by right.
Qed.

Lemma data_alter_next h p x q : data_of (alter (set_next x) p h) q = data_of h q.
Proof.
  unfold data_of. destruct (decide (p = q)) as [->|].
  - rewrite lookup_alter_eq. by destruct (h !! q).
  - by rewrite lookup_alter_ne.
Qed.

Lemma data_alter_prev h p x q : data_of (alter (set_prev x) p h) q = data_of h q.
Proof.
  unfold data_of. destruct (decide (p = q)) as [->|].
  - rewrite lookup_alter_eq. by destruct (h !! q).
  - by rewrite lookup_alter_ne.
Qed.

Lemma distinct_remove (ks1 ks2 : list key) k :
  distinct (ks1 ++ k :: ks2) -> distinct (ks1 ++ ks2).
Proof.
  rewrite !distinct_app. simpl. intros (H1 & (_ & H2) & H3). repeat split; auto.
  eapply Forall_impl; [exact H3|]. intros x Hx. by inversion Hx.
Qed.
Lemma unlink_other h p pv nx q :
  q <> p -> pv <> Some q -> nx <> Some q -> unlink h p pv nx !! q = h !! q.
Proof.
  intros H1 H2 H3. unfold unlink.
  rewrite !lookup_alter_ne by done.
  destruct nx as [b|], pv as [a|];
    rewrite ?lookup_alter_ne by congruence; done.
Qed.

Lemma unlink_prev h p a nx :
  a <> p -> nx <> Some a ->
  unlink h p (Some a) nx !! a = set_next nx <$> h !! a.
Proof.
  intros H1 H2. unfold unlink.
  rewrite !lookup_alter_ne by done.
  destruct nx as [b|]; rewrite ?lookup_alter_ne by congruence;
    by rewrite lookup_alter_eq.
Qed.

Lemma unlink_next h p pv b :
  b <> p -> pv <> Some b ->
  unlink h p pv (Some b) !! b = set_prev pv <$> h !! b.
Proof.
  intros H1 H2. unfold unlink.
  rewrite !lookup_alter_ne by done.
  rewrite lookup_alter_eq.
  destruct pv as [a|]; rewrite ?lookup_alter_ne by congruence; done.
Qed.

Lemma unlink_data h p pv nx q : data_of (unlink h p pv nx) q = data_of h q.
Proof.
  unfold unlink. rewrite data_alter_next, data_alter_prev.
  destruct nx, pv; by rewrite ?data_alter_prev, ?data_alter_next.
Qed.

Lemma dseg_unlink_left h h' pp l1 p nx :
  dseg h pp l1 (Some p) ->
  (forall q, q ∈ l1 -> last l1 <> Some q -> h' !! q = h !! q) ->
  (forall a, last l1 = Some a -> h' !! a = set_next nx <$> h !! a) ->
  NoDup l1 ->
  dseg h' pp l1 nx.
Proof.
  intros Hd Hf Ha Hnd. destruct l1 as [|a l1 _] using rev_ind; [done|].
  apply NoDup_app in Hnd as (_ & Hna & _).
  apply (dseg_set_next h h' pp l1 a (Some p)); auto.
  - intros q Hq. apply Hf; [apply elem_of_app; by left|].
    rewrite last_snoc. intros [= ->]. apply (Hna _ Hq). by left.
  - apply Ha. by rewrite last_snoc.
Qed.

Lemma dseg_unlink_right h h' pp pv l2 :
  dseg h pp l2 None ->
  (forall q, q ∈ l2 -> l2 !! 0%nat <> Some q -> h' !! q = h !! q) ->
  (forall b, l2 !! 0%nat = Some b -> h' !! b = set_prev pv <$> h !! b) ->
  NoDup l2 ->
  dseg h' pv l2 None.
Proof.
  intros Hd Hf Hb Hnd. destruct l2 as [|b l2]; [done|].
  apply NoDup_cons in Hnd as (Hnb & _).
  apply (dseg_set_prev h h' pp pv b l2 None); auto.
  intros q Hq. apply Hf; [by right|]. simpl. intros [= ->]. done.
Qed.

Lemma assoc_remove_absent l k :
  Forall (fun e => key_eqb (fst e) k = false) l -> assoc_remove l k = l.
Proof.
  induction l as [|[k' v'] l IH]; intros Hall; [done|].
  inversion Hall; subst. simpl in *. rewrite H1. f_equal. auto.
Qed.

Lemma head_app_cons {A} (l1 l2 : list A) :
  (l1 ++ l2) !! 0%nat = from_option Some (l2 !! 0%nat) (l1 !! 0%nat).
Proof. by destruct l1. Qed.

Lemma last_app_or {A} (l1 l2 : list A) :
  last (l1 ++ l2) = from_option Some (last l1) (last l2).
Proof.
  destruct l2 as [|x l2 _] using rev_ind.
  - by rewrite app_nil_r.
  - by rewrite app_assoc, !last_snoc.
Qed.
Lemma Delete_unfold h om k :
  is_nil k = false ->
  Delete h om k =
  match map_lookup (nodeMap om) k with
  | None => (h, Unlock (Lock om), None)
  | Some node =>
      match h !! node with
      | None => (h, Unlock (Lock om), None)
      | Some nd =>
          (unlink h node (prev nd) (next nd),
           Unlock (set_length (wrap64 (length om - 1))
             (set_nodeMap (map_delete (nodeMap om) k)
               (mkOrderedMap (mu om ++ [EvLock])
                  (match prev nd with Some _ => head om | None => next nd end)
                  (match next nd with Some _ => tail om | None => prev nd end)
                  (nodeMap om) (length om)))),
           None)
      end
  end.
Proof.
  intros Hk. unfold Delete. rewrite Hk. simpl.
  destruct (map_lookup (nodeMap om) k) as [node|]; [|done].
  destruct (h !! node) as [nd|]; [|done].
  unfold unlink. destruct (prev nd), (next nd); reflexivity.
Qed.
Lemma Delete_spec h om ls k :
  inv h om ls -> is_nil k = false ->
  let r := Delete h om k in
  exists ls',
    inv r.1.1 r.1.2 ls' /\
    entries r.1.1 ls' = assoc_remove (entries h ls) k /\
    ls' ⊆ ls /\
    (forall q, q ∉ ls -> r.1.1 !! q = h !! q) /\
    r.2 = None /\
    mu r.1.2 = mu om ++ [EvLock; EvUnlock].
Proof.
  intros Hi Hk r. subst r. rewrite Delete_unfold by done.
  pose proof (inv_index _ _ _ Hi) as Hix.
  pose proof (inv_dseg _ _ _ Hi) as Hd.
  destruct (map_lookup (nodeMap om) k) as [p|] eqn:Hl; rewrite Hix in Hl.
  - destruct (map_lookup_split _ _ _ _ _ _ Hd Hl) as (l1 & l2 & nd & -> & Hp & Hkk & Hall).
    rewrite Hp. simpl. exists (l1 ++ l2).
    destruct Hi as [Hnd _ Hh Ht _ Hdi Hnn Hlen].
    apply dseg_app in Hd as [Hd1 (nd0 & Hp0 & Hpv & Hnx & Hd2)].
    assert (nd0 = nd) as -> by congruence. clear Hp0.
    simpl in Hpv.
    pose proof Hnd as Hnd'.
    apply NoDup_app in Hnd' as (Hnd1 & Hp1 & Hnd2).
    apply NoDup_cons in Hnd2 as (Hp2 & Hnd2).
    assert (Hpl1 : p ∉ l1).
    { intros Hin. apply (Hp1 _ Hin). by left. }
    assert (H12 : forall q, q ∈ l1 -> q ∉ l2).
    { intros q Hq Hq'. apply (Hp1 _ Hq). by right. }
    set (h' := unlink h p (prev nd) (next nd)).
    assert (Hpv' : prev nd = last l1).
    { rewrite Hpv. by destruct (last l1). }
    assert (Hnx' : next nd = l2 !! 0%nat).
    { rewrite Hnx. apply first_or_None. }
    assert (Hf1 : forall q, q ∈ l1 -> last l1 <> Some q -> h' !! q = h !! q).
    { intros q Hq Hlast. apply unlink_other.
      - by intros ->.
      - by rewrite Hpv'.
      - rewrite Hnx'. intros Hq'. apply (H12 _ Hq).
        by apply list_elem_of_lookup_2 in Hq'. }
    assert (Ha1 : forall a, last l1 = Some a -> h' !! a = set_next (next nd) <$> h !! a).
    { intros a Ha. unfold h'. rewrite Hpv', Ha.
      assert (Hin : a ∈ l1).
      { apply last_Some in Ha as [l' ->]. apply elem_of_app. right. by left. }
      apply unlink_prev.
      - by intros ->.
      - rewrite Hnx'. intros Hq'. apply (H12 _ Hin).
        by apply list_elem_of_lookup_2 in Hq'. }
    assert (Hf2 : forall q, q ∈ l2 -> l2 !! 0%nat <> Some q -> h' !! q = h !! q).
    { intros q Hq Hfirst. apply unlink_other.
      - by intros ->.
      - rewrite Hpv'. intros Hq'. apply last_Some in Hq' as [l' ->].
        apply (H12 q); [|done]. apply elem_of_app. right. by left.
      - by rewrite Hnx'. }
    assert (Hb2 : forall b, l2 !! 0%nat = Some b -> h' !! b = set_prev (prev nd) <$> h !! b).
    { intros b Hb. unfold h'. rewrite Hnx', Hb.
      assert (Hin : b ∈ l2) by (by apply list_elem_of_lookup_2 in Hb).
      apply unlink_next.
      - by intros ->.
      - rewrite Hpv'. intros Hq'. apply last_Some in Hq' as [l' ->].
        apply (H12 b); [|done]. apply elem_of_app. right. by left. }
    assert (Hen : entries h' (l1 ++ l2) = entries h (l1 ++ l2)).
    { apply entries_ext. intros q _. apply unlink_data. }
    assert (Hkeys : map Key (nodes_at h' (l1 ++ l2)) = map Key (nodes_at h (l1 ++ l2))).
    { by rewrite <- !keys_entries, Hen. }
    assert (Hn : map Key (nodes_at h (l1 ++ p :: l2)) =
                 map Key (nodes_at h l1) ++ Key nd :: map Key (nodes_at h l2)).
    { by rewrite nodes_at_app, (nodes_at_cons _ _ nd), map_app. }
    assert (Hn' : map Key (nodes_at h (l1 ++ l2)) =
                 map Key (nodes_at h l1) ++ map Key (nodes_at h l2)).
    { by rewrite nodes_at_app, map_app. }
    split; [|repeat split].
    + split; simpl.
      * apply NoDup_app. repeat split; auto.
      * apply dseg_app. split.
        -- rewrite <- Hnx.
           by apply (dseg_unlink_left h h' None l1 p).
        -- replace (from_option Some None (last l1)) with (prev nd)
             by (rewrite Hpv'; by destruct (last l1)).
           by apply (dseg_unlink_right h h' (Some p)).
      * rewrite head_app_cons. rewrite Hh, head_app_cons. simpl.
        rewrite Hpv', Hnx'.
        destruct l1 as [|x l1 _] using rev_ind; [done|].
        rewrite last_snoc. by destruct l1.
      * rewrite last_app_or. rewrite Ht, last_app_or. rewrite last_cons.
        rewrite Hpv', Hnx'.
        destruct l2 as [|x l2]; [reflexivity|].
        change ((x :: l2) !! 0%nat) with (Some x). cbv beta iota.
        rewrite (last_cons x l2). by destruct (last l2).
      * rewrite Hkeys, Hn', Hix, Hn.
        apply map_delete_split; auto.
        -- rewrite length_map. by apply (nodes_at_length h None l1 (Some p)).
        -- by apply Forall_map.
      * rewrite Hkeys, Hn'. rewrite Hn in Hdi. by apply distinct_remove in Hdi.
      * rewrite Hkeys, Hn'. rewrite Hn in Hnn.
        apply Forall_app in Hnn as [Hnn1 Hnn2]. apply Forall_cons in Hnn2 as [_ Hnn2].
        apply Forall_app. by split.
      * rewrite Hlen, wrap64_pred. f_equal. rewrite !length_app. simpl. lia.
    + rewrite Hen, !entries_app, (entries_cons _ _ nd) by done.
      rewrite assoc_remove_app
        by (by apply (Forall_keys_entries h l1 (fun x => key_eqb x k = false))).
      simpl. by rewrite Hkk.
    + intros q Hq. apply elem_of_app in Hq as [Hq|Hq]; apply elem_of_app; auto.
      right. by right.
    + intros q Hq. apply unlink_other.
      * intros ->. apply Hq. apply elem_of_app. right. by left.
      * rewrite Hpv'. intros Hq'. apply last_Some in Hq' as [l' ->]. apply Hq.
        apply elem_of_app. left. apply elem_of_app. right. by left.
      * rewrite Hnx'. intros Hq'. apply list_elem_of_lookup_2 in Hq'. apply Hq.
        apply elem_of_app. right. by right.
    + by rewrite <- app_assoc.
  - pose proof (map_lookup_none _ _ _ _ _ Hd Hl) as Hall.
    simpl. exists ls. repeat split; try apply Hi; auto.
    + rewrite assoc_remove_absent; [done|].
      by apply (Forall_keys_entries h ls (fun x => key_eqb x k = false)).
    + by rewrite <- app_assoc.
Qed.
Lemma Set_spec h om ls k v :
  inv h om ls -> is_nil k = false ->
  let r := Set_ h om k v in
  let ls' := if has_key k (entries h ls) then ls else ls ++ [new_loc h] in
  inv r.1.1 r.1.2 ls' /\
  entries r.1.1 ls' = assoc_set (entries h ls) k v /\
  (forall p, p ∉ ls' -> r.1.1 !! p = h !! p) /\
  r.2 = None /\
  mu r.1.2 = mu om ++ [EvLock; EvUnlock].
Proof.
  intros Hi Hk r ls'. subst r ls'. unfold Set_. rewrite Hk.
  pose proof (store_pair_spec (fun om => bool_decide (tail om = None))
                h (Lock om) ls k v (inv_mu _ _ _ EvLock Hi) Hk) as Hs.
  simpl in Hs.
  destruct (store_pair _ h (Lock om) k v) as [h' om'] eqn:E. simpl in *.
  destruct Hs as (Hi' & He & Hf & Hm).
  - apply bool_decide_ext. rewrite (inv_tail _ _ _ Hi). apply last_None_nil.
  - split; [by apply inv_mu|]. do 3 (split; [done|]).
    simpl. rewrite Hm. by rewrite <- app_assoc.
Qed.

Lemma set_spec h om ls k v :
  inv h om ls -> is_nil k = false ->
  let r := set h om k v in
  let ls' := if has_key k (entries h ls) then ls else ls ++ [new_loc h] in
  inv r.1.1 r.1.2 ls' /\
  entries r.1.1 ls' = assoc_set (entries h ls) k v /\
  (forall p, p ∉ ls' -> r.1.1 !! p = h !! p) /\
  r.2 = None /\
  mu r.1.2 = mu om.
Proof.
  intros Hi Hk r ls'. subst r ls'. unfold set. rewrite Hk.
  pose proof (store_pair_spec (fun om => bool_decide (head om = None))
                h om ls k v Hi Hk) as Hs.
  simpl in Hs.
  destruct (store_pair _ h om k v) as [h' om'] eqn:E. simpl in *.
  destruct Hs as (Hi' & He & Hf & Hm).
  - apply bool_decide_ext. rewrite (inv_head _ _ _ Hi). apply head_None_nil.
  - done.
Qed.

Lemma Set_nil h om k v :
  is_nil k = true -> Set_ h om k v = (h, om, Some key_cannot_be_nil).
Proof. intros Hk. unfold Set_. by rewrite Hk. Qed.

Lemma Delete_nil h om k :
  is_nil k = true -> Delete h om k = (h, om, Some key_cannot_be_nil).
Proof. intros Hk. unfold Delete. by rewrite Hk. Qed.

Lemma inv_empty h om : inv h (Clear om) [].
Proof. split; simpl; auto; constructor. Qed.

Lemma inv_new h : inv h NewOrderedMap [].
Proof. split; simpl; auto; constructor. Qed.

Lemma Keys_spec h om ls :
  inv h om ls -> (Keys h om).2 = Some (map fst (entries h ls)).
Proof.
  intros Hi. change ((Keys h om).2) with (map Key <$> walk (enough h) h (head om)).
  rewrite (walk_inv _ _ _ Hi). simpl. by rewrite keys_entries.
Qed.

Lemma Values_spec h om ls :
  inv h om ls -> (Values h om).2 = Some (map snd (entries h ls)).
Proof.
  intros Hi. change ((Values h om).2) with (map Value <$> walk (enough h) h (head om)).
  rewrite (walk_inv _ _ _ Hi). simpl. unfold entries. by rewrite map_map.
Qed.

(** The visitor's view: the pairs up to and with the first one on which it
    returns false. *)
Lemma visit_entries f l :
  visit f l = (fix go (es : list (key * any)) :=
                 match es with
                 | [] => []
                 | e :: es' => e :: (if f e.1 e.2 then go es' else [])
                 end) (map (fun nd => (Key nd, Value nd)) l).
Proof. induction l as [|nd l IH]; simpl; [done|]. by rewrite IH. Qed.

Lemma Range_all h om ls :
  inv h om ls -> (Range h om (fun _ _ => true)).2 = Some (entries h ls).
Proof.
  intros Hi.
  change ((Range h om (fun _ _ => true)).2)
    with (visit (fun _ _ => true) <$> walk (enough h) h (head om)).
  rewrite (walk_inv _ _ _ Hi). simpl. f_equal.
  unfold entries. induction (nodes_at h ls) as [|nd l IH]; simpl; [done|]. by rewrite IH.
Qed.

Lemma Len_spec h om ls :
  inv h om ls -> (Len om).2 = wrap64 (Z.of_nat (List.length ls)).
Proof. intros Hi. simpl. apply Hi. Qed.

Lemma has_key_nil l k :
  Forall (fun e => is_nil e.1 = false) l -> is_nil k = true -> has_key k l = false.
Proof.
  intros Hall Hk. apply has_key_false. eapply Forall_impl; [exact Hall|].
  intros e He. by apply key_eqb_nil_false.
Qed.

Lemma assoc_get_none l k : has_key k l = false -> assoc_get l k = None.
Proof.
  induction l as [|[k' v'] l IH]; simpl; [done|].
  destruct (key_eqb k' k); simpl; [discriminate|auto].
Qed.

Lemma assoc_get_some l k : has_key k l = true -> is_Some (assoc_get l k).
Proof.
  induction l as [|[k' v'] l IH]; simpl; [discriminate|].
  destruct (key_eqb k' k); simpl; eauto.
Qed.

Lemma inv_nonnil_entries h om ls :
  inv h om ls -> Forall (fun e => is_nil e.1 = false) (entries h ls).
Proof.
  intros Hi. apply (Forall_keys_entries h ls (fun x => is_nil x = false)).
  pose proof (inv_nonnil _ _ _ Hi) as H. by apply Forall_map in H.
Qed.

Lemma Has_spec h om ls k :
  inv h om ls -> (Has om k).2 = has_key k (entries h ls).
Proof.
  intros Hi. unfold Has. destruct (is_nil k) eqn:Hk.
  - simpl. symmetry. apply has_key_nil; [|done]. by apply (inv_nonnil_entries h om).
  - simpl. rewrite (inv_index _ _ _ Hi).
    destruct (map_lookup _ k) as [p|] eqn:Hl.
    + destruct (map_lookup_split _ _ _ _ _ _ (inv_dseg _ _ _ Hi) Hl)
        as (l1 & l2 & nd & -> & Hp & Hkk & Hall).
      rewrite entries_app, (entries_cons _ _ nd), has_key_app by done.
      simpl. by rewrite Hkk, orb_true_r.
    + pose proof (map_lookup_none _ _ _ _ _ (inv_dseg _ _ _ Hi) Hl) as Hall.
      change (bool_decide (is_Some (@None nat))) with false.
      symmetry. apply has_key_false.
      by apply (Forall_keys_entries h ls (fun x => key_eqb x k = false)).
Qed.

Lemma Get_spec h om ls k :
  inv h om ls ->
  (Get h om k).2 = match assoc_get (entries h ls) k with
                   | Some v => (v, true)
                   | None => (Nil, false)
                   end.
Proof.
  intros Hi. unfold Get. destruct (is_nil k) eqn:Hk.
  - simpl. rewrite assoc_get_none; [done|].
    apply has_key_nil; [|done]. by apply (inv_nonnil_entries h om).
  - simpl. rewrite (inv_index _ _ _ Hi).
    destruct (map_lookup _ k) as [p|] eqn:Hl.
    + destruct (map_lookup_split _ _ _ _ _ _ (inv_dseg _ _ _ Hi) Hl)
        as (l1 & l2 & nd & -> & Hp & Hkk & Hall).
      rewrite Hp. simpl.
      rewrite entries_app, (entries_cons _ _ nd) by done.
      rewrite assoc_get_app
        by (by apply (Forall_keys_entries h l1 (fun x => key_eqb x k = false))).
      simpl. by rewrite Hkk.
    + pose proof (map_lookup_none _ _ _ _ _ (inv_dseg _ _ _ Hi) Hl) as Hall.
      simpl. rewrite assoc_get_none; [done|]. apply has_key_false.
      by apply (Forall_keys_entries h ls (fun x => key_eqb x k = false)).
Qed.
Lemma framed_refl h ls : framed h ls h ls.
Proof. split; auto. Qed.

Lemma framed_trans h ls h' ls' h'' ls'' :
  framed h ls h' ls' -> framed h' ls' h'' ls'' -> framed h ls h'' ls''.
Proof.
  intros [H1 H2] [H3 H4]. split.
  - intros p Hp Hs. rewrite <- (H1 p Hp Hs). apply H3.
    + intros Hp'. destruct (H2 p Hp') as [?|Hn]; [done|].
      rewrite Hn in Hs. by destruct Hs.
    + by rewrite (H1 p Hp Hs).
  - intros p Hp. destruct (H4 p Hp) as [Hp'|Hn]; [by apply H2|].
    destruct (decide (p ∈ ls)) as [|Hnin]; [by left|]. right.
    destruct (h !! p) eqn:E; [|done].
    rewrite (H1 p Hnin) in Hn by (by rewrite E). congruence.
Qed.

(** A framed step on one chain leaves a container on another chain as it
    was. *)
Lemma framed_inv h ls h' ls' c lc :
  framed h ls h' ls' -> inv h c lc -> ls ## lc ->
  inv h' c lc /\ entries h' lc = entries h lc /\ ls' ## lc.
Proof.
  intros [H1 H2] Hc Hdisj.
  assert (Hag : forall p, p ∈ lc -> h' !! p = h !! p).
  { intros p Hp. apply H1; [|by apply (inv_lookup _ _ _ _ Hc)].
    intros Hp'. by apply (Hdisj p). }
  split; [by apply (inv_frame h)|]. split; [by apply entries_frame|].
  intros p Hp Hp'. destruct (H2 p Hp) as [?|Hn]; [by apply (Hdisj p)|].
  destruct (inv_lookup _ _ _ _ Hc Hp') as [x Hx]. congruence.
Qed.

Lemma Set_framed h om ls k v :
  inv h om ls -> is_nil k = false ->
  framed h ls (Set_ h om k v).1.1
    (if has_key k (entries h ls) then ls else ls ++ [new_loc h]).
Proof.
  intros Hi Hk. destruct (Set_spec h om ls k v Hi Hk) as (_ & _ & Hf & _).
  split.
  - intros p Hp Hs. apply Hf. destruct (has_key k (entries h ls)); [done|].
    intros Hin. apply elem_of_app in Hin as [?|Hin]; [done|].
    apply list_elem_of_singleton in Hin as ->.
    rewrite new_loc_fresh in Hs. by destruct Hs.
  - intros p Hp. destruct (has_key k (entries h ls)); [by left|].
    apply elem_of_app in Hp as [?|Hin]; [by left|].
    apply list_elem_of_singleton in Hin as ->. right. apply new_loc_fresh.
Qed.

Lemma do_call_spec h om ls c :
  inv h om ls ->
  exists ls',
    inv (do_call (h, om) c).1 (do_call (h, om) c).2 ls' /\
    entries (do_call (h, om) c).1 ls' = model_call (entries h ls) c /\
    framed h ls (do_call (h, om) c).1 ls'.
Proof.
  intros Hi. destruct c as [k v|k]; simpl; destruct (is_nil k) eqn:Hk.
  - rewrite Set_nil by done. simpl. exists ls. auto using framed_refl.
  - destruct (Set_spec h om ls k v Hi Hk) as (Hi' & He & _).
    eexists. split; [exact Hi'|]. split; [exact He|]. by apply Set_framed.
  - rewrite Delete_nil by done. simpl. exists ls. auto using framed_refl.
  - destruct (Delete_spec h om ls k Hi Hk) as (ls' & Hi' & He & Hsub & Hf & _).
    exists ls'. split; [exact Hi'|]. split; [exact He|]. split.
    + intros p Hp _. by apply Hf.
    + intros p Hp. left. by apply Hsub.
Qed.

Lemma run_calls_spec cs h om ls :
  inv h om ls ->
  exists ls',
    inv (run_calls cs (h, om)).1 (run_calls cs (h, om)).2 ls' /\
    entries (run_calls cs (h, om)).1 ls' = fold_left model_call cs (entries h ls) /\
    framed h ls (run_calls cs (h, om)).1 ls'.
Proof.
  revert h om ls. induction cs as [|c cs IH]; intros h om ls Hi.
  - exists ls. simpl. auto using framed_refl.
  - destruct (do_call_spec h om ls c Hi) as (ls1 & Hi1 & He1 & Hf1).
    simpl. destruct (do_call (h, om) c) as [h1 om1] eqn:E. simpl in *.
    destruct (IH h1 om1 ls1 Hi1) as (ls' & Hi' & He' & Hf').
    exists ls'. split; [exact Hi'|]. split; [by rewrite He', He1|].
    by apply (framed_trans h ls h1 ls1).
Qed.

Lemma fold_assoc_set_distinct l acc :
  distinct (map fst (acc ++ l)) ->
  fold_left (fun acc e => assoc_set acc e.1 e.2) l acc = acc ++ l.
Proof.
  revert acc. induction l as [|[k v] l IH]; intros acc Hd.
  - by rewrite app_nil_r.
  - simpl. unfold assoc_set at 2.
    assert (Hh : has_key k acc = false).
    { apply has_key_false. rewrite map_app in Hd. apply distinct_app in Hd as (_ & _ & Hd).
      apply Forall_map in Hd. eapply Forall_impl; [exact Hd|].
      intros e He. simpl in He. by inversion He. }
    rewrite Hh. rewrite IH; rewrite <- app_assoc; done.
Qed.
Lemma Copy_loop_spec ls2 : forall fuel h pp c lc,
  dseg h pp ls2 None -> inv h c lc -> ls2 ## lc ->
  Forall (fun e => is_nil e.1 = false) (entries h ls2) ->
  (List.length ls2 <= fuel)%nat ->
  exists h' c' lc',
    Copy_loop fuel h c (first_or ls2 None) = Some (h', c') /\
    inv h' c' lc' /\
    entries h' lc' =
      fold_left (fun acc e => assoc_set acc e.1 e.2) (entries h ls2) (entries h lc) /\
    framed h lc h' lc'.
Proof.
  induction ls2 as [|p ls2 IH]; intros fuel h pp c lc Hd Hc Hdisj Hnn Hfuel.
  - exists h, c, lc. destruct fuel; simpl; auto using framed_refl.
  - destruct Hd as (nd & Hp & _ & Hnx & Hd).
    destruct fuel as [|fuel]; [simpl in Hfuel; lia|].
    rewrite (entries_cons _ _ nd) in Hnn |- * by done.
    apply Forall_cons in Hnn as [Hk Hnn]. simpl in Hk.
    simpl. rewrite Hp, Hnx.
    destruct (Set_spec h c lc (Key nd) (Value nd) Hc Hk) as (Hc1 & He1 & _).
    pose proof (Set_framed h c lc (Key nd) (Value nd) Hc Hk) as Hf1.
    destruct (Set_ h c (Key nd) (Value nd)) as [[h1 c1] e1] eqn:E. simpl in *.
    set (lc1 := if has_key (Key nd) (entries h lc) then lc else lc ++ [new_loc h]) in *.
    assert (Hag : forall q, q ∈ ls2 -> h1 !! q = h !! q).
    { intros q Hq. apply Hf1; [|by apply (dseg_lookup _ _ _ _ _ Hd)].
      intros Hq'. apply (Hdisj q); [by right|done]. }
    assert (Hdisj1 : ls2 ## lc1).
    { intros q Hq Hq'. destruct (proj2 Hf1 q Hq') as [?|Hn].
      - apply (Hdisj q); [by right|done].
      - destruct (dseg_lookup _ _ _ _ _ Hd Hq) as [x Hx]. congruence. }
    destruct (IH fuel h1 (Some p) c1 lc1) as (h' & c' & lc' & Hl & Hc' & He' & Hf').
    + by apply (dseg_frame h).
    + done.
    + done.
    + by rewrite (entries_frame h h1).
    + simpl in Hfuel. lia.
    + exists h', c', lc'. split; [exact Hl|]. split; [exact Hc'|]. split.
      * by rewrite He', He1, (entries_frame h h1).
      * by apply (framed_trans h lc h1 lc1).
Qed.

Lemma Copy_spec h om ls :
  inv h om ls ->
  exists h' c lc,
    Copy h om = Some (h', RUnlock (RLock om), c) /\
    inv h' (RUnlock (RLock om)) ls /\ inv h' c lc /\ ls ## lc /\
    entries h' lc = entries h ls /\ entries h' ls = entries h ls /\
    framed h [] h' lc.
Proof.
  intros Hi. unfold Copy.
  change (head (RLock om)) with (head om). rewrite (inv_head _ _ _ Hi), <- first_or_None.
  destruct (Copy_loop_spec ls (enough h) h None NewOrderedMap [])
    as (h' & c & lc & Hl & Hc & He & Hf).
  - apply Hi.
  - apply inv_new.
  - intros q _ Hq. inversion Hq.
  - by apply (inv_nonnil_entries h om).
  - unfold enough.
    pose proof (chain_bound h ls (inv_nodup _ _ _ Hi) (fun p => inv_lookup _ _ _ p Hi)). lia.
  - rewrite Hl. exists h', c, lc. split; [done|].
    destruct (framed_inv h [] h' lc (RUnlock (RLock om)) ls Hf) as (Hi' & He' & Hd').
    + by do 2 apply inv_mu.
    + intros q Hq. inversion Hq.
    + split; [done|]. split; [done|]. split; [intros q Hq Hq'; by apply (Hd' q)|]. split; [|done].
      rewrite He. change (entries h []) with (@nil (key * any)).
      apply fold_assoc_set_distinct. simpl. rewrite keys_entries. apply Hi.
Qed.
Lemma keys_assoc_update l k v : map fst (assoc_update l k v) = map fst l.
Proof.
  induction l as [|[k' v'] l IH]; [done|]. simpl.
  destruct (key_eqb k' k); simpl; [done|]. by rewrite IH.
Qed.

Lemma has_key_keys l k : has_key k l = existsb (fun k' => key_eqb k' k) (map fst l).
Proof. unfold has_key. induction l as [|e l IH]; simpl; [done|]. by rewrite IH. Qed.

Lemma keys_assoc_set l k v :
  map fst (assoc_set l k v) =
  if existsb (fun k' => key_eqb k' k) (map fst l) then map fst l else map fst l ++ [k].
Proof.
  unfold assoc_set. rewrite <- has_key_keys. destruct (has_key k l).
  - apply keys_assoc_update.
  - by rewrite map_app.
Qed.

Lemma key_index_has l k :
  has_key k l = true -> exists i, key_index k (map fst l) = Some i.
Proof.
  induction l as [|[k' v'] l IH]; simpl; [discriminate|].
  destruct (key_eqb k' k); simpl; [eauto|].
  intros Hh. destruct (IH Hh) as [i ->]. eauto.
Qed.

Lemma key_index_lookup ks k i :
  key_index k ks = Some i -> exists k', ks !! i = Some k' /\ key_eqb k' k = true.
Proof.
  revert i. induction ks as [|k' ks IH]; intros i; simpl; [discriminate|].
  destruct (key_eqb k' k) eqn:E.
  - intros [= <-]. eauto.
  - destruct (key_index k ks) as [j|]; [|discriminate]. intros [= <-].
    destruct (IH j eq_refl) as (k'' & ? & ?). eauto.
Qed.

Lemma values_assoc_update l k v i :
  key_index k (map fst l) = Some i ->
  map snd (assoc_update l k v) = <[i := v]> (map snd l).
Proof.
  revert i. induction l as [|[k' v'] l IH]; intros i; simpl; [discriminate|].
  destruct (key_eqb k' k) eqn:E.
  - by intros [= <-].
  - destruct (key_index k (map fst l)) as [j|] eqn:Ej; [|discriminate]. intros [= <-].
    simpl. f_equal. by apply IH.
Qed.

Lemma zip_fst_snd {A B} (l : list (A * B)) : zip (map fst l) (map snd l) = l.
Proof. induction l as [|[a b] l IH]; simpl; [done|]. by rewrite IH. Qed.

Lemma run_Set_calls ops s :
  run_Set ops s = run_calls (map (fun kv => CallSet kv.1 kv.2) ops) s.
Proof.
  revert s. induction ops as [|kv ops IH]; intros s; [done|]. simpl. apply IH.
Qed.

Lemma first_inserted_fold ops acc :
  map fst (fold_left model_call (map (fun kv => CallSet kv.1 kv.2) ops) acc) =
  fold_left
    (fun acc k =>
       if is_nil k || existsb (fun k' => key_eqb k' k) acc then acc else acc ++ [k])
    (map fst ops) (map fst acc).
Proof.
  revert acc. induction ops as [|[k v] ops IH]; intros acc; [done|].
  simpl. rewrite IH. f_equal. destruct (is_nil k); [done|].
  simpl. apply keys_assoc_set.
Qed.

(** After a sequence of [Set] calls on a new container. *)
Lemma run_Set_new ops :
  exists ls,
    inv (run_Set ops (∅, NewOrderedMap)).1 (run_Set ops (∅, NewOrderedMap)).2 ls /\
    map fst (entries (run_Set ops (∅, NewOrderedMap)).1 ls) = first_inserted (map fst ops).
Proof.
  rewrite run_Set_calls.
  destruct (run_calls_spec (map (fun kv => CallSet kv.1 kv.2) ops) ∅ NewOrderedMap []
              (inv_new ∅)) as (ls & Hi & He & _).
  exists ls. split; [done|]. rewrite He. apply first_inserted_fold.
Qed.

(** [Set] on a key that is there. *)
Lemma Set_existing h om ls k v :
  inv h om ls -> (Has om k).2 = true ->
  let r := Set_ h om k v in
  r.2 = None /\
  inv r.1.1 r.1.2 ls /\
  map fst (entries r.1.1 ls) = map fst (entries h ls) /\
  exists i,
    key_index k (map fst (entries h ls)) = Some i /\
    map snd (entries r.1.1 ls) = <[i := v]> (map snd (entries h ls)).
Proof.
  intros Hi Hh. rewrite (Has_spec h om ls) in Hh by done.
  assert (Hk : is_nil k = false).
  { destruct (is_nil k) eqn:E; [|done].
    rewrite (has_key_nil _ k (inv_nonnil_entries _ _ _ Hi) E) in Hh. done. }
  destruct (Set_spec h om ls k v Hi Hk) as (Hi' & He & _ & Hr & _).
  rewrite Hh in Hi', He. simpl. split; [done|]. split; [done|].
  rewrite He. unfold assoc_set. rewrite Hh. split; [apply keys_assoc_update|].
  destruct (key_index_has _ _ Hh) as [i Hi0]. exists i. split; [done|].
  by apply values_assoc_update.
Qed.

Lemma First_spec h om ls :
  inv h om ls ->
  (First h om).2 = match entries h ls with
                   | [] => (KNil, Nil, false)
                   | e :: _ => (e.1, e.2, true)
                   end.
Proof.
  intros Hi. unfold First. change (head (RLock om)) with (head om).
  rewrite (inv_head _ _ _ Hi). pose proof (inv_dseg _ _ _ Hi) as Hd.
  destruct ls as [|p ls]; [done|]. simpl.
  destruct Hd as (nd & Hp & _). rewrite Hp. by rewrite (entries_cons _ _ nd).
Qed.

Lemma Last_spec h om ls :
  inv h om ls ->
  (Last h om).2 = match last (entries h ls) with
                  | None => (KNil, Nil, false)
                  | Some e => (e.1, e.2, true)
                  end.
Proof.
  intros Hi. unfold Last. change (tail (RLock om)) with (tail om).
  rewrite (inv_tail _ _ _ Hi). pose proof (inv_dseg _ _ _ Hi) as Hd.
  destruct (last ls) as [p|] eqn:El.
  - apply last_Some in El as [l' ->].
    apply dseg_app in Hd as [_ (nd & Hp & _)]. rewrite Hp.
    rewrite entries_app, (entries_cons _ _ nd) by done.
    change (entries h []) with (@nil (key * any)). by rewrite last_snoc.
  - apply last_None in El as ->. done.
Qed.

(** In a sequence of pairs with distinct keys, the first pair with a key
    equal to [k] is the only one. *)
Lemma distinct_split_absent ks1 k' ks2 k :
  distinct (ks1 ++ k' :: ks2) -> key_eqb k' k = true ->
  Forall (fun x => key_eqb x k = false) ks1 ->
  Forall (fun x => key_eqb x k = false) (ks1 ++ ks2).
Proof.
  intros Hd Hk H1. apply Forall_app. split; [done|].
  apply distinct_app in Hd as (_ & (Hd & _) & _).
  eapply Forall_impl; [exact Hd|]. intros x Hx. simpl in Hx.
  destruct (key_eqb x k) eqn:E; [|done].
  apply key_eqb_sym in E. pose proof (key_eqb_trans _ _ _ Hk E). congruence.
Qed.

Lemma has_key_split l k :
  has_key k l = true ->
  exists l1 e l2, l = l1 ++ e :: l2 /\ key_eqb e.1 k = true /\
                  Forall (fun x => key_eqb x.1 k = false) l1.
Proof.
  induction l as [|e l IH]; simpl; [discriminate|].
  destruct (key_eqb e.1 k) eqn:E; simpl.
  - intros _. exists [], e, l. auto.
  - intros Hh. destruct (IH Hh) as (l1 & e' & l2 & -> & ? & ?).
    exists (e :: l1), e', l2. auto.
Qed.

Lemma assoc_remove_split l1 e l2 k :
  key_eqb e.1 k = true -> Forall (fun x => key_eqb x.1 k = false) l1 ->
  assoc_remove (l1 ++ e :: l2) k = l1 ++ l2.
Proof.
  intros Hk H1. rewrite assoc_remove_app by done. destruct e. simpl in *. by rewrite Hk.
Qed.
Lemma keys_assoc_remove l k i :
  key_index k (map fst l) = Some i ->
  map fst (assoc_remove l k) = delete i (map fst l) /\
  map snd (assoc_remove l k) = delete i (map snd l) /\
  assoc_remove l k = delete i l.
Proof.
  revert i. induction l as [|[k' v'] l IH]; intros i; simpl; [discriminate|].
  destruct (key_eqb k' k) eqn:E.
  - by intros [= <-].
  - destruct (key_index k (map fst l)) as [j|] eqn:Ej; [|discriminate]. intros [= <-].
    destruct (IH j eq_refl) as (H1 & H2 & H3). simpl. by rewrite H1, H2, H3.
Qed.

Lemma key_index_absent ks k i :
  distinct ks -> key_index k ks = Some i ->
  Forall (fun x => key_eqb x k = false) (delete i ks).
Proof.
  revert i. induction ks as [|k' ks IH]; intros i Hd; simpl; [discriminate|].
  destruct Hd as [Hd1 Hd2]. destruct (key_eqb k' k) eqn:E.
  - intros [= <-]. simpl. eapply Forall_impl; [exact Hd1|]. intros x Hx. simpl in Hx.
    destruct (key_eqb x k) eqn:E'; [|done].
    apply key_eqb_sym in E'. pose proof (key_eqb_trans _ _ _ E E'). congruence.
  - destruct (key_index k ks) as [j|] eqn:Ej; [|discriminate]. intros [= <-].
    simpl. constructor; [done|]. by apply IH.
Qed.

Lemma has_key_forall l k :
  Forall (fun x => key_eqb x k = false) (map fst l) -> has_key k l = false.
Proof. intros H. apply has_key_false. by apply Forall_map in H. Qed.

Lemma key_index_none l k : has_key k l = false -> key_index k (map fst l) = None.
Proof.
  induction l as [|[k' v'] l IH]; simpl; [done|].
  destruct (key_eqb k' k); simpl; [discriminate|]. intros Hh. by rewrite IH.
Qed.

(** [Delete] of a key that is there. *)
Lemma Delete_existing h om ls k :
  inv h om ls -> (Has om k).2 = true ->
  let r := Delete h om k in
  r.2 = None /\
  exists ls' i,
    inv r.1.1 r.1.2 ls' /\
    key_index k (map fst (entries h ls)) = Some i /\
    entries r.1.1 ls' = delete i (entries h ls) /\
    map fst (entries r.1.1 ls') = delete i (map fst (entries h ls)) /\
    map snd (entries r.1.1 ls') = delete i (map snd (entries h ls)) /\
    (Has r.1.2 k).2 = false /\
    Forall (fun x => key_eqb x k = false) (map fst (entries r.1.1 ls')).
Proof.
  intros Hi Hh. rewrite (Has_spec h om ls) in Hh by done.
  assert (Hk : is_nil k = false).
  { destruct (is_nil k) eqn:E; [|done].
    rewrite (has_key_nil _ k (inv_nonnil_entries _ _ _ Hi) E) in Hh. done. }
  destruct (Delete_spec h om ls k Hi Hk) as (ls' & Hi' & He & _ & _ & Hr & _).
  simpl. split; [done|]. exists ls'.
  destruct (key_index_has _ _ Hh) as [i Hi0]. exists i.
  destruct (keys_assoc_remove _ _ _ Hi0) as (H1 & H2 & H3).
  assert (Habs : Forall (fun x => key_eqb x k = false) (map fst (entries (Delete h om k).1.1 ls'))).
  { rewrite He, H1. apply key_index_absent; [|done].
    rewrite keys_entries. apply Hi. }
  split; [done|]. split; [done|]. rewrite He. split; [done|]. split; [done|].
  split; [done|]. split; [|by rewrite <- He].
  rewrite (Has_spec _ _ ls') by done. by apply has_key_forall.
Qed.

(** [Delete] of a key that is not there. *)
Lemma Delete_absent h om ls k :
  inv h om ls -> is_nil k = false -> (Has om k).2 = false ->
  Delete h om k = (h, Unlock (Lock om), None).
Proof.
  intros Hi Hk Hh. rewrite Delete_unfold by done.
  unfold Has in Hh. rewrite Hk in Hh. simpl in Hh.
  destruct (map_lookup (nodeMap om) k) as [p|]; [|done].
  apply bool_decide_eq_false_1 in Hh. destruct Hh. eauto.
Qed.
Lemma disjoint_sym_list (l1 l2 : list nat) : l1 ## l2 -> l2 ## l1.
Proof. intros H q Hq Hq'. by apply (H q). Qed.

Lemma do_call_separate h a la b lb c :
  inv h a la -> inv h b lb -> la ## lb ->
  let r := do_call (h, a) c in
  exists la',
    inv r.1 r.2 la' /\ inv r.1 b lb /\ la' ## lb /\
    entries r.1 la' = model_call (entries h la) c /\
    entries r.1 lb = entries h lb.
Proof.
  intros Ha Hb Hd r. subst r.
  destruct (do_call_spec h a la c Ha) as (la' & Ha' & He & Hf).
  destruct (framed_inv _ _ _ _ b lb Hf Hb Hd) as (Hb' & Heb & Hd').
  exists la'. auto.
Qed.

Lemma calls_on_cons side c cs :
  calls_on side (c :: cs) =
  if bool_decide (c.1 = side) then c.2 :: calls_on side cs else calls_on side cs.
Proof.
  unfold calls_on. rewrite filter_cons. case_bool_decide; by destruct (decide _).
Qed.

Lemma run_calls2_cons c cs s : run_calls2 (c :: cs) s = run_calls2 cs (do_call2 s c).
Proof. reflexivity. Qed.

Lemma run_calls2_spec cs : forall h a la b lb,
  inv h a la -> inv h b lb -> la ## lb ->
  let s := run_calls2 cs (h, a, b) in
  exists la' lb',
    inv s.1.1 s.1.2 la' /\ inv s.1.1 s.2 lb' /\ la' ## lb' /\
    entries s.1.1 la' = fold_left model_call (calls_on true cs) (entries h la) /\
    entries s.1.1 lb' = fold_left model_call (calls_on false cs) (entries h lb).
Proof.
  induction cs as [|[side c] cs IH]; intros h a la b lb Ha Hb Hd.
  - simpl. exists la, lb. auto.
  - cbv zeta. rewrite run_calls2_cons, !calls_on_cons. unfold do_call2.
    cbn [fst snd]. destruct side; cbn [bool_decide decide_rel fold_left].
    + destruct (do_call_separate h a la b lb c Ha Hb Hd) as (la1 & Ha1 & Hb1 & Hd1 & Hea & Heb).
      destruct (do_call (h, a) c) as [h1 a1]. cbn [fst snd] in *.
      destruct (IH h1 a1 la1 b lb Ha1 Hb1 Hd1) as (la' & lb' & ? & ? & ? & Hea' & Heb').
      exists la', lb'. rewrite Hea', Heb', Hea, Heb. auto.
    + destruct (do_call_separate h b lb a la c Hb Ha (disjoint_sym_list _ _ Hd))
        as (lb1 & Hb1 & Ha1 & Hd1 & Heb & Hea).
      destruct (do_call (h, b) c) as [h1 b1]. cbn [fst snd] in *.
      destruct (IH h1 a la b1 lb1 Ha1 Hb1 (disjoint_sym_list _ _ Hd1))
        as (la' & lb' & ? & ? & ? & Hea' & Heb').
      exists la', lb'. rewrite Hea', Heb', Hea, Heb. auto.
Qed.

Lemma Keys_Values_entries h om ls h' om' ls' :
  inv h om ls -> inv h' om' ls' -> entries h ls = entries h' ls' ->
  (Keys h om).2 = (Keys h' om').2 /\ (Values h om).2 = (Values h' om').2.
Proof.
  intros Hi Hi' He.
  rewrite (Keys_spec h om ls), (Keys_spec h' om' ls') by done.
  rewrite (Values_spec h om ls), (Values_spec h' om' ls') by done.
  by rewrite He.
Qed.
Lemma set_all_spec convert kvs : forall h om ls,
  inv h om ls ->
  Forall (fun kv => is_nil (convert kv).1 = false) kvs ->
  let r := set_all convert h om kvs in
  r.2 = None /\
  exists ls',
    inv r.1.1 r.1.2 ls' /\
    entries r.1.1 ls' =
      fold_left (fun acc kv => assoc_set acc (convert kv).1 (convert kv).2) kvs
        (entries h ls) /\
    framed h ls r.1.1 ls' /\
    mu r.1.2 = mu om.
Proof.
  induction kvs as [|kv kvs IH]; intros h om ls Hi Hnn.
  - simpl. split; [done|]. exists ls. auto using framed_refl.
  - apply Forall_cons in Hnn as [Hk Hnn]. simpl.
    destruct (set_spec h om ls _ (convert kv).2 Hi Hk) as (Hi1 & He1 & Hf1 & Hr1 & Hm1).
    assert (Hfr : framed h ls (set h om (convert kv).1 (convert kv).2).1.1
              (if has_key (convert kv).1 (entries h ls) then ls else ls ++ [new_loc h])).
    { split.
      - intros p Hp Hs. apply Hf1. destruct (has_key _ _); [done|].
        intros Hin. apply elem_of_app in Hin as [?|Hin]; [done|].
        apply list_elem_of_singleton in Hin as ->.
        rewrite new_loc_fresh in Hs. by destruct Hs.
      - intros p Hp. destruct (has_key _ _); [by left|].
        apply elem_of_app in Hp as [?|Hin]; [by left|].
        apply list_elem_of_singleton in Hin as ->. right. apply new_loc_fresh. }
    destruct (set h om (convert kv).1 (convert kv).2) as [[h1 om1] e1] eqn:E.
    simpl in *. subst e1.
    destruct (IH h1 om1 _ Hi1 Hnn) as (Hr & ls' & Hi' & He' & Hf' & Hm').
    split; [done|]. exists ls'. split; [done|]. split; [by rewrite He', He1|].
    split; [by eapply framed_trans|]. by rewrite Hm'.
Qed.

(** The state after the destination is reset and the entries are set. *)
Lemma reset_set_all convert h om kvs :
  Forall (fun kv => is_nil (convert kv).1 = false) kvs ->
  let r := set_all convert h (Clear (Lock om)) kvs in
  r.2 = None /\
  exists ls',
    inv r.1.1 (Unlock r.1.2) ls' /\
    entries r.1.1 ls' =
      fold_left (fun acc kv => assoc_set acc (convert kv).1 (convert kv).2) kvs [] /\
    framed h [] r.1.1 ls' /\
    mu (Unlock r.1.2) = mu om ++ [EvLock; EvUnlock].
Proof.
  intros Hnn r. subst r.
  destruct (set_all_spec convert kvs h _ [] (inv_empty h (Lock om)) Hnn)
    as (Hr & ls' & Hi & He & Hf & Hm).
  split; [done|]. exists ls'. split; [by apply inv_mu|]. split; [done|]. split; [done|].
  unfold Unlock, mu_call. cbn [mu]. rewrite Hm. cbn. by rewrite <- app_assoc.
Qed.

Lemma FromJSON_convert_nonnil `{GoLib} opts kv :
  is_nil (FromJSON_convert opts kv).1 = false.
Proof.
  unfold FromJSON_convert. simpl. destruct (negb (KeyAsString opts)); [|done].
  destruct (ParseInt kv.1); [done|]. by destruct (ParseFloat kv.1).
Qed.

Lemma UnmarshalJSON_ok `{GoLib} visit h om data tmpMap :
  json_Unmarshal data ∅ = inr tmpMap ->
  let r := UnmarshalJSON visit h om data in
  r.2 = None /\
  exists ls',
    inv r.1.1 r.1.2 ls' /\
    entries r.1.1 ls' =
      fold_left (fun acc kv => assoc_set acc (KString kv.1) kv.2) (visit tmpMap) [] /\
    framed h [] r.1.1 ls' /\
    mu r.1.2 = mu om ++ [EvLock; EvUnlock].
Proof.
  intros Hd r. subst r. unfold UnmarshalJSON. rewrite Hd.
  change (set_length 0 _) with (Clear (Lock om)).
  destruct (reset_set_all (fun kv => (KString kv.1, kv.2)) h om (visit tmpMap))
    as (Hr & ls' & Hi & He & Hf & Hm).
  { by apply Forall_forall. }
  destruct (set_all _ h _ (visit tmpMap)) as [[h1 om1] e1]. simpl in *.
  split; [done|]. by exists ls'.
Qed.

Lemma UnmarshalJSON_err `{GoLib} visit h om data e :
  json_Unmarshal data ∅ = inl e -> UnmarshalJSON visit h om data = (h, om, Some e).
Proof. intros Hd. unfold UnmarshalJSON. by rewrite Hd. Qed.

Lemma FromJSON_ok `{GoLib} visit h om data opts tmpMap :
  Decoder_Decode (PreserveType (default default_FromJSON opts)) data ∅ = inr tmpMap ->
  let r := FromJSON visit h om data opts in
  r.2 = None /\
  exists ls',
    inv r.1.1 r.1.2 ls' /\
    entries r.1.1 ls' =
      fold_left (fun acc kv =>
                   assoc_set acc (FromJSON_convert (default default_FromJSON opts) kv).1
                                 (FromJSON_convert (default default_FromJSON opts) kv).2)
        (visit tmpMap) [] /\
    framed h [] r.1.1 ls' /\
    mu r.1.2 = mu om ++ [EvLock; EvUnlock].
Proof.
  intros Hd r. subst r. unfold FromJSON. rewrite Hd.
  change (set_length 0 _) with (Clear (Lock om)).
  destruct (reset_set_all (FromJSON_convert (default default_FromJSON opts)) h om (visit tmpMap))
    as (Hr & ls' & Hi & He & Hf & Hm).
  { apply Forall_forall. intros kv _. apply FromJSON_convert_nonnil. }
  destruct (set_all _ h _ (visit tmpMap)) as [[h1 om1] e1]. simpl in *.
  split; [done|]. by exists ls'.
Qed.

Lemma FromJSON_err `{GoLib} visit h om data opts e :
  Decoder_Decode (PreserveType (default default_FromJSON opts)) data ∅ = inl e ->
  FromJSON visit h om data opts = (h, om, Some e).
Proof. intros Hd. unfold FromJSON. by rewrite Hd. Qed.

Lemma step_wf `{GoLib} h om o :
  wf h om -> wf (step (h, om) o).1 (step (h, om) o).2.
Proof.
  intros [ls Hi]. destruct o as [k v|k| |visit data|visit data opts]; simpl.
  - destruct (do_call_spec h om ls (CallSet k v) Hi) as (ls' & Hi' & _). by exists ls'.
  - destruct (do_call_spec h om ls (CallDelete k) Hi) as (ls' & Hi' & _). by exists ls'.
  - exists []. apply inv_empty.
  - destruct (json_Unmarshal data ∅) as [e|tmpMap] eqn:Hd.
    + rewrite (UnmarshalJSON_err _ _ _ _ _ Hd). by exists ls.
    + destruct (UnmarshalJSON_ok visit h om data tmpMap Hd) as (_ & ls' & Hi' & _).
      by exists ls'.
  - destruct (Decoder_Decode (PreserveType (default default_FromJSON opts)) data ∅)
      as [e|tmpMap] eqn:Hd.
    + rewrite (FromJSON_err _ _ _ _ _ _ Hd). by exists ls.
    + destruct (FromJSON_ok visit h om data opts tmpMap Hd) as (_ & ls' & Hi' & _).
      by exists ls'.
Qed.

Lemma run_wf `{GoLib} ops : wf (run ops).1 (run ops).2.
Proof.
  unfold run.
  assert (Hgen : forall s, wf s.1 s.2 -> wf (fold_left step ops s).1 (fold_left step ops s).2).
  { induction ops as [|o ops IH]; intros s Hs; [done|].
    simpl. apply IH. destruct s as [h om]. by apply step_wf. }
  apply Hgen. exists []. apply inv_new.
Qed.
Lemma is_range_nil visit : is_range visit -> visit ∅ = [].
Proof.
  intros Hv. specialize (Hv ∅). rewrite map_to_list_empty in Hv.
  by apply Permutation_nil_r in Hv.
Qed.

Lemma is_range_identity : is_range map_to_list.
Proof. intros m. reflexivity. Qed.

Lemma is_range_NoDup visit m : is_range visit -> NoDup (map fst (visit m)).
Proof.
  intros Hv. rewrite (Hv m). apply NoDup_fst_map_to_list.
Qed.

Lemma is_range_elem visit (m : gmap string any) k v :
  is_range visit -> m !! k = Some v -> (k, v) ∈ visit m.
Proof.
  intros Hv Hm. rewrite (Hv m). by apply elem_of_map_to_list.
Qed.

Lemma distinct_strings (g : string * any -> key * any) kvs :
  (forall kv, (g kv).1 = KString kv.1) ->
  NoDup (map fst kvs) -> distinct (map fst (map g kvs)).
Proof.
  intros Hg. induction kvs as [|kv kvs IH]; intros Hnd; [done|].
  apply NoDup_cons in Hnd as [Hnin Hnd]. simpl. split; [|by apply IH].
  apply Forall_forall. intros k' Hk'.
  apply list_elem_of_fmap in Hk' as (e & -> & He).
  apply list_elem_of_fmap in He as (kv' & -> & Hkv').
  rewrite !Hg. simpl. apply String.eqb_neq. intros Heq. apply Hnin.
  rewrite Heq. apply list_elem_of_fmap. by exists kv'.
Qed.

Lemma assoc_get_strings (g : string * any -> key * any) kvs k v :
  (forall kv, (g kv).1 = KString kv.1) ->
  NoDup (map fst kvs) -> (k, v) ∈ kvs ->
  assoc_get (map g kvs) (KString k) = Some (g (k, v)).2.
Proof.
  intros Hg. induction kvs as [|kv kvs IH]; intros Hnd Hin; [by inversion Hin|].
  apply NoDup_cons in Hnd as [Hnin Hnd]. simpl.
  destruct (g kv) as [k' v'] eqn:Eg.
  pose proof (Hg kv) as Hk. rewrite Eg in Hk. simpl in Hk. subst k'. simpl.
  apply elem_of_cons in Hin as [<-|Hin].
  - simpl. rewrite String.eqb_refl. by rewrite Eg.
  - destruct (String.eqb_spec kv.1 k) as [Heq|Hne]; [|by apply IH].
    exfalso. apply Hnin. rewrite Heq. apply list_elem_of_fmap. by exists (k, v).
Qed.

Lemma fold_assoc_set_map (g : string * any -> key * any) kvs acc :
  fold_left (fun acc kv => assoc_set acc (g kv).1 (g kv).2) kvs acc =
  fold_left (fun acc e => assoc_set acc e.1 e.2) (map g kvs) acc.
Proof. revert acc. induction kvs as [|kv kvs IH]; intros acc; [done|]. simpl. apply IH. Qed.

(** With text keys, the entries after a load are the converted pairs, in
    the order of the visit. *)
Lemma load_entries (g : string * any -> key * any) visit (tmpMap : gmap string any) :
  (forall kv, (g kv).1 = KString kv.1) -> is_range visit ->
  fold_left (fun acc kv => assoc_set acc (g kv).1 (g kv).2) (visit tmpMap) [] =
  map g (visit tmpMap).
Proof.
  intros Hg Hv. rewrite fold_assoc_set_map.
  rewrite fold_assoc_set_distinct; [done|]. simpl.
  apply distinct_strings; [done|]. by apply is_range_NoDup.
Qed.

Lemma UnmarshalJSON_Get `{GoLib} visit h om data tmpMap k v :
  is_range visit -> json_Unmarshal data ∅ = inr tmpMap -> tmpMap !! k = Some v ->
  let r := UnmarshalJSON visit h om data in
  (Get r.1.1 r.1.2 (KString k)).2 = (v, true).
Proof.
  intros Hv Hd Hk r. subst r.
  destruct (UnmarshalJSON_ok visit h om data tmpMap Hd) as (_ & ls & Hi & He & _).
  rewrite (Get_spec _ _ ls) by done. rewrite He.
  rewrite (load_entries (fun kv => (KString kv.1, kv.2))) by done.
  rewrite (assoc_get_strings (fun kv => (KString kv.1, kv.2)) _ k v); auto.
  - by apply is_range_NoDup.
  - by apply is_range_elem.
Qed.

Lemma FromJSON_convert_key `{GoLib} opts kv :
  KeyAsString opts = true -> (FromJSON_convert opts kv).1 = KString kv.1.
Proof. intros Hk. unfold FromJSON_convert. by rewrite Hk. Qed.







Lemma FromJSON_convert_value `{GoLib} opts kv :
  (FromJSON_convert opts kv).2 = if PreserveType opts then stored_number kv.2 else kv.2.
Proof.
  unfold FromJSON_convert, stored_number. simpl. destruct (PreserveType opts); [|done].
  by destruct kv.2.
Qed.
(* ===================================================================== *)
(** * Proofs: numbers as text *)
(* ===================================================================== *)

Lemma app_String c s t : String c s +:+ t = String c (s +:+ t).
Proof. reflexivity. Qed.

Lemma app_nil_l_string t : "" +:+ t = t.
Proof. reflexivity. Qed.

Lemma app_nil_r_string s : s +:+ "" = s.
Proof. induction s as [|c s IH]; [done|]. rewrite !app_String. simpl. by f_equal. Qed.

Lemma app_assoc_string s t u : (s +:+ t) +:+ u = s +:+ (t +:+ u).
Proof. induction s as [|c s IH]; [done|]. rewrite !app_String. simpl. by f_equal. Qed.

Lemma length_app_string s t :
  String.length (s +:+ t) = (String.length s + String.length t)%nat.
Proof. induction s as [|c s IH]; [done|]. rewrite !app_String. simpl. by f_equal. Qed.

Lemma span_digits_app s ds r rest :
  span_digits s = (ds, r) -> (r = "" -> ends_number rest) ->
  span_digits (s +:+ rest) = (ds, r +:+ rest).
Proof.
  revert ds r. induction s as [|c s IH]; intros ds r Hs Hr.
  - simpl in Hs. injection Hs as <- <-. specialize (Hr eq_refl).
    rewrite !app_nil_l_string.
    destruct rest as [|c rest]; [done|]. simpl in *.
    destruct Hr as (-> & _). done.
  - rewrite app_String. simpl in Hs |- *. destruct (is_digit c).
    + destruct (span_digits s) as [ds' r'] eqn:E. injection Hs as <- <-.
      by rewrite (IH ds' r' eq_refl Hr).
    + by injection Hs as <- <-.
Qed.

Lemma scan_frac_app s fp r rest :
  scan_frac s = Some (fp, r) -> (r = "" -> ends_number rest) ->
  scan_frac (s +:+ rest) = Some (fp, r +:+ rest).
Proof.
  intros Hs Hr. destruct s as [|c s].
  - simpl in Hs. injection Hs as <- <-. specialize (Hr eq_refl).
    rewrite !app_nil_l_string.
    destruct rest as [|c rest]; [done|]. simpl in *.
    destruct Hr as (_ & Hc & _). by apply Ascii.eqb_neq in Hc as ->.
  - rewrite app_String. simpl in Hs |- *. destruct (Ascii.eqb c ".").
    + destruct (span_digits s) as [ds r'] eqn:E.
      rewrite (span_digits_app s ds r' rest E).
      * destruct ds; [discriminate|]. by injection Hs as <- <-.
      * intros ->. destruct ds; [discriminate|]. injection Hs as <- <-. by apply Hr.
    + by injection Hs as <- <-.
Qed.

Lemma scan_exp_app s ep r rest :
  scan_exp s = Some (ep, r) -> (r = "" -> ends_number rest) ->
  scan_exp (s +:+ rest) = Some (ep, r +:+ rest).
Proof.
  intros Hs Hr. destruct s as [|c s].
  - simpl in Hs. injection Hs as <- <-. specialize (Hr eq_refl).
    rewrite !app_nil_l_string.
    destruct rest as [|c rest]; [done|]. simpl in *.
    destruct Hr as (_ & _ & He & HE).
    apply Ascii.eqb_neq in He as ->. by apply Ascii.eqb_neq in HE as ->.
  - rewrite app_String. simpl in Hs |- *. destruct (Ascii.eqb c "e" || Ascii.eqb c "E").
    + destruct s as [|c' s'].
      * simpl in Hs. discriminate.
      * rewrite app_String.
        destruct (Ascii.eqb c' "-").
        { destruct (span_digits s') as [ds r'] eqn:E.
          rewrite (span_digits_app s' ds r' rest E).
          - destruct ds; [discriminate|]. by injection Hs as <- <-.
          - intros ->. destruct ds; [discriminate|]. injection Hs as <- <-. by apply Hr. }
        destruct (Ascii.eqb c' "+").
        { destruct (span_digits s') as [ds r'] eqn:E.
          rewrite (span_digits_app s' ds r' rest E).
          - destruct ds; [discriminate|]. by injection Hs as <- <-.
          - intros ->. destruct ds; [discriminate|]. injection Hs as <- <-. by apply Hr. }
        destruct (span_digits (String c' s')) as [ds r'] eqn:E.
        rewrite <- app_String.
        rewrite (span_digits_app (String c' s') ds r' rest E).
        { destruct ds; [discriminate|]. by injection Hs as <- <-. }
        intros ->. destruct ds; [discriminate|]. injection Hs as <- <-. by apply Hr.
    + by injection Hs as <- <-.
Qed.

Lemma scan_number_app s n r rest :
  scan_number s = Some (n, r) -> (r = "" -> ends_number rest) ->
  scan_number (s +:+ rest) = Some (n, r +:+ rest).
Proof.
  intros Hs Hr. unfold scan_number in *.
  destruct s as [|c s]; [discriminate|]. rewrite app_String.
  assert (Hbody : forall neg t,
    match t with
    | String c s2 =>
        if is_digit c then
          let '(ip, s3) :=
            if Ascii.eqb c "0" then ("0", s2)
            else let '(ds, r) := span_digits s2 in (String c ds, r) in
          match scan_frac s3 with
          | Some (fp, s4) =>
              match scan_exp s4 with
              | Some (ep, s5) => Some (mkNumber neg ip fp ep, s5)
              | None => None
              end
          | None => None
          end
        else None
    | EmptyString => None
    end = Some (n, r) ->
    match t +:+ rest with
    | String c s2 =>
        if is_digit c then
          let '(ip, s3) :=
            if Ascii.eqb c "0" then ("0", s2)
            else let '(ds, r) := span_digits s2 in (String c ds, r) in
          match scan_frac s3 with
          | Some (fp, s4) =>
              match scan_exp s4 with
              | Some (ep, s5) => Some (mkNumber neg ip fp ep, s5)
              | None => None
              end
          | None => None
          end
        else None
    | EmptyString => None
    end = Some (n, r +:+ rest)).
  { intros neg t Ht. destruct t as [|d t]; [discriminate|]. rewrite app_String.
    destruct (is_digit d); [|discriminate].
    assert (Hrest : forall ip s3,
      match scan_frac s3 with
      | Some (fp, s4) =>
          match scan_exp s4 with
          | Some (ep, s5) => Some (mkNumber neg ip fp ep, s5)
          | None => None
          end
      | None => None
      end = Some (n, r) ->
      match scan_frac (s3 +:+ rest) with
      | Some (fp, s4) =>
          match scan_exp s4 with
          | Some (ep, s5) => Some (mkNumber neg ip fp ep, s5)
          | None => None
          end
      | None => None
      end = Some (n, r +:+ rest)).
    { intros ip s3 H3. destruct (scan_frac s3) as [[fp s4]|] eqn:Ef; [|discriminate].
      destruct (scan_exp s4) as [[ep s5]|] eqn:Ee; [|discriminate].
      injection H3 as <- <-.
      assert (H5 : s4 = "" -> s5 = "").
      { intros ->. simpl in Ee. by injection Ee as <- <-. }
      rewrite (scan_frac_app s3 fp s4 rest Ef) by (intros H4; apply Hr; auto).
      by rewrite (scan_exp_app s4 ep s5 rest Ee). }
    destruct (Ascii.eqb d "0"); [by apply Hrest|].
    destruct (span_digits t) as [ds r'] eqn:Es.
    assert (H5 : r' = "" -> r = "").
    { intros ->. simpl in Ht. destruct (scan_exp "") as [[ep s5]|] eqn:Ee; [|discriminate].
      simpl in Ee. injection Ee as <- <-. by injection Ht as <- <-. }
    rewrite (span_digits_app t ds r' rest Es) by (intros H4; apply Hr; auto).
    by apply Hrest. }
  destruct (Ascii.eqb c "-").
  - exact (Hbody true s Hs).
  - exact (Hbody false (String c s) Hs).
Qed.

Lemma substring_prefix s r :
  substring 0 (String.length (s +:+ r) - String.length r) (s +:+ r) = s.
Proof.
  rewrite length_app_string.
  replace (String.length s + String.length r - String.length r)%nat
    with (String.length s) by lia.
  induction s as [|c s IH].
  - rewrite app_nil_l_string. by destruct r.
  - rewrite app_String. simpl. by rewrite IH.
Qed.

Lemma scan_number_text_app lit rest :
  is_number_literal lit = true -> ends_number rest ->
  scan_number_text (lit +:+ rest) = Some (lit, rest).
Proof.
  intros Hl Hr. unfold is_number_literal in Hl. unfold scan_number_text.
  destruct (scan_number lit) as [[n r]|] eqn:E; [|discriminate].
  destruct r; [|discriminate].
  rewrite (scan_number_app lit n "" rest E) by done. simpl.
  by rewrite substring_prefix.
Qed.
Lemma digits2_pos_succ p :
  (Zpos (digits2_pos (Pos.succ p)) <= Zpos (digits2_pos p) + 1)%Z.
Proof.
  induction p as [p IH|p IH|]; simpl; lia.
Qed.

Lemma Zdigits2_succ m : 0 <= m -> Zdigits2 (m + 1) <= Zdigits2 m + 1.
Proof.
  intros Hm. destruct m as [|p|p]; [simpl; lia| |lia].
  replace (Zpos p + 1) with (Zpos (Pos.succ p)) by lia. simpl.
  apply digits2_pos_succ.
Qed.

Lemma Zdigits2_nonneg m : 0 <= Zdigits2 m.
Proof. destruct m; simpl; lia. Qed.

Lemma digits2_pos_lower p : 2 ^ (Zpos (digits2_pos p) - 1) <= Zpos p.
Proof.
  induction p as [p IH|p IH|]; simpl; [| |done].
  - replace (Zpos (Pos.succ (digits2_pos p)) - 1) with (Z.succ (Zpos (digits2_pos p) - 1)) by lia.
    rewrite Z.pow_succ_r by lia. lia.
  - replace (Zpos (Pos.succ (digits2_pos p)) - 1) with (Z.succ (Zpos (digits2_pos p) - 1)) by lia.
    rewrite Z.pow_succ_r by lia. lia.
Qed.

Lemma digits2_pos_bound p k : 0 <= k -> Zpos p < 2 ^ k -> Zpos (digits2_pos p) <= k.
Proof.
  intros Hk Hp. pose proof (digits2_pos_lower p) as Hl.
  destruct (Z_le_gt_dec (Zpos (digits2_pos p)) k) as [|Hgt]; [done|].
  assert (2 ^ k <= 2 ^ (Zpos (digits2_pos p) - 1)) by (apply Z.pow_le_mono_r; lia).
  lia.
Qed.

Lemma shr_1_spec mrs :
  0 <= shr_m mrs ->
  0 <= shr_m (shr_1 mrs) /\
  Zdigits2 (shr_m (shr_1 mrs)) <= Z.max 0 (Zdigits2 (shr_m mrs) - 1).
Proof.
  destruct mrs as [m r s]. simpl. intros Hm.
  destruct m as [|[p|p|]|p]; simpl; lia.
Qed.

Lemma iter_shr_1_spec p : forall mrs,
  0 <= shr_m mrs ->
  0 <= shr_m (SpecFloat.iter_pos shr_1 p mrs) /\
  Zdigits2 (shr_m (SpecFloat.iter_pos shr_1 p mrs)) <= Z.max 0 (Zdigits2 (shr_m mrs) - Zpos p).
Proof.
  induction p as [p IH|p IH|]; intros mrs Hm; simpl.
  - destruct (shr_1_spec mrs Hm) as [H1 H2].
    destruct (IH _ H1) as [H3 H4]. destruct (IH _ H3) as [H5 H6]. lia.
  - destruct (IH _ Hm) as [H3 H4]. destruct (IH _ H3) as [H5 H6]. lia.
  - by apply shr_1_spec.
Qed.

Lemma shr_record_of_loc_m m l : shr_m (shr_record_of_loc m l) = m.
Proof. by destruct l as [|[]]. Qed.

(** After a shift to the exponent that [fexp] asks for: the mantissa is
    not negative, and neither the exponent nor the magnitude has grown
    beyond what [fexp] gives. *)
Lemma shr_fexp_spec m e l :
  0 <= m ->
  let r := shr_fexp prec64 emax64 m e l in
  let d := Zdigits2 m + e in
  0 <= shr_m r.1 /\
  r.2 <= Z.max e (fexp prec64 emax64 d) /\
  Zdigits2 (shr_m r.1) + r.2 <= Z.max d (fexp prec64 emax64 d).
Proof.
  intros Hm r d. subst r d. unfold shr_fexp, shr.
  pose proof (Zdigits2_nonneg m).
  destruct (fexp prec64 emax64 (Zdigits2 m + e) - e) as [|p|p] eqn:E; simpl.
  - rewrite shr_record_of_loc_m. lia.
  - destruct (iter_shr_1_spec p (shr_record_of_loc m l)) as [H1 H2].
    { by rewrite shr_record_of_loc_m. }
    rewrite shr_record_of_loc_m in H2. lia.
  - rewrite shr_record_of_loc_m. lia.
Qed.

Lemma round_nearest_even_spec m l :
  0 <= m ->
  0 <= round_nearest_even m l /\ Zdigits2 (round_nearest_even m l) <= Zdigits2 m + 1.
Proof.
  intros Hm. pose proof (Zdigits2_succ m Hm).
  unfold round_nearest_even. destruct l as [|[]]; try destruct (Z.even m); lia.
Qed.

Lemma fexp64 d : fexp prec64 emax64 d = Z.max (d - 53) (-1074).
Proof. reflexivity. Qed.

Lemma binary_round_aux_finite sx mx ex lx :
  0 <= mx -> Zdigits2 mx + ex <= 1000 -> ex <= 900 ->
  is_finite (binary_round_aux prec64 emax64 sx mx ex lx) = true.
Proof.
  intros Hm Hd He. unfold binary_round_aux.
  pose proof (shr_fexp_spec mx ex lx Hm) as H1. cbv zeta in H1.
  destruct (shr_fexp prec64 emax64 mx ex lx) as [mrs' e'] eqn:E1. simpl in H1.
  destruct H1 as (H1a & H1b & H1c).
  destruct (round_nearest_even_spec (shr_m mrs') (loc_of_shr_record mrs') H1a) as [H2a H2b].
  pose proof (shr_fexp_spec _ e' loc_Exact H2a) as H3. cbv zeta in H3.
  destruct (shr_fexp prec64 emax64 _ e' loc_Exact) as [mrs'' e''] eqn:E3. simpl in H3.
  destruct H3 as (H3a & H3b & H3c).
  rewrite !fexp64 in *.
  destruct (shr_m mrs'') as [|p|p]; [done| |lia].
  destruct (Z.leb_spec e'' (emax64 - prec64)); [done|].
  unfold emax64, prec64 in *. lia.
Qed.

Lemma digits2_pos_iter_xO p d :
  Zpos (digits2_pos (Pos.iter xO p d)) = Zpos (digits2_pos p) + Zpos d.
Proof.
  induction d as [|d IH] using Pos.peano_ind.
  - simpl. lia.
  - rewrite Pos.iter_succ. simpl. lia.
Qed.

Lemma binary_round_finite sx p :
  Zpos p < 2 ^ 64 -> is_finite (binary_round prec64 emax64 sx p 0) = true.
Proof.
  intros Hp. unfold binary_round, shl_align.
  pose proof (digits2_pos_bound p 64 ltac:(lia) Hp) as Hd.
  destruct (fexp prec64 emax64 (Zpos (digits2_pos p) + 0) - 0) as [|d|d] eqn:E.
  - apply binary_round_aux_finite; simpl; lia.
  - apply binary_round_aux_finite; simpl; lia.
  - apply binary_round_aux_finite; [lia| |].
    + simpl. rewrite digits2_pos_iter_xO. rewrite fexp64 in *. lia.
    + rewrite fexp64 in *. lia.
Qed.

Lemma float64_of_int_finite n : in_int64 n = true -> is_finite (float64_of_int n) = true.
Proof.
  unfold in_int64. intros Hn. apply andb_true_iff in Hn as [H1 H2].
  apply Z.leb_le in H1, H2.
  unfold float64_of_int, round_decimal.
  destruct (Z.abs n) as [|p|p] eqn:E; [done| |lia].
  simpl. replace (p * 1)%positive with p by lia.
  apply binary_round_finite. lia.
Qed.
Lemma digit_char d :
  (d < 10)%N ->
  is_digit (ascii_of_N (48 + d)) = true /\
  digit_val (ascii_of_N (48 + d)) = Z.of_N d /\
  (Ascii.eqb (ascii_of_N (48 + d)) "0" = true -> d = 0%N).
Proof.
  intros Hd. unfold is_digit, digit_val.
  assert (He : N_of_ascii (ascii_of_N (48 + d)) = (48 + d)%N).
  { apply N_ascii_embedding. lia. }
  rewrite He. split; [|split].
  - apply andb_true_iff. split; apply N.leb_le; lia.
  - lia.
  - intros H0. apply Ascii.eqb_eq in H0.
    apply (f_equal N_of_ascii) in H0. rewrite He in H0. simpl in H0. lia.
Qed.

Lemma digits_val_app a x y : digits_val a (x +:+ y) = digits_val (digits_val a x) y.
Proof.
  revert a. induction x as [|c x IH]; intros a; [done|].
  rewrite app_String. simpl. apply IH.
Qed.

Lemma all_digits_app x y : all_digits (x +:+ y) = all_digits x && all_digits y.
Proof.
  induction x as [|c x IH]; [done|].
  rewrite app_String. simpl. rewrite IH. by rewrite andb_assoc.
Qed.

(** The digits of [n]: they denote [n], and the first is a zero only when
    [n] is zero, which has the one digit. *)
Lemma digits_of_spec fuel : forall n acc,
  (n < 10 ^ N.of_nat (S fuel))%N ->
  exists x,
    digits_of fuel n acc = x +:+ acc /\
    all_digits x = true /\
    (forall a, digits_val a x = a * 10 ^ Z.of_nat (String.length x) + Z.of_N n) /\
    exists c t, x = String c t /\ (Ascii.eqb c "0" = true -> n = 0%N /\ t = "").
Proof.
  induction fuel as [|fuel IH]; intros n acc Hn.
  - assert (Hlt : (n < 10)%N) by (simpl in Hn; lia).
    destruct (digit_char n Hlt) as (Hd & Hv & Hz).
    exists (String (ascii_of_N (48 + n)) ""). simpl. rewrite N.mod_small by done.
    split; [done|]. rewrite Hd. split; [done|]. split.
    + intros a. rewrite Hv. lia.
    + eexists _, _. split; [done|]. intros H0. split; [by apply Hz|done].
  - assert (Hm : (n mod 10 < 10)%N) by (apply N.mod_lt; lia).
    destruct (digit_char _ Hm) as (Hd & Hv & Hz).
    simpl digits_of. destruct (N.eqb_spec (n / 10) 0) as [Hq|Hq].
    + assert (Hlt : (n < 10)%N).
      { pose proof (N.div_mod n 10 ltac:(lia)). lia. }
      rewrite N.mod_small in * by done.
      exists (String (ascii_of_N (48 + n)) ""). simpl.
      split; [done|]. rewrite Hd. split; [done|]. split.
      * intros a. rewrite Hv. lia.
      * eexists _, _. split; [done|]. intros H0. split; [by apply Hz|done].
    + destruct (IH (n / 10)%N (String (ascii_of_N (48 + n mod 10)) acc))
        as (x & Hx & Hall & Hval & c & t & -> & Hlead).
      { apply N.Div0.div_lt_upper_bound.
        replace (N.of_nat (S (S fuel))) with (N.succ (N.of_nat (S fuel))) in Hn by lia.
        rewrite N.pow_succ_r' in Hn. lia. }
      exists (String c t +:+ String (ascii_of_N (48 + n mod 10)) "").
      split; [|split; [|split]].
      * rewrite Hx. by rewrite app_assoc_string.
      * rewrite all_digits_app, Hall. simpl. by rewrite Hd.
      * intros a. rewrite digits_val_app, Hval. simpl. rewrite Hv.
        rewrite length_app_string. simpl String.length.
        replace (Z.of_nat (S (String.length t + 1))) with (Z.succ (Z.of_nat (S (String.length t)))) by lia.
        rewrite Z.pow_succ_r by lia.
        pose proof (N.div_mod n 10 ltac:(lia)) as Hdm.
        rewrite N2Z.inj_div, N2Z.inj_mod. simpl Z.of_N.
        pose proof (Z.div_mod (Z.of_N n) 10 ltac:(lia)). lia.
      * exists c, (t +:+ String (ascii_of_N (48 + n mod 10)) ""). split; [done|].
        intros H0. destruct (Hlead H0) as [Hq0 _]. done.
Qed.

Lemma pow10_log2 m : (m < 10 ^ N.of_nat (S (N.to_nat (N.log2 m))))%N.
Proof.
  destruct (N.eq_dec m 0%N) as [->|Hm]; [simpl; lia|].
  pose proof (N.log2_spec m ltac:(lia)) as [_ Hl].
  replace (N.of_nat (S (N.to_nat (N.log2 m)))) with (N.succ (N.log2 m)) by lia.
  eapply N.lt_le_trans; [exact Hl|].
  apply N.pow_le_mono_l. lia.
Qed.

Lemma span_digits_all x : all_digits x = true -> span_digits x = (x, "").
Proof.
  induction x as [|c x IH]; [done|]. simpl. intros H.
  apply andb_true_iff in H as [-> H]. by rewrite IH.
Qed.

(** The text of an integer is a number of JSON that denotes it. *)
Lemma scan_number_FormatInt n :
  exists x,
    scan_number (FormatInt n) = Some (mkNumber (n <? 0) x "" None, "") /\
    digits_val 0 x = Z.abs n.
Proof.
  unfold FormatInt.
  destruct (digits_of_spec (N.to_nat (N.log2 (Z.abs_N n))) (Z.abs_N n) "" (pow10_log2 _))
    as (x & Hx & Hall & Hval & c & t & -> & Hlead).
  rewrite Hx, app_nil_r_string. exists (String c t). split.
  - assert (Hbody : forall neg,
      (if is_digit c then
         let '(ip, s3) :=
           if Ascii.eqb c "0" then ("0", t)
           else let '(ds, r) := span_digits t in (String c ds, r) in
         match scan_frac s3 with
         | Some (fp, s4) =>
             match scan_exp s4 with
             | Some (ep, s5) => Some (mkNumber neg ip fp ep, s5)
             | None => None
             end
         | None => None
         end
       else None) = Some (mkNumber neg (String c t) "" None, "")).
    { intros neg. simpl in Hall. apply andb_true_iff in Hall as [Hc Ht]. rewrite Hc.
      destruct (Ascii.eqb c "0") eqn:E0.
      - destruct (Hlead eq_refl) as [_ ->]. apply Ascii.eqb_eq in E0 as ->. done.
      - by rewrite (span_digits_all t Ht). }
    destruct (n <? 0) eqn:En.
    + unfold scan_number. simpl. apply Hbody.
    + unfold scan_number.
      assert (Hne : Ascii.eqb c "-" = false).
      { simpl in Hall. apply andb_true_iff in Hall as [Hc _].
        destruct (Ascii.eqb_spec c "-") as [->|]; [discriminate|done]. }
      rewrite Hne. apply Hbody.
  - rewrite Hval. rewrite N2Z.inj_abs_N. lia.
Qed.

Lemma is_number_literal_FormatInt n : is_number_literal (FormatInt n) = true.
Proof.
  destruct (scan_number_FormatInt n) as (x & Hs & _).
  unfold is_number_literal. by rewrite Hs.
Qed.

Lemma ParseFloat_FormatInt `{GoLib} n :
  in_int64 n = true -> ParseFloat (FormatInt n) = Some (float64_of_int n).
Proof.
  intros Hn. destruct (scan_number_FormatInt n) as (x & Hs & Hv).
  unfold ParseFloat. rewrite Hs.
  assert (Hp : parts_value (mkNumber (n <? 0) x "" None) = float64_of_int n).
  { unfold parts_value, float64_of_int. simpl.
    by rewrite app_nil_r_string, Hv. }
  rewrite Hp. by rewrite float64_of_int_finite.
Qed.
(* ===================================================================== *)
(** * Proofs: strings as text *)
(* ===================================================================== *)

Lemma scan_string_step fuel s :
  scan_string (S fuel) s = scan_step (scan_string fuel) s.
Proof. reflexivity. Qed.

(** Reading back an escaped ASCII byte. *)
Lemma scan_step_escape_byte c again X :
  (N_of_ascii c <? 128)%N = true ->
  scan_step again (escape_byte c +:+ X) =
  match again X with
  | Some (t, r) => Some (String c t, r)
  | None => None
  end.
Proof.
  destruct c as [b0 b1 b2 b3 b4 b5 b6 b7].
  destruct b7; [destruct b0, b1, b2, b3, b4, b5, b6; discriminate|].
  intros _.
  destruct b0, b1, b2, b3, b4, b5, b6; vm_compute; reflexivity.
Qed.

Lemma escape_byte_length c : (1 <= String.length (escape_byte c))%nat.
Proof.
  unfold escape_byte.
  repeat match goal with
         | |- context [if ?b then _ else _] => destruct b
         end; simpl; lia.
Qed.
Lemma take_drop_string n s : take_string n s +:+ drop_string n s = s.
Proof.
  revert s; induction n as [|n IH]; intros [|c s]; try reflexivity.
  cbn [take_string drop_string]. rewrite app_String, IH. reflexivity.
Qed.

Lemma drop_string_length n s :
  (String.length (drop_string n s) <= String.length s)%nat.
Proof.
  revert s; induction n as [|n IH]; intros [|c s]; cbn [drop_string String.length]; try lia.
  specialize (IH s). lia.
Qed.

Lemma take_string_length n s :
  (n <= String.length s)%nat -> String.length (take_string n s) = n.
Proof.
  revert s; induction n as [|n IH]; intros [|c s]; cbn [take_string String.length]; try lia.
  intros. rewrite IH; lia.
Qed.

Lemma drop_take_app n s X :
  (n <= String.length s)%nat ->
  drop_string n (take_string n s +:+ X) = X.
Proof.
  revert s; induction n as [|n IH]; intros [|c s]; cbn [take_string drop_string String.length];
    try lia; intros;
    try (rewrite ?app_nil_l_string; destruct X; reflexivity).
  rewrite app_String. cbn [drop_string]. apply IH. lia.
Qed.

Lemma take_take_app n s X :
  (n <= String.length s)%nat ->
  take_string n (take_string n s +:+ X) = take_string n s.
Proof.
  revert s; induction n as [|n IH]; intros [|c s]; cbn [take_string drop_string String.length];
    try lia; intros;
    try (rewrite ?app_nil_l_string; destruct X; reflexivity).
  rewrite app_String. cbn [take_string]. f_equal. apply IH. lia.
Qed.

(** The size of the rune at the head depends on its bytes only. *)
Lemma rune_size_spec s n :
  rune_size s = Some n ->
  (1 <= n <= String.length s)%nat /\
  forall X, rune_size (take_string n s +:+ X) = Some n.
Proof.
  unfold rune_size.
  destruct s as [|c0 s]; [discriminate|].
  cbv zeta.
  destruct (N_of_ascii c0 <? 128)%N eqn:E0.
  { intros [= <-]. split; [cbn; lia|]. intros X.
    cbn [take_string]. rewrite app_String, E0. reflexivity. }
  destruct (N_of_ascii c0 <? 194)%N eqn:E1; [discriminate|].
  destruct (N_of_ascii c0 <? 224)%N eqn:E2.
  { destruct s as [|c1 s]; [discriminate|].
    destruct (is_cont 128 191 c1) eqn:F1; [|discriminate].
    intros [= <-]. split; [cbn; lia|]. intros X.
    cbn [take_string]. rewrite !app_String, E0, E1, E2, F1. reflexivity. }
  destruct (N_of_ascii c0 <? 240)%N eqn:E3.
  { destruct s as [|c1 [|c2 s]]; try discriminate.
    match goal with |- (if ?b then _ else _) = _ -> _ => destruct b eqn:F1 end; [|discriminate].
    intros [= <-]. split; [cbn; lia|]. intros X.
    cbn [take_string]. rewrite !app_String, E0, E1, E2, E3, F1. reflexivity. }
  destruct (N_of_ascii c0 <? 245)%N eqn:E4; [|discriminate].
  destruct s as [|c1 [|c2 [|c3 s]]]; try discriminate.
  match goal with |- (if ?b then _ else _) = _ -> _ => destruct b eqn:F1 end; [|discriminate].
  intros [= <-]. split; [cbn; lia|]. intros X.
  cbn [take_string]. rewrite !app_String, E0, E1, E2, E3, E4, F1. reflexivity.
Qed.

Lemma rune_size_ascii c s :
  (N_of_ascii c <? 128)%N = true -> rune_size (String c s) = Some 1%nat.
Proof. intros E. unfold rune_size. cbv zeta. rewrite E. reflexivity. Qed.

(** The first byte of a longer rune is no quote, no backslash and no
    control character. *)
Lemma high_byte c :
  (N_of_ascii c <? 128)%N = false ->
  Ascii.eqb c dquote = false /\ Ascii.eqb c "\" = false /\
  (N_of_ascii c <? 32)%N = false.
Proof.
  destruct c as [b0 b1 b2 b3 b4 b5 b6 b7].
  destruct b7; [|destruct b0, b1, b2, b3, b4, b5, b6; discriminate].
  intros _. destruct b0, b1, b2, b3, b4, b5, b6; vm_compute; auto.
Qed.

(** A rune that is not ASCII is read as it stands. *)
Lemma scan_step_rune again s n X :
  rune_size s = Some n ->
  (match s with String c _ => N_of_ascii c <? 128 | _ => true end)%N = false ->
  scan_step again (take_string n s +:+ X) =
  match again X with
  | Some (t, r) => Some (take_string n s +:+ t, r)
  | None => None
  end.
Proof.
  intros Hn Hc. destruct (rune_size_spec _ _ Hn) as [[H1 H2] Hx].
  destruct s as [|c s]; [discriminate|].
  destruct n as [|n]; [lia|].
  specialize (Hx X).
  destruct (high_byte _ Hc) as (Q1 & Q2 & Q3).
  assert (Hd := drop_take_app (S n) (String c s) X H2).
  assert (Ht := take_take_app (S n) (String c s) X H2).
  revert Hx Hd Ht. cbn [take_string]. rewrite app_String. intros Hx Hd Ht.
  change (take_string (S n) (String c (take_string n s +:+ X)) =
          String c (take_string n s)) in Ht.
  unfold scan_step. rewrite Q1, Q2, Q3, Hx, Hd, Ht. reflexivity.
Qed.

Lemma scan_step_separator again X :
  scan_step again ("\u2028" +:+ X) =
  match again X with
  | Some (t, r) => Some (line_separator +:+ t, r)
  | None => None
  end /\
  scan_step again ("\u2029" +:+ X) =
  match again X with
  | Some (t, r) => Some (paragraph_separator +:+ t, r)
  | None => None
  end.
Proof. split; vm_compute; reflexivity. Qed.

Lemma scan_step_quote again X : scan_step again (String dquote X) = Some ("", X).
Proof. reflexivity. Qed.
Lemma escape_string_length n : forall s fe fv,
  (String.length s <= n)%nat -> (n <= fe)%nat -> (n <= fv)%nat ->
  utf8_valid_from fv s = true ->
  (String.length s <= String.length (escape_string fe s))%nat.
Proof.
  induction n as [|n IH]; intros [|c s] fe fv Hl Hfe Hfv Hv;
    try (cbn [String.length]; lia); cbn [String.length] in Hl; try lia.
  destruct fe as [|fe]; [lia|]. destruct fv as [|fv]; [lia|].
  cbn [utf8_valid_from] in Hv. cbn [escape_string].
  destruct (N_of_ascii c <? 128)%N eqn:Ec.
  - rewrite (rune_size_ascii _ _ Ec) in Hv. cbn [drop_string] in Hv.
    rewrite length_app_string. cbn [String.length].
    pose proof (escape_byte_length c).
    pose proof (IH s fe fv ltac:(lia) ltac:(lia) ltac:(lia) Hv). lia.
  - destruct (rune_size (String c s)) as [k|] eqn:Hk; [|discriminate].
    destruct (rune_size_spec _ _ Hk) as [[K1 K2] _].
    pose proof (drop_string_length k (String c s)) as Hd.
    assert (String.length (drop_string k (String c s)) + k = String.length (String c s))%nat as Hsum.
    { pose proof (f_equal String.length (take_drop_string k (String c s))) as E.
      rewrite length_app_string, take_string_length in E by exact K2. lia. }
    cbn [String.length] in Hsum, K2.
    pose proof (IH (drop_string k (String c s)) fe fv ltac:(lia) ltac:(lia) ltac:(lia) Hv).
    cbv zeta. rewrite length_app_string.
    assert (k <= 4)%nat.
    { revert Hk. unfold rune_size. cbv zeta.
      repeat match goal with
             | |- context [if ?b then _ else _] => destruct b
             | |- context [match ?x with EmptyString => _ | String _ _ => _ end] => destruct x
             end; intros [= <-] || discriminate; lia. }
    destruct (_ =? line_separator)%string; [cbn [String.length]; lia|].
    destruct (_ =? paragraph_separator)%string; [cbn [String.length]; lia|].
    rewrite take_string_length; cbn [String.length]; lia.
Qed.

(** Reading a written text gives the text back. *)
Lemma scan_escape n : forall s fe fv fs rest,
  (String.length s <= n)%nat -> (n <= fe)%nat -> (n <= fv)%nat -> (n < fs)%nat ->
  utf8_valid_from fv s = true ->
  scan_string fs (escape_string fe s +:+ String dquote rest) = Some (s, rest).
Proof.
  induction n as [|n IH]; intros [|c s] fe fv fs rest Hl Hfe Hfv Hfs Hv;
    cbn [String.length] in Hl; try lia.
  - destruct fs as [|fs]; [lia|].
    replace (escape_string fe "") with "" by (destruct fe; reflexivity).
    rewrite app_nil_l_string. reflexivity.
  - destruct fs as [|fs]; [lia|].
    replace (escape_string fe "") with "" by (destruct fe; reflexivity).
    rewrite app_nil_l_string. reflexivity.
  - destruct fe as [|fe]; [lia|]. destruct fv as [|fv]; [lia|].
    destruct fs as [|fs]; [lia|].
    cbn [utf8_valid_from] in Hv. cbn [escape_string].
    rewrite scan_string_step.
    destruct (N_of_ascii c <? 128)%N eqn:Ec.
    + rewrite (rune_size_ascii _ _ Ec) in Hv. cbn [drop_string] in Hv.
      rewrite app_assoc_string, scan_step_escape_byte by exact Ec.
      rewrite (IH s fe fv fs rest) by (lia || exact Hv). reflexivity.
    + destruct (rune_size (String c s)) as [k|] eqn:Hk; [|discriminate].
      destruct (rune_size_spec _ _ Hk) as [[K1 K2] _].
      assert (String.length (drop_string k (String c s)) + k = String.length (String c s))%nat as Hsum.
      { pose proof (f_equal String.length (take_drop_string k (String c s))) as E.
        rewrite length_app_string, take_string_length in E by exact K2. lia. }
      cbn [String.length] in Hsum, K2.
      pose proof (IH (drop_string k (String c s)) fe fv fs rest
                    ltac:(lia) ltac:(lia) ltac:(lia) ltac:(lia) Hv) as Hrec.
      cbv zeta. rewrite app_assoc_string.
      destruct (_ =? line_separator)%string eqn:E1.
      { apply String.eqb_eq in E1.
        rewrite (proj1 (scan_step_separator _ _)), Hrec, <- E1, take_drop_string.
        reflexivity. }
      destruct (_ =? paragraph_separator)%string eqn:E2.
      { apply String.eqb_eq in E2.
        rewrite (proj2 (scan_step_separator _ _)), Hrec, <- E2, take_drop_string.
        reflexivity. }
      rewrite (scan_step_rune _ _ _ _ Hk Ec), Hrec, take_drop_string. reflexivity.
Qed.
(* ===================================================================== *)
(** * Proofs: reading what the encoder wrote *)
(* ===================================================================== *)

Lemma skip_ws_spaces d X : skip_ws (spaces d +:+ X) = skip_ws X.
Proof.
  induction d as [|d IH]; cbn [spaces].
  - by rewrite app_nil_l_string.
  - rewrite app_assoc_string, !app_String, app_nil_l_string. cbn. exact IH.
Qed.

Lemma skip_ws_newline d X : skip_ws (newline d +:+ X) = skip_ws X.
Proof. unfold newline. rewrite app_String. cbn. apply skip_ws_spaces. Qed.

Lemma skip_ws_sep_open ind X : skip_ws (sep_open ind +:+ X) = skip_ws X.
Proof.
  destruct ind; cbn [sep_open]; [apply skip_ws_newline|by rewrite app_nil_l_string].
Qed.

Lemma skip_ws_sep_close ind X : skip_ws (sep_close ind +:+ X) = skip_ws X.
Proof.
  destruct ind; cbn [sep_close]; [apply skip_ws_newline|by rewrite app_nil_l_string].
Qed.

(** The first byte of a number. *)
Lemma number_head lit :
  is_number_literal lit = true ->
  exists c t, lit = String c t /\ (Ascii.eqb c "-" || is_digit c) = true.
Proof.
  unfold is_number_literal, scan_number.
  destruct lit as [|c t]; [discriminate|].
  destruct (Ascii.eqb c "-") eqn:E1; [by exists c, t; rewrite E1|].
  destruct (is_digit c) eqn:E; [by exists c, t; rewrite E1, E|discriminate].
Qed.

Lemma number_head_char c :
  (Ascii.eqb c "-" || is_digit c) = true ->
  is_space c = false /\ Ascii.eqb c "{" = false /\ Ascii.eqb c "[" = false /\
  Ascii.eqb c dquote = false.
Proof.
  destruct c as [b0 b1 b2 b3 b4 b5 b6 b7].
  destruct b0, b1, b2, b3, b4, b5, b6, b7; vm_compute; try discriminate; auto.
Qed.
Lemma quote_app s rest :
  quote s +:+ rest =
  String dquote (escape_string (String.length s) s +:+ String dquote rest).
Proof.
  unfold quote. by rewrite app_assoc_string, !app_String, app_nil_l_string.
Qed.

Lemma scan_quote s rest :
  utf8_valid s = true ->
  let s1 := escape_string (String.length s) s +:+ String dquote rest in
  scan_string (S (String.length s1)) s1 = Some (s, rest).
Proof.
  intros Hv s1. subst s1.
  apply (scan_escape (String.length s) s _ (String.length s)); try lia; [|exact Hv].
  rewrite length_app_string.
  pose proof (escape_string_length (String.length s) s (String.length s) (String.length s)
                ltac:(lia) ltac:(lia) ltac:(lia) Hv).
  lia.
Qed.

Lemma prefix_app p rest : String.prefix p (p +:+ rest) = true.
Proof.
  induction p as [|a p IH].
  - rewrite app_nil_l_string. by destruct rest.
  - rewrite app_String. cbn [String.prefix].
    destruct (ascii_dec a a) as [_|Hne]; [exact IH|by destruct Hne].
Qed.

Lemma drop_string_app p rest : drop_string (String.length p) (p +:+ rest) = rest.
Proof.
  induction p as [|a p IH].
  - rewrite app_nil_l_string. by destruct rest.
  - rewrite app_String. exact IH.
Qed.

Lemma starts_with_app p rest : starts_with p (p +:+ rest) = Some rest.
Proof. unfold starts_with. by rewrite prefix_app, drop_string_app. Qed.

(** A literal name reads as its value. *)
Lemma parse_literal f depth (blank : bool) rest :
  parse_value (S f) depth ((if blank then " " else "") +:+ "null" +:+ rest)
    = Some (JNull, rest) /\
  parse_value (S f) depth ((if blank then " " else "") +:+ "true" +:+ rest)
    = Some (JBool true, rest) /\
  parse_value (S f) depth ((if blank then " " else "") +:+ "false" +:+ rest)
    = Some (JBool false, rest).
Proof.
  assert (forall p, skip_ws ((if blank then " " else "") +:+ p) = skip_ws p) as Hb.
  { intros p. destruct blank; by rewrite ?app_String, ?app_nil_l_string. }
  cbn [parse_value]. rewrite !Hb.
  pose proof (starts_with_app "null" rest) as H1.
  pose proof (starts_with_app "true" rest) as H2.
  pose proof (starts_with_app "false" rest) as H3.
  rewrite !app_String, !app_nil_l_string in *.
  cbn [skip_ws].
  repeat split.
  - change (is_space "n") with false. cbn iota.
    change (Ascii.eqb "n" "{") with false. change (Ascii.eqb "n" "[") with false.
    change (Ascii.eqb "n" dquote) with false.
    change (Ascii.eqb "n" "-" || is_digit "n") with false. cbn iota.
    change (starts_with "true" (String "n" (String "u" (String "l" (String "l" rest)))))
      with (@None string).
    change (starts_with "false" (String "n" (String "u" (String "l" (String "l" rest)))))
      with (@None string).
    cbn iota. by rewrite H1.
  - change (is_space "t") with false. cbn iota.
    change (Ascii.eqb "t" "{") with false. change (Ascii.eqb "t" "[") with false.
    change (Ascii.eqb "t" dquote) with false.
    change (Ascii.eqb "t" "-" || is_digit "t") with false. cbn iota.
    by rewrite H2.
  - change (is_space "f") with false. cbn iota.
    change (Ascii.eqb "f" "{") with false. change (Ascii.eqb "f" "[") with false.
    change (Ascii.eqb "f" dquote) with false.
    change (Ascii.eqb "f" "-" || is_digit "f") with false. cbn iota.
    change (starts_with "true"
              (String "f" (String "a" (String "l" (String "s" (String "e" rest))))))
      with (@None string).
    cbn iota. by rewrite H3.
Qed.

(** A scalar has a text, and the text reads as the scalar: after a blank
    or none, before anything that cannot continue a number. *)
Lemma parse_scalar `{GoLib} v ind :
  scalar_ok v ->
  exists t, marshal_any ind v = inr t /\
    forall f depth (blank : bool) rest, ends_number rest ->
      parse_value (S f) depth ((if blank then " " else "") +:+ t +:+ rest)
      = Some (value_json v, rest).
Proof.
  intros Hv.
  assert (Hnum : forall lit f depth (blank : bool) rest,
    is_number_literal lit = true -> ends_number rest ->
    parse_value (S f) depth ((if blank then " " else "") +:+ lit +:+ rest)
    = Some (JNumber lit, rest)).
  { intros lit f depth blank rest Hl Hr.
    destruct (number_head _ Hl) as (c & t & -> & Hc).
    destruct (number_head_char _ Hc) as (C1 & C2 & C3 & C4).
    assert (skip_ws ((if blank then " " else "") +:+ String c t +:+ rest)
            = String c (t +:+ rest)) as Hs.
    { destruct blank; rewrite ?app_String, ?app_nil_l_string; cbn [skip_ws];
        change (is_space " ") with true; cbn iota; cbn [skip_ws]; by rewrite C1. }
    cbn [parse_value]. rewrite Hs, C2, C3, C4, Hc.
    rewrite <- app_String, (scan_number_text_app _ _ Hl Hr). reflexivity. }
  destruct v as [|b|n|n|x|s|lit|l|m]; simpl in Hv; try done.
  - exists "null". split; [done|]. intros f depth blank rest _.
    apply parse_literal.
  - exists (if b then "true" else "false"). split; [done|].
    intros f depth blank rest _; destruct b; apply parse_literal.
  - exists (FormatInt n). split; [done|]. intros f depth blank rest Hr.
    apply Hnum; [|done]. by apply is_number_literal_FormatInt.
  - exists (FormatInt n). split; [done|]. intros f depth blank rest Hr.
    apply Hnum; [|done]. by apply is_number_literal_FormatInt.
  - destruct Hv as (F1 & F2 & F3). exists (FormatFloat x). split.
    { cbn [marshal_any]. by rewrite F1. }
    intros f depth blank rest Hr. by apply Hnum.
  - exists (quote s). split; [done|]. intros f depth blank rest _.
    assert (skip_ws ((if blank then " " else "") +:+ quote s +:+ rest)
            = String dquote (escape_string (String.length s) s +:+ String dquote rest)) as Hs.
    { rewrite quote_app. destruct blank; rewrite ?app_String, ?app_nil_l_string; reflexivity. }
    cbn [parse_value]. rewrite Hs.
    change (Ascii.eqb dquote "{") with false. change (Ascii.eqb dquote "[") with false.
    change (Ascii.eqb dquote dquote) with true. cbn iota.
    rewrite (scan_quote s rest Hv). reflexivity.
Qed.
Lemma member_text_app ind k tv Z :
  member_text ind (k, tv) +:+ Z =
  String dquote (escape_string (String.length k) k +:+
    String dquote (String ":" ((if bool_decide (is_Some ind) then " " else "")
                               +:+ tv +:+ Z))).
Proof.
  unfold member_text. cbn [fst snd].
  rewrite !app_assoc_string, quote_app.
  destruct ind; cbn [sep_colon]; by rewrite !app_String, !app_nil_l_string.
Qed.

Lemma skip_ws_members ind sep t ts Z :
  let J := join_with sep (map (member_text ind) (t :: ts)) +:+ Z in
  skip_ws J = J.
Proof.
  destruct t as [k tv].
  destruct ts as [|t2 ts]; cbn [map join_with]; cbv zeta;
    rewrite ?app_assoc_string, member_text_app; reflexivity.
Qed.

Lemma ends_number_sep_close ind rest : ends_number (sep_close ind +:+ String "}" rest).
Proof.
  destruct ind; cbn [sep_close].
  - unfold newline. rewrite app_String. cbn. repeat split; discriminate.
  - rewrite app_nil_l_string. cbn. repeat split; discriminate.
Qed.

Lemma parse_members_step fuel depth s :
  parse_members (S fuel) depth s =
  match skip_ws s with
  | String q s1 =>
      if Ascii.eqb q dquote then
        match scan_string (S (String.length s1)) s1 with
        | Some (k, s2) =>
            match skip_ws s2 with
            | String c s3 =>
                if Ascii.eqb c ":" then
                  match parse_value fuel depth s3 with
                  | Some (v, s4) =>
                      match skip_ws s4 with
                      | String d s5 =>
                          if Ascii.eqb d "}" then Some ([(k, v)], s5)
                          else if Ascii.eqb d "," then
                            match parse_members fuel depth s5 with
                            | Some (m, r) => Some ((k, v) :: m, r)
                            | None => None
                            end
                          else None
                      | EmptyString => None
                      end
                  | None => None
                  end
                else None
            | EmptyString => None
            end
        | None => None
        end
      else None
  | EmptyString => None
  end.
Proof. reflexivity. Qed.

(** The members that the encoder wrote read as members. *)
Lemma parse_members_text ind (ts : list (string * string)) :
  forall (ms : list (string * json)) f depth s rest,
  Forall2 (fun t m =>
     m.1 = t.1 /\ utf8_valid t.1 = true /\
     forall f depth (blank : bool) rest, ends_number rest ->
       parse_value (S f) depth ((if blank then " " else "") +:+ t.2 +:+ rest)
       = Some (m.2, rest)) ts ms ->
  ts <> [] -> (List.length ts <= f)%nat ->
  skip_ws s = join_with ("," +:+ sep_open ind) (map (member_text ind) ts)
                +:+ sep_close ind +:+ String "}" rest ->
  parse_members (S f) depth s = Some (ms, rest).
Proof.
  induction ts as [|[k tv] ts IH]; intros ms f depth s rest HF Hne Hf Hs; [done|].
  inversion HF as [|t0 [k' j] ts0 ms' (Hk & Hu & Hp) HF']; subst. cbn [fst snd] in *. subst k'.
  cbn [List.length] in Hf. destruct f as [|f]; [lia|].
  rewrite parse_members_step, Hs. clear Hs.
  destruct ts as [|t2 ts].
  - inversion HF'; subst. cbn [map join_with].
    rewrite member_text_app.
    change (Ascii.eqb dquote dquote) with true. cbn iota.
    rewrite (scan_quote k _ Hu).
    cbn [skip_ws]. change (is_space ":") with false. cbn iota.
    change (Ascii.eqb ":" ":") with true. cbn iota.
    rewrite (Hp f depth (bool_decide (is_Some ind))) by apply ends_number_sep_close.
    rewrite skip_ws_sep_close. cbn [skip_ws].
    change (is_space "}") with false. cbn iota.
    change (Ascii.eqb "}" "}") with true. reflexivity.
  - cbn [map join_with].
    rewrite !app_assoc_string, member_text_app.
    change (Ascii.eqb dquote dquote) with true. cbn iota.
    rewrite (scan_quote k _ Hu).
    cbn [skip_ws]. change (is_space ":") with false. cbn iota.
    change (Ascii.eqb ":" ":") with true. cbn iota.
    rewrite !app_String, app_nil_l_string.
    rewrite (Hp f depth (bool_decide (is_Some ind)))
      by (cbn; repeat split; discriminate).
    cbn [skip_ws]. change (is_space ",") with false. cbn iota.
    change (Ascii.eqb "," "}") with false. change (Ascii.eqb "," ",") with true. cbn iota.
    rewrite (IH ms' f depth _ rest HF'); [reflexivity|done|cbn [List.length] in *; lia|].
    rewrite skip_ws_sep_open.
    apply (skip_ws_members ind ("," +:+ sep_open ind) t2 ts).
Qed.
Lemma parse_value_step fuel depth s :
  parse_value (S fuel) depth s =
  match skip_ws s with
  | EmptyString => None
  | String c s1 =>
      if Ascii.eqb c "{" then
        match depth with
        | O => None
        | S depth =>
            match skip_ws s1 with
            | String c' s2 =>
                if Ascii.eqb c' "}" then Some (JObject [], s2)
                else
                  match parse_members fuel depth s1 with
                  | Some (m, r) => Some (JObject m, r)
                  | None => None
                  end
            | EmptyString => None
            end
        end
      else if Ascii.eqb c "[" then
        match depth with
        | O => None
        | S depth =>
            match skip_ws s1 with
            | String c' s2 =>
                if Ascii.eqb c' "]" then Some (JArray [], s2)
                else
                  match parse_elements fuel depth s1 with
                  | Some (l, r) => Some (JArray l, r)
                  | None => None
                  end
            | EmptyString => None
            end
        end
      else if Ascii.eqb c dquote then
        match scan_string (S (String.length s1)) s1 with
        | Some (t, r) => Some (JString t, r)
        | None => None
        end
      else if Ascii.eqb c "-" || is_digit c then
        match scan_number_text (String c s1) with
        | Some (lit, r) => Some (JNumber lit, r)
        | None => None
        end
      else
        match starts_with "true" (String c s1) with
        | Some r => Some (JBool true, r)
        | None =>
            match starts_with "false" (String c s1) with
            | Some r => Some (JBool false, r)
            | None =>
                match starts_with "null" (String c s1) with
                | Some r => Some (JNull, r)
                | None => None
                end
            end
        end
  end.
Proof. reflexivity. Qed.

Lemma quote_length s : (2 <= String.length (quote s))%nat.
Proof.
  unfold quote. rewrite length_app_string. cbn [String.length]. lia.
Qed.

Lemma join_members_length ind sep ts :
  (List.length ts <= String.length (join_with sep (map (member_text ind) ts)))%nat.
Proof.
  induction ts as [|t ts IH]; [cbn; lia|].
  assert (2 <= String.length (member_text ind t))%nat as Ht.
  { unfold member_text. rewrite length_app_string. pose proof (quote_length t.1). lia. }
  destruct ts as [|t2 ts]; cbn [map join_with List.length] in *.
  - lia.
  - rewrite !length_app_string. lia.
Qed.

Lemma members_head ind sep t ts Z :
  exists Y, skip_ws (sep_open ind +:+ join_with sep (map (member_text ind) (t :: ts)) +:+ Z)
            = String dquote Y.
Proof.
  rewrite skip_ws_sep_open, (skip_ws_members ind sep t ts Z).
  destruct t as [k tv].
  destruct ts as [|t2 ts]; cbn [map join_with];
    rewrite ?app_assoc_string, member_text_app; eauto.
Qed.

(** The object that the encoder wrote reads as an object, with nothing
    left over. *)
Lemma parse_object_text ind (ts : list (string * string)) (ms : list (string * json)) :
  Forall2 (fun t m =>
     m.1 = t.1 /\ utf8_valid t.1 = true /\
     forall f depth (blank : bool) rest, ends_number rest ->
       parse_value (S f) depth ((if blank then " " else "") +:+ t.2 +:+ rest)
       = Some (m.2, rest)) ts ms ->
  parse (bracket ind "{" "}" (map (member_text ind) ts)) = Some (JObject ms, "").
Proof.
  intros HF. destruct ts as [|t ts].
  - inversion HF; subst. reflexivity.
  - unfold bracket. cbn [map].
    set (J := join_with ("," +:+ sep_open ind) (member_text ind t :: map (member_text ind) ts)).
    unfold parse, parse_fuel. change maxNestingDepth with (S 9999).
    rewrite !app_String, app_nil_l_string.
    rewrite parse_value_step. cbn [skip_ws].
    change (is_space "{") with false. cbn iota.
    change (Ascii.eqb "{" "{") with true. cbn iota.
    destruct (members_head ind ("," +:+ sep_open ind) t ts (sep_close ind +:+ "}")) as [Y HY].
    cbn [map] in HY. fold J in HY. rewrite HY.
    change (Ascii.eqb dquote "}") with false. cbn iota.
    cbn [String.length].
    rewrite (parse_members_text ind (t :: ts) ms _ 9999 _ "" HF); [reflexivity|done| |].
    + pose proof (join_members_length ind ("," +:+ sep_open ind) (t :: ts)) as Hl.
      cbn [map] in Hl. fold J in Hl. rewrite !length_app_string. cbn [String.length]. lia.
    + rewrite skip_ws_sep_open.
      apply (skip_ws_members ind ("," +:+ sep_open ind) t ts).
Qed.

Lemma Decode_object_text `{GoLib} useNumber ind ts ms :
  parse (bracket ind "{" "}" (map (member_text ind) ts)) = Some (JObject ms, "") ->
  Decoder_Decode useNumber (bracket ind "{" "}" (map (member_text ind) ts)) ∅
  = store_members useNumber ms ∅.
Proof.
  intros Hp. unfold Decoder_Decode. rewrite Hp.
  destruct ts as [|t ts]; [reflexivity|].
  unfold bracket. cbn [map]. rewrite !app_String. reflexivity.
Qed.
(* ===================================================================== *)
(** * Proofs: the round trip through JSON *)
(* ===================================================================== *)

(** What is stored for the text of a scalar. *)
Lemma to_any_scalar `{GoLib} opts k x :
  scalar_ok x ->
  exists y, to_any (PreserveType opts) (value_json x) = inr y /\
            (FromJSON_convert opts (k, y)).2 = json_image x.
Proof.
  intros Hx. setoid_rewrite FromJSON_convert_value. cbn [snd].
  assert (forall n, in_int64 n = true ->
    exists y, to_any (PreserveType opts) (JNumber (FormatInt n)) = inr y /\
      (if PreserveType opts then stored_number y else y) = Float64 (float64_of_int n)) as Hint.
  { intros n Hn. cbn [to_any]. destruct (PreserveType opts).
    - eexists. split; [done|]. cbn [stored_number]. by rewrite ParseFloat_FormatInt.
    - rewrite ParseFloat_FormatInt by done. eauto. }
  destruct x as [|b|n|n|f|s|lit|l|m]; cbn [scalar_ok] in Hx; try done;
    cbn [value_json json_image].
  - exists Nil. split; [done|]. by destruct (PreserveType opts).
  - exists (Bool b). split; [done|]. by destruct (PreserveType opts).
  - by apply Hint.
  - by apply Hint.
  - destruct Hx as (_ & _ & Hp). cbn [to_any]. destruct (PreserveType opts).
    + eexists. split; [done|]. cbn [stored_number]. by rewrite Hp.
    + rewrite Hp. eauto.
  - exists (Str s). split; [done|]. by destruct (PreserveType opts).
Qed.

Lemma store_members_lookup `{GoLib} u ms : forall acc,
  NoDup (map fst ms) ->
  Forall (fun m => exists y, to_any u m.2 = inr y) ms ->
  exists M, store_members u ms acc = inr M /\
    (forall k, k ∉ map fst ms -> M !! k = acc !! k) /\
    (forall k j, (k, j) ∈ ms -> exists y, to_any u j = inr y /\ M !! k = Some y).
Proof.
  induction ms as [|[k j] ms IH]; intros acc Hnd HF.
  - exists acc. split; [done|]. split; [done|]. intros k j Hin. by apply elem_of_nil in Hin.
  - cbn [map fst] in Hnd. apply NoDup_cons in Hnd as [Hk Hnd].
    apply Forall_cons in HF as [[y Hy] HF]. cbn [snd] in Hy.
    destruct (IH (<[k := y]> acc) Hnd HF) as (M & HM & Hout & Hin).
    exists M. cbn [store_members]. rewrite Hy. split; [done|]. split.
    + intros k' Hk'. cbn [map fst] in Hk'. apply not_elem_of_cons in Hk' as [Hne Hk'].
      rewrite (Hout k' Hk'). by rewrite lookup_insert_ne.
    + intros k' j' Hkj. apply elem_of_cons in Hkj as [[= -> ->]|Hkj].
      * exists y. split; [done|]. rewrite (Hout k Hk). by rewrite lookup_insert_eq.
      * by apply Hin.
Qed.

(** The map that [ToJSON] hands to the encoder, for text keys. *)
Lemma ToJSON_loop_spec `{GoLib} opts l : forall acc,
  Forall (fun nd => exists s, Key nd = KString s) l ->
  exists m, ToJSON_loop opts l acc = inr m /\
    (forall k, KString k ∉ map Key l -> m !! k = acc !! k) /\
    (forall k x, m !! k = Some x ->
       acc !! k = Some x \/
       exists nd, nd ∈ l /\ Key nd = KString k /\ x = sent_value opts (Value nd)) /\
    (distinct (map Key l) ->
     forall nd s, nd ∈ l -> Key nd = KString s ->
       m !! s = Some (sent_value opts (Value nd))).
Proof.
  induction l as [|nd l IH]; intros acc HF.
  - exists acc. split; [done|]. split; [done|]. split; [by left|].
    intros _ nd s Hin. by apply elem_of_nil in Hin.
  - apply Forall_cons in HF as [[s Hs] HF].
    destruct (IH (<[s := sent_value opts (Value nd)]> acc) HF) as (m & Hm & Hout & Hin & Hd).
    exists m. split; [|split; [|split]].
    + cbn [ToJSON_loop]. rewrite Hs. cbn [Sprint].
      match goal with
      | |- context [<[_ := ?x]> acc] =>
          assert (x = sent_value opts (Value nd)) as Hx
            by (unfold sent_value; destruct (PreserveType opts), (Value nd); reflexivity)
      end.
      destruct (KeyAsString opts); cbv zeta; rewrite Hx; exact Hm.
    + intros k Hk. cbn [map] in Hk. apply not_elem_of_cons in Hk as [Hne Hk].
      rewrite (Hout k Hk). rewrite lookup_insert_ne; [done|]. congruence.
    + intros k x Hk. destruct (Hin k x Hk) as [Ha|(nd' & H1 & H2 & H3)].
      * destruct (decide (s = k)) as [<-|Hne].
        -- rewrite lookup_insert_eq in Ha. injection Ha as <-.
           right. exists nd. split; [by left|done].
        -- rewrite lookup_insert_ne in Ha by done. by left.
      * right. exists nd'. split; [by right|done].
    + intros [Hfresh Hdis] nd' s' Hnd' Hs'. cbn [map] in *.
      apply elem_of_cons in Hnd' as [->|Hnd'].
      * assert (s' = s) as -> by congruence.
        rewrite Hout, lookup_insert_eq; [done|].
        intros Hk. rewrite Forall_forall in Hfresh. specialize (Hfresh _ Hk).
        rewrite Hs in Hfresh. cbn in Hfresh. by rewrite String.eqb_refl in Hfresh.
      * by apply (Hd Hdis).
Qed.
(** The texts of the members of a map of scalars, and what they read as. *)
Lemma collect_members `{GoLib} i (m : gmap string any) (L : list (string * (err + string))) :
  Forall (fun e => exists x, m !! e.1 = Some x /\ e.2 = marshal_any i x /\
                             scalar_ok x /\ utf8_valid e.1 = true) L ->
  exists ts ms, collect L = inr ts /\ map fst ms = map fst L /\
    Forall2 (fun t m =>
       m.1 = t.1 /\ utf8_valid t.1 = true /\
       forall f depth (blank : bool) rest, ends_number rest ->
         parse_value (S f) depth ((if blank then " " else "") +:+ t.2 +:+ rest)
         = Some (m.2, rest)) ts ms /\
    Forall (fun kj => exists x, m !! kj.1 = Some x /\ kj.2 = value_json x /\ scalar_ok x) ms.
Proof.
  induction L as [|[k r] L IH]; intros HF.
  - exists [], []. repeat split; constructor.
  - apply Forall_cons in HF as [(x & Hx & Hr & Hs & Hu) HF]. cbn [fst snd] in *.
    destruct (IH HF) as (ts & ms & Hc & Hk & H2 & Hm).
    destruct (parse_scalar x i Hs) as (t & Ht & Hp).
    exists ((k, t) :: ts), ((k, value_json x) :: ms).
    split; [|split; [|split]].
    + cbn [collect]. rewrite Hr, Ht, Hc. reflexivity.
    + cbn [map fst]. by rewrite Hk.
    + constructor; [|done]. cbn [fst snd]. auto.
    + constructor; [|done]. exists x. auto.
Qed.

(* ===================================================================== *)
(** * Proofs: the loops that build a new container *)
(* ===================================================================== *)

Lemma path_lookup dir h start ls p :
  path dir h start ls -> p ∈ ls -> is_Some (h !! p).
Proof.
  revert start. induction ls as [|q ls IH]; intros start Hp Hin.
  - by apply elem_of_nil in Hin.
  - destruct Hp as (_ & nd & Hq & Hp).
    apply elem_of_cons in Hin as [->|Hin]; [by exists nd|by apply (IH _ Hp)].
Qed.

Lemma path_frame dir h h' start ls :
  (forall p, p ∈ ls -> h' !! p = h !! p) ->
  path dir h start ls -> path dir h' start ls.
Proof.
  revert start. induction ls as [|q ls IH]; intros start Hag Hp; [done|].
  destruct Hp as (Hs & nd & Hq & Hp). split; [done|]. exists nd. split.
  - rewrite Hag; [done|by left].
  - apply IH; [|done]. intros p Hin. apply Hag. by right.
Qed.

(** Forwards: from the first cell along [next]. *)
Lemma path_next h pp ls :
  dseg h pp ls None -> path next h (first_or ls None) ls.
Proof.
  revert pp. induction ls as [|p ls IH]; intros pp Hd; [done|].
  destruct Hd as (nd & Hp & _ & Hnx & Hd). split; [done|].
  exists nd. split; [done|]. rewrite Hnx. by apply (IH (Some p)).
Qed.

(** Backwards: from the last cell along [prev]. *)
Lemma path_prev h ls : forall qn,
  dseg h None ls qn -> path prev h (last ls) (rev ls).
Proof.
  induction ls as [|p ls IH] using rev_ind; intros qn Hd; [done|].
  apply dseg_app in Hd as [Hd1 Hd2].
  destruct Hd2 as (nd & Hp & Hpv & _ & _).
  rewrite last_snoc, rev_unit. split; [done|].
  exists nd. split; [done|]. rewrite Hpv.
  replace (from_option Some None (last ls)) with (last ls) by (by destruct (last ls)).
  by apply (IH (first_or [p] qn)).
Qed.

Section Loop.
Variable loop : nat -> heap -> OrderedMap -> option loc -> option (heap * OrderedMap).
Variable calls : Node -> list call.
Variable dir : Node -> option loc.
Hypothesis loop_nil : forall fuel h c, loop fuel h c None = Some (h, c).
Hypothesis loop_step : forall fuel h c p nd,
  h !! p = Some nd ->
  loop (S fuel) h c (Some p) =
  loop fuel (run_calls (calls nd) (h, c)).1 (run_calls (calls nd) (h, c)).2 (dir nd).

(** A loop that, at each node of a path, makes calls on another
    container: the calls are those of the nodes in turn, as the nodes
    were at the start. *)
Lemma loop_spec ls2 : forall fuel h start c lc,
  path dir h start ls2 -> inv h c lc -> ls2 ## lc ->
  (List.length ls2 <= fuel)%nat ->
  exists h' c' lc',
    loop fuel h c start = Some (h', c') /\
    inv h' c' lc' /\
    entries h' lc' =
      fold_left model_call (concat (map calls (nodes_at h ls2))) (entries h lc) /\
    framed h lc h' lc'.
Proof.
  induction ls2 as [|p ls2 IH]; intros fuel h start c lc Hp Hc Hdisj Hfuel.
  - cbn in Hp. subst start. exists h, c, lc. rewrite loop_nil.
    auto using framed_refl.
  - destruct Hp as (-> & nd & Hnd & Hp).
    destruct fuel as [|fuel]; [cbn in Hfuel; lia|].
    rewrite (loop_step _ _ _ _ _ Hnd).
    destruct (run_calls_spec (calls nd) h c lc Hc) as (lc1 & Hc1 & He1 & Hf1).
    destruct (run_calls (calls nd) (h, c)) as [h1 c1]. cbn [fst snd] in *.
    assert (Hag : forall q, q ∈ ls2 -> h1 !! q = h !! q).
    { intros q Hq. apply Hf1; [|by apply (path_lookup _ _ _ _ _ Hp)].
      intros Hq'. apply (Hdisj q); [by right|done]. }
    assert (Hdisj1 : ls2 ## lc1).
    { intros q Hq Hq'. destruct (proj2 Hf1 q Hq') as [?|Hn].
      - apply (Hdisj q); [by right|done].
      - destruct (path_lookup _ _ _ _ _ Hp Hq) as [x Hx]. congruence. }
    destruct (IH fuel h1 (dir nd) c1 lc1) as (h' & c' & lc' & Hl & Hc' & He' & Hf').
    + by apply (path_frame dir h).
    + done.
    + done.
    + cbn in Hfuel. lia.
    + exists h', c', lc'. split; [exact Hl|]. split; [exact Hc'|]. split.
      * rewrite He', He1, (nodes_at_frame h h1) by done.
        rewrite (nodes_at_cons _ _ nd) by done. cbn [map concat].
        by rewrite fold_left_app.
      * by apply (framed_trans h lc h1 lc1).
Qed.

(** The same from a new container, beside a container [om] that the
    loop reads under its read lock. *)
Lemma loop_new h om ls start ls2 :
  inv h om ls -> path dir h start ls2 -> NoDup ls2 ->
  exists h' r lr,
    loop (enough h) h NewOrderedMap start = Some (h', r) /\
    inv h' (RUnlock (RLock om)) ls /\ inv h' r lr /\ ls ## lr /\
    entries h' lr = fold_left model_call (concat (map calls (nodes_at h ls2))) [] /\
    entries h' ls = entries h ls /\
    framed h [] h' lr.
Proof.
  intros Hi Hp Hnd.
  destruct (loop_spec ls2 (enough h) h start NewOrderedMap [])
    as (h' & r & lr & Hl & Hr & He & Hf).
  - done.
  - apply inv_new.
  - intros q _ Hq. inversion Hq.
  - unfold enough.
    pose proof (chain_bound h ls2 Hnd (fun p => path_lookup _ _ _ _ p Hp)). lia.
  - exists h', r, lr. split; [done|].
    destruct (framed_inv h [] h' lr (RUnlock (RLock om)) ls Hf) as (Hi' & He' & Hd').
    + by do 2 apply inv_mu.
    + intros q Hq. inversion Hq.
    + split; [done|]. split; [done|]. split; [intros q Hq Hq'; by apply (Hd' q)|].
      by split.
Qed.
End Loop.
Lemma distinct_rev ks : distinct ks -> distinct (rev ks).
Proof.
  induction ks as [|k ks IH]; [done|]. intros [Hk Hd]. cbn [rev].
  apply distinct_snoc; [by apply IH|].
  apply Forall_forall. intros k' Hk'. apply list_elem_of_In, in_rev, list_elem_of_In in Hk'.
  rewrite Forall_forall in Hk. apply key_eqb_false_sym. by apply Hk.
Qed.

Lemma distinct_filter (f : key * any -> bool) l :
  distinct (map fst l) -> distinct (map fst (filter f l)).
Proof.
  induction l as [|e l IH]; [done|]. intros [He Hd]. rewrite filter_cons.
  assert (Forall (fun k' => key_eqb e.1 k' = false) (map fst (filter f l))) as Hf.
  { apply Forall_forall. intros k Hk. rewrite Forall_forall in He. apply He.
    apply list_elem_of_fmap in Hk as (x & -> & Hx). apply list_elem_of_fmap.
    exists x. split; [done|]. by apply list_elem_of_filter in Hx as [_ Hx]. }
  destruct (decide (f e)); [|by apply IH].
  cbn [map distinct]. split; [done|by apply IH].
Qed.

Lemma nodes_at_rev h ls : nodes_at h (rev ls) = rev (nodes_at h ls).
Proof.
  induction ls as [|p ls IH]; [done|].
  cbn [rev]. rewrite nodes_at_app, IH, nodes_at_unfold.
  destruct (h !! p) as [nd|] eqn:E.
  - by rewrite (nodes_at_cons _ _ nd) by done.
  - rewrite nodes_at_unfold, E. change (nodes_at h []) with (@nil Node).
    by rewrite app_nil_r.
Qed.

(** [Set] calls on pairs with keys that are not nil and differ, on a new
    container, leave these pairs. *)
Lemma fold_calls_distinct (l : list (key * any)) :
  Forall (fun e => is_nil e.1 = false) l -> distinct (map fst l) ->
  fold_left model_call (map (fun e => CallSet e.1 e.2) l) [] = l.
Proof.
  intros Hnn Hd.
  rewrite <- (fold_assoc_set_distinct l []) at 2 by done.
  generalize (@nil (key * any)) as acc.
  induction l as [|e l IH]; intros acc; [done|].
  apply Forall_cons in Hnn as [He Hnn]. destruct Hd as [_ Hd].
  cbn [map fold_left model_call]. rewrite He. by apply IH.
Qed.

Lemma Reverse_spec h om ls :
  inv h om ls ->
  exists h' r lr,
    Reverse h om = Some (h', RUnlock (RLock om), r) /\
    inv h' (RUnlock (RLock om)) ls /\ inv h' r lr /\ ls ## lr /\
    entries h' lr = rev (entries h ls) /\ entries h' ls = entries h ls /\
    framed h [] h' lr.
Proof.
  intros Hi.
  destruct (loop_new Reverse_loop (fun nd => [CallSet (Key nd) (Value nd)]) prev)
    with (h := h) (om := om) (ls := ls) (start := last ls) (ls2 := rev ls)
    as (h' & r & lr & Hl & Hi' & Hr & Hd & He & Heo & Hf).
  - intros fuel h0 c. by destruct fuel.
  - intros fuel h0 c p nd Hp. cbn [Reverse_loop run_calls fold_left do_call fst snd].
    rewrite Hp. by destruct (Set_ h0 c (Key nd) (Value nd)) as [[h1 c1] e1].
  - done.
  - apply (path_prev h ls None). apply Hi.
  - apply NoDup_ListNoDup, List.NoDup_rev, NoDup_ListNoDup. apply Hi.
  - exists h', r, lr. unfold Reverse. change (tail (RLock om)) with (tail om).
    rewrite (inv_tail _ _ _ Hi), Hl. split; [done|]. do 3 (split; [done|]).
    split; [|by split]. rewrite He, nodes_at_rev.
    assert (forall l : list Node,
      concat (map (fun nd => [CallSet (Key nd) (Value nd)]) l) =
      map (fun e : key * any => CallSet e.1 e.2) (map (fun nd => (Key nd, Value nd)) l)) as Hc.
    { induction l as [|nd l IHl]; [done|]. cbn. by rewrite IHl. }
    rewrite Hc, map_rev. fold (entries h ls). apply fold_calls_distinct.
    + apply Forall_forall. intros e He'. apply list_elem_of_In, in_rev, list_elem_of_In in He'.
      pose proof (inv_nonnil_entries _ _ _ Hi) as Hnn. rewrite Forall_forall in Hnn.
      by apply Hnn.
    + rewrite map_rev. apply distinct_rev. rewrite keys_entries. apply Hi.
Qed.

Lemma Filter_spec h om ls predicate :
  inv h om ls ->
  exists h' r lr,
    Filter h om predicate = Some (h', RUnlock (RLock om), r) /\
    inv h' (RUnlock (RLock om)) ls /\ inv h' r lr /\ ls ## lr /\
    entries h' lr = filter (fun e => predicate e.1 e.2) (entries h ls) /\
    entries h' ls = entries h ls /\
    framed h [] h' lr.
Proof.
  intros Hi.
  destruct (loop_new (Filter_loop predicate)
              (fun nd => if predicate (Key nd) (Value nd)
                         then [CallSet (Key nd) (Value nd)] else []) next)
    with (h := h) (om := om) (ls := ls) (start := first_or ls None) (ls2 := ls)
    as (h' & r & lr & Hl & Hi' & Hr & Hd & He & Heo & Hf).
  - intros fuel h0 c. by destruct fuel.
  - intros fuel h0 c p nd Hp. cbn [Filter_loop]. rewrite Hp.
    destruct (predicate (Key nd) (Value nd)); [|done].
    cbn [run_calls fold_left do_call fst snd].
    by destruct (Set_ h0 c (Key nd) (Value nd)) as [[h1 c1] e1].
  - done.
  - apply (path_next h None). apply Hi.
  - apply Hi.
  - exists h', r, lr. unfold Filter. change (head (RLock om)) with (head om).
    rewrite (inv_head _ _ _ Hi), <- first_or_None, Hl. split; [done|].
    do 3 (split; [done|]). split; [|by split]. rewrite He.
    assert (forall l : list Node,
      concat (map (fun nd => if predicate (Key nd) (Value nd)
                             then [CallSet (Key nd) (Value nd)] else []) l) =
      map (fun e : key * any => CallSet e.1 e.2)
        (filter (fun e => predicate e.1 e.2) (map (fun nd => (Key nd, Value nd)) l))) as Hc.
    { induction l as [|nd l IHl]; [done|]. cbn [map concat]. rewrite filter_cons, IHl.
      cbn [fst snd]. by destruct (predicate (Key nd) (Value nd)). }
    rewrite Hc. fold (entries h ls). apply fold_calls_distinct.
    + pose proof (inv_nonnil_entries _ _ _ Hi) as Hnn. rewrite Forall_forall in Hnn.
      apply Forall_forall. intros e He'. apply list_elem_of_filter in He' as [_ He'].
      by apply Hnn.
    + apply distinct_filter. rewrite keys_entries. apply Hi.
Qed.

Lemma Map_spec h om ls mapper :
  inv h om ls ->
  exists h' r lr,
    Map h om mapper = Some (h', RUnlock (RLock om), r) /\
    inv h' (RUnlock (RLock om)) ls /\ inv h' r lr /\ ls ## lr /\
    entries h' lr =
      fold_left model_call
        (map (fun e => CallSet (mapper e.1 e.2).1 (mapper e.1 e.2).2) (entries h ls)) [] /\
    entries h' ls = entries h ls /\
    framed h [] h' lr.
Proof.
  intros Hi.
  destruct (loop_new (Map_loop mapper)
              (fun nd => [CallSet (mapper (Key nd) (Value nd)).1 (mapper (Key nd) (Value nd)).2])
              next)
    with (h := h) (om := om) (ls := ls) (start := first_or ls None) (ls2 := ls)
    as (h' & r & lr & Hl & Hi' & Hr & Hd & He & Heo & Hf).
  - intros fuel h0 c. by destruct fuel.
  - intros fuel h0 c p nd Hp. cbn [Map_loop]. rewrite Hp.
    destruct (mapper (Key nd) (Value nd)) as [k v].
    cbn [run_calls fold_left do_call fst snd].
    by destruct (Set_ h0 c k v) as [[h1 c1] e1].
  - done.
  - apply (path_next h None). apply Hi.
  - apply Hi.
  - exists h', r, lr. unfold Map. change (head (RLock om)) with (head om).
    rewrite (inv_head _ _ _ Hi), <- first_or_None, Hl. split; [done|].
    do 3 (split; [done|]). split; [|by split]. rewrite He. f_equal.
    unfold entries. clear He.
    induction (nodes_at h ls) as [|nd l IHl]; [done|].
    cbn. by rewrite IHl.
Qed.
(* ===================================================================== *)
(** * Proofs: [String] *)
(* ===================================================================== *)

Lemma fold_join sep (l : list string) : forall x acc,
  fold_left (fun r t => (r +:+ sep) +:+ t) l (acc +:+ x) = acc +:+ join_with sep (x :: l).
Proof.
  induction l as [|y l IH]; intros x acc; [done|].
  cbn [fold_left]. rewrite (IH y ((acc +:+ x) +:+ sep)).
  change (join_with sep (x :: y :: l)) with (x +:+ sep +:+ join_with sep (y :: l)).
  by rewrite !app_assoc_string.
Qed.

(** After the first node, every node is written after a separator. *)
Lemma String_loop_tail `{GoLib} h om ls : forall pp fuel acc,
  dseg h pp ls None -> (forall p, p ∈ ls -> Some p <> head om) ->
  (List.length ls <= fuel)%nat ->
  String_loop fuel h om acc (first_or ls None) =
  Some (fold_left (fun r t => (r +:+ ", ") +:+ t)
          (map (fun e => Sprint e.1 +:+ ": " +:+ Sprint_any e.2) (entries h ls)) acc).
Proof.
  induction ls as [|p ls IH]; intros pp fuel acc Hd Hne Hf.
  - by destruct fuel.
  - destruct Hd as (nd & Hp & _ & Hnx & Hd).
    destruct fuel as [|fuel]; [cbn in Hf; lia|].
    cbn [first_or String_loop]. rewrite Hp.
    rewrite bool_decide_true by (apply Hne; by left).
    rewrite Hnx, (IH (Some p)); [|done|intros q Hq; apply Hne; by right|cbn in Hf; lia].
    by rewrite (entries_cons _ _ nd).
Qed.

Lemma String_spec `{GoLib} h om ls :
  inv h om ls ->
  (String_ h om).2 =
  Some ("{" +:+ join_with ", "
                  (map (fun e => Sprint e.1 +:+ ": " +:+ Sprint_any e.2) (entries h ls))
        +:+ "}").
Proof.
  intros Hi.
  change ((String_ h om).2) with
    ((fun result => result +:+ "}") <$> String_loop (enough h) h (RLock om) "{" (head om)).
  pose proof (chain_bound h ls (inv_nodup _ _ _ Hi) (fun p => inv_lookup _ _ _ p Hi)) as Hb.
  pose proof (inv_dseg _ _ _ Hi) as Hd. pose proof (inv_nodup _ _ _ Hi) as Hnd.
  rewrite (inv_head _ _ _ Hi).
  destruct ls as [|p ls].
  - cbn. reflexivity.
  - destruct Hd as (nd & Hp & _ & Hnx & Hd). apply NoDup_cons in Hnd as [Hnin Hnd].
    unfold enough. cbn [lookup list_lookup String_loop].
    change ((p :: ls) !! 0%nat) with (Some p).
    assert (head (RLock om) = Some p) as Hh by apply (inv_head _ _ _ Hi).
    cbn [String_loop]. rewrite Hp, Hh.
    rewrite bool_decide_false by (intros Hne; by apply Hne).
    rewrite Hnx, (String_loop_tail h _ ls (Some p)); [|done| |cbn in Hb; lia].
    + cbn [fmap option_fmap option_map]. f_equal.
      rewrite (entries_cons _ _ nd) by done. cbn [map fst snd].
      by rewrite fold_join, app_assoc_string.
    + intros q Hq. rewrite Hh. intros [= ->]. done.
Qed.
(* ===================================================================== *)
(** * Proofs: looking up after a change *)
(* ===================================================================== *)

Lemma assoc_get_app_full l1 l2 k :
  assoc_get (l1 ++ l2) k =
  match assoc_get l1 k with Some v => Some v | None => assoc_get l2 k end.
Proof.
  induction l1 as [|[k' v'] l1 IH]; [done|]. cbn [app assoc_get].
  by destruct (key_eqb k' k).
Qed.

Lemma assoc_get_has l k : has_key k l = false -> assoc_get l k = None.
Proof. apply assoc_get_none. Qed.

Lemma has_key_eqb l k k' :
  key_eqb k k' = true -> has_key k' l = has_key k l.
Proof.
  intros Hk. induction l as [|[k0 v0] l IH]; [done|].
  unfold has_key in *. cbn [existsb fst]. rewrite IH. f_equal.
  destruct (key_eqb k0 k) eqn:E1, (key_eqb k0 k') eqn:E2; try done.
  - rewrite (key_eqb_trans _ _ _ E1 Hk) in E2. done.
  - rewrite (key_eqb_trans _ _ _ E2 (key_eqb_sym _ _ Hk)) in E1. done.
Qed.

Lemma assoc_get_update l k v k' :
  assoc_get (assoc_update l k v) k' =
  if key_eqb k k' then (if has_key k l then Some v else None) else assoc_get l k'.
Proof.
  induction l as [|[k0 v0] l IH].
  - cbn. by destruct (key_eqb k k').
  - cbn [assoc_update assoc_get has_key existsb fst].
    destruct (key_eqb k0 k) eqn:E1.
    + cbn [assoc_get orb]. destruct (key_eqb k k') eqn:E.
      * by rewrite (key_eqb_trans _ _ _ E1 E).
      * destruct (key_eqb k0 k') eqn:E2; [|done].
        rewrite (key_eqb_trans _ _ _ (key_eqb_sym _ _ E1) E2) in E. done.
    + cbn [assoc_get orb]. destruct (key_eqb k0 k') eqn:E2.
      * destruct (key_eqb k k') eqn:E; [|done].
        rewrite (key_eqb_trans _ _ _ E2 (key_eqb_sym _ _ E)) in E1. done.
      * exact IH.
Qed.

(** Looking up after a pair is set. *)
Lemma assoc_get_set l k v k' :
  assoc_get (assoc_set l k v) k' = if key_eqb k k' then Some v else assoc_get l k'.
Proof.
  unfold assoc_set. destruct (has_key k l) eqn:Hh.
  - by rewrite assoc_get_update, Hh.
  - rewrite assoc_get_app_full. cbn [assoc_get].
    destruct (key_eqb k k') eqn:E.
    + rewrite assoc_get_none; [done|]. by rewrite (has_key_eqb l k k' E).
    + by destruct (assoc_get l k').
Qed.

(** Looking up after a key is removed, when no two keys are equal. *)
Lemma assoc_get_remove l k k' :
  distinct (map fst l) ->
  assoc_get (assoc_remove l k) k' = if key_eqb k k' then None else assoc_get l k'.
Proof.
  induction l as [|[k0 v0] l IH]; intros Hd.
  - cbn. by destruct (key_eqb k k').
  - destruct Hd as [Hfresh Hd]. cbn [assoc_remove assoc_get].
    destruct (key_eqb k0 k) eqn:E1.
    + destruct (key_eqb k k') eqn:E.
      * apply assoc_get_none, has_key_forall. apply Forall_forall. intros x Hx.
        rewrite Forall_forall in Hfresh. specialize (Hfresh x Hx). cbn [fst] in Hfresh.
        destruct (key_eqb x k') eqn:E3; [|done].
        assert (key_eqb k0 x = true); [|congruence].
        apply (key_eqb_trans _ k'); [by apply (key_eqb_trans _ k)|by apply key_eqb_sym].
      * destruct (key_eqb k0 k') eqn:E2; [|done].
        rewrite (key_eqb_trans _ _ _ (key_eqb_sym _ _ E1) E2) in E. done.
    + cbn [assoc_get]. destruct (key_eqb k0 k') eqn:E2.
      * destruct (key_eqb k k') eqn:E; [|done].
        rewrite (key_eqb_trans _ _ _ E2 (key_eqb_sym _ _ E)) in E1. done.
      * by apply IH.
Qed.

Lemma has_key_get l k : has_key k l = bool_decide (is_Some (assoc_get l k)).
Proof.
  induction l as [|[k0 v0] l IH]; [done|].
  cbn [has_key existsb assoc_get fst]. destruct (key_eqb k0 k); cbn [orb].
  - symmetry. apply bool_decide_eq_true. eauto.
  - exact IH.
Qed.
Lemma key_eqb_refl_of a k : key_eqb a k = true -> key_eqb k k = true.
Proof. intros H. apply (key_eqb_trans _ a); [by apply key_eqb_sym|done]. Qed.

Lemma has_key_irreflexive l k : key_eqb k k = false -> has_key k l = false.
Proof.
  intros Hk. apply has_key_false, Forall_forall. intros e _.
  destruct (key_eqb e.1 k) eqn:E; [|done]. by rewrite (key_eqb_refl_of _ _ E) in Hk.
Qed.

Lemma key_irreflexive_not_nil k : key_eqb k k = false -> is_nil k = false.
Proof. by destruct k. Qed.

Lemma has_key_remove l k :
  distinct (map fst l) -> has_key k (assoc_remove l k) = false.
Proof.
  intros Hd. rewrite has_key_get, assoc_get_remove by done.
  destruct (key_eqb k k) eqn:E.
  - apply bool_decide_eq_false. by intros [x Hx].
  - rewrite <- has_key_get. by apply has_key_irreflexive.
Qed.

Lemma assoc_remove_snoc l k v :
  has_key k l = false -> key_eqb k k = true -> assoc_remove (l ++ [(k, v)]) k = l.
Proof.
  induction l as [|[k0 v0] l IH]; intros Hh Hk.
  - cbn. by rewrite Hk.
  - revert Hh. unfold has_key. cbn [existsb fst]. intros H.
    apply orb_false_elim in H as [H1 H2].
    cbn [app assoc_remove]. rewrite H1. f_equal. by apply IH.
Qed.

(** The pairs on which [Range] calls a visitor: up to and with the first
    one it rejects. *)
Lemma visit_spec f (l : list Node) :
  let kvs := map (fun nd => (Key nd, Value nd)) l in
  exists n,
    (n <= List.length kvs)%nat /\
    visit f l = take n kvs /\
    Forall (fun e => f e.1 e.2 = true) (take (pred n) kvs) /\
    (n = List.length kvs \/
     ((0 < n)%nat /\ exists e, kvs !! pred n = Some e /\ f e.1 e.2 = false)).
Proof.
  cbv zeta. induction l as [|nd l IH].
  - exists 0%nat. cbn. split; [lia|]. split; [done|]. split; [constructor|]. by left.
  - destruct IH as (n & Hn & Hv & Hall & Hend). cbn [visit map].
    destruct (f (Key nd) (Value nd)) eqn:E.
    + exists (S n). split; [cbn [List.length]; lia|].
      split; [cbn [take]; by rewrite Hv|]. split.
      * cbn [pred]. destruct n as [|n]; [constructor|].
        cbn [take pred] in *. by constructor.
      * destruct Hend as [->|(Hpos & e & He & Hfe)]; [by left|].
        right. split; [lia|]. exists e. split; [|done].
        destruct n as [|n]; [lia|]. exact He.
    + exists 1%nat. split; [cbn [List.length]; lia|]. split; [done|]. split; [constructor|].
      right. split; [lia|]. exists (Key nd, Value nd). by split.
Qed.

Lemma entries_length h om ls :
  inv h om ls -> List.length (entries h ls) = List.length ls.
Proof.
  intros Hi. unfold entries. rewrite length_map.
  eapply nodes_at_length. apply Hi.
Qed.
(** Calls on one of two containers that share no node leave the other as
    it was. *)
Lemma separate_calls h a la b lb ca :
  inv h a la -> inv h b lb -> la ## lb ->
  let s := run_calls ca (h, a) in
  (Keys s.1 b).2 = (Keys h b).2 /\ (Values s.1 b).2 = (Values h b).2.
Proof.
  intros Ha Hb Hd. cbv zeta.
  destruct (run_calls_spec ca h a la Ha) as (la' & Ha' & _ & Hf).
  destruct (framed_inv _ _ _ _ b lb Hf Hb Hd) as (Hb' & He' & _).
  exact (Keys_Values_entries _ _ _ _ _ _ Hb' Hb He').
Qed.

Lemma model_call_length l c :
  (List.length (model_call l c) <= S (List.length l))%nat.
Proof.
  destruct c as [k v|k]; cbn [model_call]; destruct (is_nil k); try lia.
  - unfold assoc_set. destruct (has_key k l).
    + assert (List.length (assoc_update l k v) = List.length l) as ->; [|lia].
      induction l as [|[k0 v0] l IH]; [done|]. cbn [assoc_update].
      destruct (key_eqb k0 k); cbn [List.length]; congruence.
    + rewrite length_app. cbn. lia.
  - assert (List.length (assoc_remove l k) <= List.length l)%nat; [|lia].
    induction l as [|[k0 v0] l IH]; [done|]. cbn [assoc_remove].
    destruct (key_eqb k0 k); cbn [List.length]; lia.
Qed.

Lemma fold_calls_length cs : forall l,
  (List.length (fold_left model_call cs l) <= List.length l + List.length cs)%nat.
Proof.
  induction cs as [|c cs IH]; intros l; cbn [fold_left List.length]; [lia|].
  pose proof (IH (model_call l c)). pose proof (model_call_length l c). lia.
Qed.
(* ===================================================================== *)
(** * Proofs: more on the JSON methods *)
(* ===================================================================== *)

(** With keys as text and values as they are, the loop of [ToJSON] is
    the loop of [MarshalJSON]. *)
Lemma ToJSON_loop_MarshalJSON `{GoLib} opts l : forall acc,
  KeyAsString opts = true -> PreserveType opts = false ->
  ToJSON_loop opts l acc = inr (MarshalJSON_loop l acc).
Proof.
  induction l as [|nd l IH]; intros acc Hk Hp; [done|].
  cbn [ToJSON_loop MarshalJSON_loop]. rewrite Hk, Hp.
  replace (match Key nd with KString s => s | _ => Sprint (Key nd) end)
    with (Sprint (Key nd)) by (by destruct (Key nd)).
  by apply IH.
Qed.

Lemma MarshalJSON_loop_snoc `{GoLib} l nd : forall acc,
  MarshalJSON_loop (l ++ [nd]) acc =
  <[Sprint (Key nd) := Value nd]> (MarshalJSON_loop l acc).
Proof.
  induction l as [|x l IH]; intros acc.
  - cbn. by destruct (Key nd).
  - cbn [app MarshalJSON_loop]. by rewrite IH.
Qed.

(** The map that [MarshalJSON] builds holds, at the text of a key, the
    value of the last entry whose key has this text. *)
Lemma MarshalJSON_loop_lookup `{GoLib} (l : list Node) s :
  MarshalJSON_loop l ∅ !! s =
  Value <$> last (filter (fun nd => Sprint (Key nd) = s) l).
Proof.
  induction l as [|nd l IH] using rev_ind; [done|].
  rewrite MarshalJSON_loop_snoc, filter_app, filter_cons, filter_nil.
  destruct (decide (Sprint (Key nd) = s)) as [<-|Hne].
  - by rewrite lookup_insert_eq, last_snoc.
  - by rewrite lookup_insert_ne, app_nil_r.
Qed.

(** [collect] keeps the keys, and fails as soon as a part failed. *)
Lemma collect_inr {A} (L : list (A * (err + string))) ts :
  collect L = inr ts ->
  map fst ts = map fst L /\
  Forall2 (fun e t => e = (t.1, inr t.2)) L ts.
Proof.
  revert ts. induction L as [|[a [e|t]] L IH]; intros ts Hc; cbn [collect] in Hc.
  - injection Hc as <-. split; [done|constructor].
  - discriminate.
  - destruct (collect L) as [e|ts'] eqn:E; [discriminate|]. injection Hc as <-.
    destruct (IH ts' eq_refl) as [H1 H2]. split; [cbn; by rewrite H1|].
    by constructor.
Qed.

Lemma collect_inl {A} (L : list (A * (err + string))) a e :
  (a, inl e) ∈ L -> exists e', collect L = inl e'.
Proof.
  induction L as [|[b [e0|t]] L IH]; intros Hin.
  - by apply elem_of_nil in Hin.
  - cbn. eauto.
  - apply elem_of_cons in Hin as [[=]|Hin]. cbn [collect].
    destruct (IH Hin) as [e' ->]. eauto.
Qed.

Lemma key_le_total {A} : Total (@key_le A).
Proof. intros a b. unfold key_le. apply String.leb_total. Qed.

(** The members that the encoder writes: each key once, in the order of
    the bytes of the keys. *)
Lemma marshal_map_members `{GoLib} ind (m : gmap string any) bytes :
  marshal_map ind m = inr bytes ->
  exists ts,
    bytes = bracket ind "{" "}" (map (member_text ind) ts) /\
    Sorted (fun a b => String.leb a b = true) (map fst ts) /\
    NoDup (map fst ts) /\
    (forall s t, (s, t) ∈ ts ->
       exists v, m !! s = Some v /\ marshal_any (S <$> ind) v = inr t) /\
    (forall s, is_Some (m !! s) -> s ∈ map fst ts).
Proof.
  unfold marshal_map.
  set (g := fun kv : string * any => (kv.1, marshal_any (S <$> ind) kv.2)).
  set (L := sort_members (map g (map_to_list m))).
  assert (L ≡ₚ map g (map_to_list m)) as HL by apply merge_sort_Permutation.
  assert (map fst L ≡ₚ map fst (map_to_list m)) as HLk.
  { rewrite HL. unfold g. by rewrite <- list_fmap_compose. }
  destruct (collect L) as [e|ts] eqn:Hc; [discriminate|]. intros [= <-].
  destruct (collect_inr _ _ Hc) as [Hk H2].
  exists ts. split; [done|]. split; [|split; [|split]].
  - rewrite Hk. apply (Sorted_fmap fst key_le); [by intros x y|].
    apply (@Sorted_merge_sort _ key_le _ key_le_total).
  - rewrite Hk, HLk. apply (NoDup_fst_map_to_list m).
  - intros s t Hst.
    apply list_elem_of_lookup in Hst as [i Hi].
    destruct (Forall2_lookup_r _ _ _ _ _ H2 Hi) as (e & He & ->). cbn [fst snd] in He.
    assert ((s, @inr err string t) ∈ L) as Hin by (by apply list_elem_of_lookup; exists i).
    rewrite HL in Hin. apply list_elem_of_fmap in Hin as ([k v] & Hg & Hkv).
    unfold g in Hg. cbn [fst snd] in Hg. injection Hg as -> Hv.
    apply elem_of_map_to_list in Hkv. by exists v.
  - intros s [v Hv]. rewrite Hk, HLk. apply list_elem_of_fmap.
    exists (s, v). split; [done|]. by apply elem_of_map_to_list.
Qed.
(** A map of text keys and scalars, written by the encoder and read by
    either decoder: the same keys, each with the value its text denotes. *)
Lemma marshal_decode `{GoLib} ind u (m : gmap string any) :
  (forall k x, m !! k = Some x -> utf8_valid k = true /\ scalar_ok x) ->
  exists bytes M,
    marshal_map ind m = inr bytes /\
    Decoder_Decode u bytes ∅ = inr M /\
    (u = false -> json_Unmarshal bytes ∅ = inr M) /\
    (forall k, is_Some (M !! k) <-> is_Some (m !! k)) /\
    (forall k x, m !! k = Some x ->
       exists y, to_any u (value_json x) = inr y /\ M !! k = Some y).
Proof.
  intros Hok.
  set (g := fun kv : string * any => (kv.1, marshal_any (S <$> ind) kv.2)).
  set (L := sort_members (map g (map_to_list m))).
  assert (L ≡ₚ map g (map_to_list m)) as HL by apply merge_sort_Permutation.
  assert (map fst L ≡ₚ map fst (map_to_list m)) as HLk.
  { rewrite HL. unfold g. by rewrite <- list_fmap_compose. }
  assert (Forall (fun e => exists x, m !! e.1 = Some x /\ e.2 = marshal_any (S <$> ind) x /\
                                     scalar_ok x /\ utf8_valid e.1 = true) L) as HF.
  { apply Forall_forall. intros e He. rewrite HL in He.
    apply list_elem_of_fmap in He as ([k x] & -> & Hkx).
    apply elem_of_map_to_list in Hkx. cbn [g fst snd].
    exists x. destruct (Hok k x Hkx). auto. }
  destruct (collect_members _ m L HF) as (ts & ms & Hc & Hfst & H2 & Hms).
  set (bytes := bracket ind "{" "}" (map (member_text ind) ts)).
  assert (marshal_map ind m = inr bytes) as Hmm.
  { unfold marshal_map. fold g. fold L. by rewrite Hc. }
  pose proof (parse_object_text ind ts ms H2) as Hp. fold bytes in Hp.
  pose proof (Decode_object_text u ind ts ms Hp) as Hdec. fold bytes in Hdec.
  assert (NoDup (map fst ms)) as Hnd.
  { rewrite Hfst, HLk. apply (NoDup_fst_map_to_list m). }
  destruct (store_members_lookup u ms ∅ Hnd) as (M & HM & Hout & Hlook).
  { apply Forall_forall. intros [k j] Hkj. rewrite Forall_forall in Hms.
    destruct (Hms _ Hkj) as (x & _ & -> & Hs).
    destruct (to_any_scalar (mkJSONOptions true u false) k x Hs) as (y & Hy & _).
    by exists y. }
  assert (forall k, k ∈ map fst ms <-> is_Some (m !! k)) as Hkeys.
  { intros k. rewrite Hfst, HLk. split.
    - intros Hin. apply list_elem_of_fmap in Hin as ([k' x] & -> & Hkx).
      apply elem_of_map_to_list in Hkx. by exists x.
    - intros [x Hx]. apply list_elem_of_fmap. exists (k, x). split; [done|].
      by apply elem_of_map_to_list. }
  exists bytes, M. split; [done|]. split; [by rewrite Hdec|]. split; [|split].
  - intros ->. unfold json_Unmarshal. rewrite Hp. exact HM.
  - intros k. rewrite <- Hkeys. split.
    + intros HMk. destruct (decide (k ∈ map fst ms)) as [|Hn]; [done|].
      rewrite (Hout k Hn), lookup_empty in HMk. by destruct HMk.
    + intros Hin. apply list_elem_of_fmap in Hin as ([k' j] & -> & Hkj).
      destruct (Hlook _ _ Hkj) as (y & _ & Hy). by exists y.
  - intros k x Hx.
    assert (k ∈ map fst ms) as Hin by (apply Hkeys; by exists x).
    apply list_elem_of_fmap in Hin as ([k' j] & Hk' & Hkj). cbn [fst] in Hk'. subst k'.
    rewrite Forall_forall in Hms.
    destruct (Hms _ Hkj) as (x' & Hx' & Hj & _). cbn [fst snd] in *.
    assert (x' = x) as -> by congruence. subst j.
    destruct (Hlook _ _ Hkj) as (y & Hy & HMy). by exists y.
Qed.

(** The keys after the entries of a decoded map are set into an emptied
    container: those of the map, in the order of the visit. *)
Lemma FromJSON_entries `{GoLib} visit h om data opts tmpMap :
  is_range visit ->
  KeyAsString (default default_FromJSON opts) = true ->
  Decoder_Decode (PreserveType (default default_FromJSON opts)) data ∅ = inr tmpMap ->
  let r := FromJSON visit h om data opts in
  r.2 = None /\
  exists ls, inv r.1.1 r.1.2 ls /\
    entries r.1.1 ls = map (FromJSON_convert (default default_FromJSON opts)) (visit tmpMap).
Proof.
  intros Hv Hks Hd r. subst r.
  destruct (FromJSON_ok visit h om data opts tmpMap Hd) as (Hnone & ls & Hi & He & _).
  split; [done|]. exists ls. split; [done|]. rewrite He.
  apply load_entries; [|done]. intros kv. by apply FromJSON_convert_key.
Qed.

Lemma UnmarshalJSON_entries `{GoLib} visit h om data tmpMap :
  is_range visit -> json_Unmarshal data ∅ = inr tmpMap ->
  let r := UnmarshalJSON visit h om data in
  r.2 = None /\
  mu r.1.2 = mu om ++ [EvLock; EvUnlock] /\
  exists ls, inv r.1.1 r.1.2 ls /\
    entries r.1.1 ls = map (fun kv => (KString kv.1, kv.2)) (visit tmpMap).
Proof.
  intros Hv Hd r. subst r.
  destruct (UnmarshalJSON_ok visit h om data tmpMap Hd) as (Hnone & ls & Hi & He & _ & Hmu).
  split; [done|]. split; [done|]. exists ls. split; [done|]. rewrite He.
  by apply (load_entries (fun kv => (KString kv.1, kv.2))).
Qed.
Lemma MarshalJSON_loop_entries `{GoLib} (l : list Node) s :
  MarshalJSON_loop l ∅ !! s =
  snd <$> last (filter (fun e : key * any => Sprint e.1 = s)
                  (map (fun nd => (Key nd, Value nd)) l)).
Proof.
  induction l as [|nd l IH] using rev_ind; [done|].
  rewrite MarshalJSON_loop_snoc, map_app, filter_app. cbn [map].
  rewrite filter_cons, filter_nil. cbn [fst].
  destruct (decide (Sprint (Key nd) = s)) as [<-|Hne].
  - by rewrite lookup_insert_eq, last_snoc.
  - by rewrite lookup_insert_ne, app_nil_r.
Qed.

Lemma last_filter_Some {A} (P : A -> Prop) `{forall x, Decision (P x)} (l : list A) :
  is_Some (last (filter P l)) <-> exists x, x ∈ l /\ P x.
Proof.
  split.
  - intros [x Hx]. exists x. apply last_Some in Hx as [l' Hl'].
    assert (x ∈ filter P l) as Hin by (rewrite Hl'; apply elem_of_app; right; by left).
    by apply list_elem_of_filter in Hin as [? ?].
  - intros (x & Hx & HP).
    assert (x ∈ filter P l) as Hin by (by apply list_elem_of_filter).
    destruct (filter P l) as [|y l'] using rev_ind; [by apply elem_of_nil in Hin|].
    rewrite last_snoc. eauto.
Qed.

Lemma last_filter_elem {A} (P : A -> Prop) `{forall x, Decision (P x)} (l : list A) x :
  last (filter P l) = Some x -> x ∈ l /\ P x.
Proof.
  intros Hx. apply last_Some in Hx as [l' Hl'].
  assert (x ∈ filter P l) as Hin by (rewrite Hl'; apply elem_of_app; right; by left).
  by apply list_elem_of_filter in Hin as [? ?].
Qed.

Lemma filter_none {A} (P : A -> Prop) `{forall x, Decision (P x)} (l : list A) :
  (forall y, y ∈ l -> ~ P y) -> filter P l = [].
Proof.
  induction l as [|y l IH]; intros Hn; [done|]. rewrite filter_cons.
  rewrite decide_False by (apply Hn; by left). apply IH. intros z Hz. apply Hn. by right.
Qed.

(** The only entry with its key text is the last one with it. *)
Lemma last_filter_unique {A B} `{EqDecision B} (f : A -> B) (l : list A) x :
  NoDup (map f l) -> x ∈ l ->
  last (filter (fun y => f y = f x) l) = Some x.
Proof.
  intros Hnd Hin. apply list_elem_of_split in Hin as (l1 & l2 & ->).
  rewrite map_app in Hnd. cbn [map] in Hnd.
  apply NoDup_app in Hnd as (_ & H1 & H2). apply NoDup_cons in H2 as [H2 _].
  rewrite filter_app, filter_cons, decide_True by done.
  rewrite (filter_none _ l2); [by rewrite last_snoc|].
  intros y Hy Hf. apply H2. rewrite <- Hf. apply list_elem_of_fmap. by exists y.
Qed.

(** Keys that are texts and differ under [==] are different keys. *)
Lemma distinct_text_NoDup (ks : list key) :
  distinct ks -> Forall (fun k => exists s, k = KString s) ks -> NoDup ks.
Proof.
  induction ks as [|k ks IH]; intros Hd Ht; [constructor|].
  destruct Hd as [Hk Hd]. apply Forall_cons in Ht as [[s ->] Ht].
  constructor; [|by apply IH].
  intros Hin. rewrite Forall_forall in Hk. specialize (Hk _ Hin).
  cbn in Hk. by rewrite String.eqb_refl in Hk.
Qed.

(** The keys of a map read back, in the order of a visit, against the
    keys of the container that was written. *)
Lemma keys_after_load (visit : range_order) (m M : gmap string any) (ks : list key) :
  is_range visit -> NoDup ks ->
  (forall k, is_Some (M !! k) <-> is_Some (m !! k)) ->
  (forall s, is_Some (m !! s) <-> KString s ∈ ks) ->
  Forall (fun k => exists s, k = KString s) ks ->
  map KString (map fst (visit M)) ≡ₚ ks.
Proof.
  intros Hv Hnd HM Hm Ht.
  assert (Inj eq eq KString) as Hinj by (by intros a b [=]).
  apply NoDup_Permutation; [|done|].
  - apply (NoDup_fmap_2 KString). rewrite (Hv M). apply (NoDup_fst_map_to_list M).
  - intros x. split.
    + intros Hx. apply list_elem_of_fmap in Hx as (s & -> & Hs).
      apply Hm, HM. rewrite (Hv M) in Hs.
      apply list_elem_of_fmap in Hs as ([s' v] & -> & Hsv).
      apply elem_of_map_to_list in Hsv. by exists v.
    + intros Hx. rewrite Forall_forall in Ht. destruct (Ht x Hx) as [s ->].
      apply list_elem_of_fmap. exists s. split; [done|].
      apply Hm, HM in Hx as [v Hv']. rewrite (Hv M).
      apply list_elem_of_fmap. exists (s, v). split; [done|]. by apply elem_of_map_to_list.
Qed.

Lemma parse_not_blank s j r : parse s = Some (j, r) -> skip_ws s <> "".
Proof.
  unfold parse, parse_fuel. rewrite parse_value_step. intros Hp Hs.
  by rewrite Hs in Hp.
Qed.

Lemma ToJSON_loop_non_string `{GoLib} opts pre nd post : forall acc,
  KeyAsString opts = false ->
  Forall (fun x => exists s, Key x = KString s) pre ->
  (forall s, Key nd <> KString s) ->
  ToJSON_loop opts (pre ++ nd :: post) acc = inl (non_string_key (Key nd)).
Proof.
  induction pre as [|x pre IH]; intros acc Hk Hpre Hnd.
  - cbn [app ToJSON_loop]. rewrite Hk.
    destruct (Key nd) as [| | | | |s]; try done. by destruct (Hnd s).
  - apply Forall_cons in Hpre as [[s Hs] Hpre].
    cbn [app ToJSON_loop]. rewrite Hk, Hs. by apply IH.
Qed.
(** The map that [ToJSON] hands to the encoder, for a container of text
    keys and scalars. *)
Lemma written_map `{GoLib} opts h om ls :
  inv h om ls -> Forall (pair_ok opts) (entries h ls) ->
  exists m,
    ToJSON_loop opts (nodes_at h ls) ∅ = inr m /\
    (forall k x, m !! k = Some x -> utf8_valid k = true /\ scalar_ok x) /\
    (forall s, is_Some (m !! s) <-> KString s ∈ map fst (entries h ls)) /\
    (forall s v, (KString s, v) ∈ entries h ls -> m !! s = Some (sent_value opts v)).
Proof.
  intros Hi Hok.
  assert (Forall (fun nd => exists s, Key nd = KString s) (nodes_at h ls)) as Hkeys.
  { apply Forall_forall. intros nd Hnd. rewrite Forall_forall in Hok.
    destruct (Hok (Key nd, Value nd)) as [(s & Hs & _) _]; [|by exists s].
    unfold entries. apply list_elem_of_fmap. by exists nd. }
  destruct (ToJSON_loop_spec opts (nodes_at h ls) ∅ Hkeys) as (m & Hm & Hout & Hin & Hd).
  specialize (Hd (inv_distinct _ _ _ Hi)).
  exists m. split; [done|]. split; [|split].
  - intros k x Hkx. destruct (Hin k x Hkx) as [Hemp|(nd & Hnd & Hk & ->)].
    { by rewrite lookup_empty in Hemp. }
    rewrite Forall_forall in Hok.
    destruct (Hok (Key nd, Value nd)) as [(s & Hs & Hu) Hsc].
    { unfold entries. apply list_elem_of_fmap. by exists nd. }
    cbn [fst snd] in *. split; [congruence|done].
  - intros s. rewrite keys_entries. split.
    + intros [x Hx]. destruct (Hin s x Hx) as [Hemp|(nd & Hnd & Hk & _)].
      { by rewrite lookup_empty in Hemp. }
      apply list_elem_of_fmap. by exists nd.
    + intros Hs. apply list_elem_of_fmap in Hs as (nd & Hk & Hnd).
      rewrite (Hd nd s Hnd); [eauto|done].
  - intros s v Hsv. apply list_elem_of_fmap in Hsv as (nd & [= Hk Hval] & Hnd).
    rewrite Hval. by apply Hd.
Qed.

Lemma text_keys `{GoLib} opts (l : list (key * any)) :
  Forall (pair_ok opts) l -> Forall (fun k => exists s, k = KString s) (map fst l).
Proof.
  intros Hok. apply Forall_forall. intros k Hk.
  apply list_elem_of_fmap in Hk as (e & -> & He).
  rewrite Forall_forall in Hok. destruct (Hok e He) as [(s & Hs & _) _]. by exists s.
Qed.
(** Looking up after a sequence of pairs is set: the last pair with an
    equal key, or what was there. *)
Lemma assoc_get_fold_set (l : list (key * any)) : forall acc k,
  assoc_get (fold_left (fun acc e => assoc_set acc e.1 e.2) l acc) k =
  match assoc_get (rev l) k with
  | Some v => Some v
  | None => assoc_get acc k
  end.
Proof.
  induction l as [|[k0 v0] l IH]; intros acc k; [done|].
  cbn [fold_left rev fst snd]. rewrite IH, assoc_get_app_full, assoc_get_set.
  cbn [assoc_get].
  destruct (assoc_get (rev l) k); [done|]. by destruct (key_eqb k0 k).
Qed.

(** The one pair of a sequence with a key equal to [k]. *)
Lemma assoc_get_unique (l : list (key * any)) k e :
  e ∈ l -> key_eqb e.1 k = true ->
  (forall e', e' ∈ l -> key_eqb e'.1 k = true -> e' = e) ->
  assoc_get l k = Some e.2.
Proof.
  induction l as [|[k0 v0] l IH]; intros Hin Hk Huniq; [by apply elem_of_nil in Hin|].
  cbn [assoc_get]. destruct (key_eqb k0 k) eqn:E.
  - rewrite <- (Huniq (k0, v0)); [done|by left|done].
  - apply elem_of_cons in Hin as [->|Hin]; [cbn in Hk; congruence|].
    apply IH; [done|done|]. intros e' He'. apply Huniq. by right.
Qed.

Lemma assoc_get_absent (l : list (key * any)) k :
  (forall e, e ∈ l -> key_eqb e.1 k = false) -> assoc_get l k = None.
Proof.
  intros Hn. apply assoc_get_none, has_key_false, Forall_forall. exact Hn.
Qed.
Lemma ToJSON_nil_MarshalJSON `{GoLib} h om : ToJSON h om None = MarshalJSON h om.
Proof.
  unfold ToJSON, MarshalJSON. change (default default_ToJSON None) with default_ToJSON.
  f_equal. destruct (walk (enough h) h (head (RLock om))) as [l|]; [|done].
  cbn [fmap option_fmap option_map].
  by rewrite (ToJSON_loop_MarshalJSON default_ToJSON l ∅).
Qed.
Lemma elem_of_rev {A} (x : A) (l : list A) : x ∈ rev l <-> x ∈ l.
Proof. rewrite !list_elem_of_In. symmetry. apply in_rev. Qed.
(* ===================================================================== *)
(** * The claims *)
(* ===================================================================== *)

(** C1. After any sequence of [Set] calls on a new container, [Keys]
    returns the keys in the order in which each was first inserted (a call
    with a nil key is rejected and inserts nothing).  When [Set] is then
    called on a key that is there, it returns no error, [Keys] is as
    before, and [Values] and the pairs that [Range] visits differ from
    before only by the new value at the place of that key. *)
Theorem C1_first_insertion_order (ops : list (key * any)) (k : key) (v : any) :
  let s := run_Set ops (∅, NewOrderedMap) in
  (Keys s.1 s.2).2 = Some (first_inserted (map fst ops)) /\
  ((Has s.2 k).2 = true ->
   let r := Set_ s.1 s.2 k v in
   r.2 = None /\
   (Keys r.1.1 r.1.2).2 = (Keys s.1 s.2).2 /\
   exists i vs,
     key_index k (first_inserted (map fst ops)) = Some i /\
     (Values s.1 s.2).2 = Some vs /\
     (Values r.1.1 r.1.2).2 = Some (<[i := v]> vs) /\
     (Range r.1.1 r.1.2 (fun _ _ => true)).2 =
       Some (zip (first_inserted (map fst ops)) (<[i := v]> vs))).
Proof.
  intros s. subst s. destruct (run_Set_new ops) as (ls & Hi & Hk).
  destruct (run_Set ops (∅, NewOrderedMap)) as [h om]. cbn [fst snd] in *.
  rewrite (Keys_spec h om ls) by done. split; [by rewrite Hk|].
  intros Hh. destruct (Set_existing h om ls k v Hi Hh) as (Hr & Hi' & Hk' & i & Hix & Hv).
  split; [done|]. rewrite (Keys_spec _ _ ls) by done. split; [by rewrite Hk'|].
  exists i, (map snd (entries h ls)). rewrite <- Hk. split; [done|].
  split; [by apply Values_spec|]. split; [rewrite <- Hv; by apply Values_spec|].
  rewrite (Range_all _ _ ls) by done. f_equal.
  rewrite <- Hv, <- Hk'. symmetry. apply zip_fst_snd.
Qed.

Lemma C1_witness :
  let ops := [(KString "a", Int 1); (KString "b", Int 2); (KString "a", Int 3)] in
  let s := run_Set ops (∅, NewOrderedMap) in
  (Has s.2 (KString "a")).2 = true /\
  (Keys (Set_ s.1 s.2 (KString "a") (Int 9)).1.1 (Set_ s.1 s.2 (KString "a") (Int 9)).1.2).2
  = Some [KString "a"; KString "b"].
Proof.
  split; [vm_compute; reflexivity|].
  destruct (C1_first_insertion_order
              [(KString "a", Int 1); (KString "b", Int 2); (KString "a", Int 3)]
              (KString "a") (Int 9)) as [H1 H2].
  destruct H2 as (_ & H2 & _); [vm_compute; reflexivity|].
  rewrite H2, H1. vm_compute. reflexivity.
Defined.

(** C2. After any sequence of [Set], [Delete], [Clear], [UnmarshalJSON]
    and [FromJSON] calls on a new container, the walk from [head] along
    [next] ends; the index has as many entries as the walk has nodes, and
    its keys are the keys of those nodes; [Len] returns that number, as a
    64-bit integer. *)
Theorem C2_count_list_index `{GoLib} (ops : list op) :
  let s := run ops in
  exists nodes,
    walk (enough s.1) s.1 (head s.2) = Some nodes /\
    List.length (nodeMap s.2) = List.length nodes /\
    map fst (nodeMap s.2) ≡ₚ map Key nodes /\
    (Len s.2).2 = wrap64 (Z.of_nat (List.length nodes)) /\
    (Z.of_nat (List.length nodes) < 2 ^ 63 ->
     (Len s.2).2 = Z.of_nat (List.length nodes)).
Proof.
  intros s. subst s. destruct (run_wf ops) as [ls Hi].
  destruct (run ops) as [h om]. cbn [fst snd] in *.
  exists (nodes_at h ls). rewrite (walk_inv _ _ _ Hi).
  pose proof (nodes_at_length _ _ _ _ (inv_dseg _ _ _ Hi)) as Hl.
  rewrite (inv_index _ _ _ Hi), Hl.
  split; [done|]. split.
  { rewrite length_zip, length_map, Hl. lia. }
  split.
  { rewrite fst_zip; [done|]. rewrite length_map, Hl. lia. }
  change ((Len om).2) with (length om).
  rewrite (inv_length _ _ _ Hi). split; [done|].
  intros Hb. apply wrap64_small. lia.
Qed.

Lemma C2_witness :
  let s := @run exact_lib
             [OpSet (KString "a") (Int 1);
              OpFromJSON map_to_list ("{" +:+ quoted "x" +:+ ":1," +:+ quoted "y" +:+ ":null}") None;
              OpSet (KString "b") (Int 2); OpDelete (KString "x")] in
  Z.of_nat 2 < 2 ^ 63 /\ (Len s.2).2 = 2.
Proof.
  split; [reflexivity|].
  destruct (@C2_count_list_index exact_lib
              [OpSet (KString "a") (Int 1);
               OpFromJSON map_to_list ("{" +:+ quoted "x" +:+ ":1," +:+ quoted "y" +:+ ":null}") None;
               OpSet (KString "b") (Int 2); OpDelete (KString "x")]) as (nodes & Hw & _ & _ & _ & Hb).
  vm_compute in Hw. injection Hw as <-. apply Hb. reflexivity.
Defined.

(** C3. [Delete] of a key that is not nil returns no error and leaves a
    well-formed container.  When the key is there, at place [i] of [Keys],
    then afterwards [Keys] and [Values] are as before without place [i]
    (so the others keep their order, whether [i] was the first, the last
    or a middle place), no key equal to it is in [Keys], [Has] is false,
    and [First] and [Last] return the first and the last of the pairs
    that remain.  When the key is not there, the store and the fields of
    the container are as before. *)
Theorem C3_delete (h : heap) (om : OrderedMap) (k : key) :
  wf h om -> is_nil k = false ->
  let r := Delete h om k in
  r.2 = None /\
  wf r.1.1 r.1.2 /\
  exists ks vs,
    (Keys h om).2 = Some ks /\ (Values h om).2 = Some vs /\
    if (Has om k).2 then
      exists i,
        key_index k ks = Some i /\
        (Keys r.1.1 r.1.2).2 = Some (delete i ks) /\
        (Values r.1.1 r.1.2).2 = Some (delete i vs) /\
        Forall (fun x => key_eqb x k = false) (delete i ks) /\
        (Has r.1.2 k).2 = false /\
        (First r.1.1 r.1.2).2 =
          match delete i (zip ks vs) with
          | [] => (KNil, Nil, false)
          | e :: _ => (e.1, e.2, true)
          end /\
        (Last r.1.1 r.1.2).2 =
          match last (delete i (zip ks vs)) with
          | None => (KNil, Nil, false)
          | Some e => (e.1, e.2, true)
          end
    else
      r.1.1 = h /\ head r.1.2 = head om /\ tail r.1.2 = tail om /\
      nodeMap r.1.2 = nodeMap om /\ length r.1.2 = length om.
Proof.
  intros [ls Hi] Hk r. subst r.
  destruct (Delete_spec h om ls k Hi Hk) as (ls' & Hi' & _ & _ & _ & Hr & _).
  split; [done|]. split; [by exists ls'|].
  exists (map fst (entries h ls)), (map snd (entries h ls)).
  split; [by apply Keys_spec|]. split; [by apply Values_spec|].
  destruct (Has om k).2 eqn:Hh.
  - destruct (Delete_existing h om ls k Hi Hh) as (_ & ls2 & i & Hi2 & Hix & He & Hks & Hvs & Hh' & Hall).
    exists i. split; [done|].
    rewrite (Keys_spec _ _ ls2), (Values_spec _ _ ls2) by done.
    rewrite Hks, Hvs. split; [done|]. split; [done|].
    split; [by rewrite <- Hks|]. split; [done|].
    rewrite (First_spec _ _ ls2), (Last_spec _ _ ls2) by done.
    by rewrite He, zip_fst_snd.
  - by rewrite (Delete_absent h om ls k Hi Hk Hh).
Qed.

Lemma C3_witness :
  let s := run_Set [(KString "first", Int 1); (KString "second", Int 2);
                    (KString "third", Int 3)] (∅, NewOrderedMap) in
  let r := Delete s.1 s.2 (KString "second") in
  wf s.1 s.2 /\ is_nil (KString "second") = false /\
  r.2 = None /\
  (Keys r.1.1 r.1.2).2 = Some [KString "first"; KString "third"].
Proof.
  assert (Hwf : wf (run_Set [(KString "first", Int 1); (KString "second", Int 2);
                             (KString "third", Int 3)] (∅, NewOrderedMap)).1
                   (run_Set [(KString "first", Int 1); (KString "second", Int 2);
                             (KString "third", Int 3)] (∅, NewOrderedMap)).2).
  { destruct (run_Set_new [(KString "first", Int 1); (KString "second", Int 2);
                           (KString "third", Int 3)]) as (ls & Hi & _). by exists ls. }
  destruct (C3_delete _ _ (KString "second") Hwf eq_refl)
    as (Hr & _ & ks & vs & Hks & _ & Hcase).
  split; [exact Hwf|]. split; [reflexivity|]. split; [exact Hr|].
  vm_compute. reflexivity.
Defined.

(** C4. With the nil key, [Set] and [Delete] return the error "key cannot
    be nil" and leave the store and the container as they were; [Get]
    returns nil and false, and [Has] returns false. *)
Theorem C4_nil_key (h : heap) (om : OrderedMap) (v : any) :
  Set_ h om KNil v = (h, om, Some (Errorf "key cannot be nil")) /\
  Delete h om KNil = (h, om, Some (Errorf "key cannot be nil")) /\
  Get h om KNil = (om, (Nil, false)) /\
  Has om KNil = (om, false).
Proof. repeat split. Qed.

(** C5. [Copy] of a well-formed container returns a new container with
    the keys and the values of the original, in the same order, and
    leaves the original as it was.  From then on the two are independent:
    after any [Set] and [Delete] calls on the two, in any order, each
    holds what it would hold had only its own calls been made; so calls
    on the original alone leave the copy as it was, and calls on the copy
    alone leave the original as it was. *)
Theorem C5_copy_independent (h : heap) (om : OrderedMap)
    (cs : list (bool * call)) (ca cb : list call) :
  wf h om ->
  exists h1 om1 c,
    Copy h om = Some (h1, om1, c) /\
    (Keys h1 c).2 = (Keys h om).2 /\ (Values h1 c).2 = (Values h om).2 /\
    (Keys h1 om1).2 = (Keys h om).2 /\ (Values h1 om1).2 = (Values h om).2 /\
    (let s := run_calls2 cs (h1, om1, c) in
     let a := run_calls (calls_on true cs) (h1, om1) in
     let b := run_calls (calls_on false cs) (h1, c) in
     (Keys s.1.1 s.1.2).2 = (Keys a.1 a.2).2 /\
     (Values s.1.1 s.1.2).2 = (Values a.1 a.2).2 /\
     (Keys s.1.1 s.2).2 = (Keys b.1 b.2).2 /\
     (Values s.1.1 s.2).2 = (Values b.1 b.2).2) /\
    (let a := run_calls ca (h1, om1) in
     (Keys a.1 c).2 = (Keys h1 c).2 /\ (Values a.1 c).2 = (Values h1 c).2) /\
    (let b := run_calls cb (h1, c) in
     (Keys b.1 om1).2 = (Keys h1 om1).2 /\ (Values b.1 om1).2 = (Values h1 om1).2).
Proof.
  intros [ls Hi].
  destruct (Copy_spec h om ls Hi) as (h1 & c & lc & Hc & Hi1 & Hic & Hd & Hec & Heo & _).
  exists h1, (RUnlock (RLock om)), c. split; [done|].
  destruct (Keys_Values_entries h1 c lc h om ls Hic Hi Hec) as [Hkc Hvc].
  destruct (Keys_Values_entries h1 _ ls h om ls Hi1 Hi Heo) as [Hko Hvo].
  do 4 (split; [done|]). split; [|split].
  - cbv zeta.
    destruct (run_calls2_spec cs h1 _ ls c lc Hi1 Hic Hd) as (la & lb & Ha & Hb & _ & Hea & Heb).
    destruct (run_calls_spec (calls_on true cs) h1 _ ls Hi1) as (la' & Ha' & Hea' & _).
    destruct (run_calls_spec (calls_on false cs) h1 c lc Hic) as (lb' & Hb' & Heb' & _).
    rewrite <- Hea' in Hea. rewrite <- Heb' in Heb.
    destruct (Keys_Values_entries _ _ _ _ _ _ Ha Ha' Hea) as [H1 H2].
    destruct (Keys_Values_entries _ _ _ _ _ _ Hb Hb' Heb) as [H3 H4].
    auto.
  - cbv zeta.
    destruct (run_calls_spec ca h1 _ ls Hi1) as (la' & Ha' & _ & Hf).
    destruct (framed_inv _ _ _ _ c lc Hf Hic Hd) as (Hc' & He' & _).
    destruct (Keys_Values_entries _ _ _ _ _ _ Hc' Hic He') as [H1 H2]. auto.
  - cbv zeta.
    destruct (run_calls_spec cb h1 c lc Hic) as (lb' & Hb' & _ & Hf).
    destruct (framed_inv _ _ _ _ _ ls Hf Hi1 (disjoint_sym_list _ _ Hd)) as (Ho' & He' & _).
    destruct (Keys_Values_entries _ _ _ _ _ _ Ho' Hi1 He') as [H1 H2]. auto.
Qed.

Lemma C5_witness :
  let s := run_Set [(KString "key1", Int 1); (KString "key2", Int 2)] (∅, NewOrderedMap) in
  wf s.1 s.2 /\
  exists h1 om1 c,
    Copy s.1 s.2 = Some (h1, om1, c) /\
    (Keys h1 c).2 = Some [KString "key1"; KString "key2"] /\
    (Keys (run_calls [CallSet (KString "key3") (Int 3); CallDelete (KString "key1")]
             (h1, om1)).1 c).2 = Some [KString "key1"; KString "key2"].
Proof.
  assert (Hwf : wf (run_Set [(KString "key1", Int 1); (KString "key2", Int 2)]
                      (∅, NewOrderedMap)).1
                   (run_Set [(KString "key1", Int 1); (KString "key2", Int 2)]
                      (∅, NewOrderedMap)).2).
  { destruct (run_Set_new [(KString "key1", Int 1); (KString "key2", Int 2)])
      as (ls & Hi & _). by exists ls. }
  split; [exact Hwf|].
  destruct (C5_copy_independent _ _ []
              [CallSet (KString "key3") (Int 3); CallDelete (KString "key1")] [] Hwf)
    as (h1 & om1 & c & Hc & Hk & _ & _ & _ & _ & [Hka _] & _).
  exists h1, om1, c. split; [exact Hc|].
  assert (Hk0 : (Keys h1 c).2 = Some [KString "key1"; KString "key2"]).
  { rewrite Hk. vm_compute. reflexivity. }
  split; [exact Hk0|]. cbv zeta in Hka. by rewrite Hka.
Defined.

(** C9. [Clear] makes no call on the mutex of the container: it resets
    the index, the head, the tail and the count with the mutex as it was,
    where [Set] and [Delete] lock and unlock it around what they do. *)
Theorem C9_Clear_takes_no_lock (h : heap) (om : OrderedMap) (s : string) (v : any) :
  mu (Clear om) = mu om /\
  nodeMap (Clear om) = [] /\ head (Clear om) = None /\
  tail (Clear om) = None /\ length (Clear om) = 0 /\
  mu (Set_ h om (KString s) v).1.2 = mu om ++ [EvLock; EvUnlock] /\
  mu (Delete h om (KString s)).1.2 = mu om ++ [EvLock; EvUnlock].
Proof.
  do 5 (split; [reflexivity|]). split.
  - unfold Set_. simpl. unfold store_pair. simpl.
    destruct (map_lookup (nodeMap om) (KString s)); simpl.
    + by rewrite <- app_assoc.
    + destruct (bool_decide _); simpl; by rewrite <- app_assoc.
  - rewrite Delete_unfold by done.
    destruct (map_lookup (nodeMap om) (KString s)) as [p|]; simpl.
    + destruct (h !! p); simpl; by rewrite <- app_assoc.
    + by rewrite <- app_assoc.
Qed.

(** C8. On empty input (nil and empty data are the same bytes)
    [UnmarshalJSON] and [FromJSON] return an error and leave the store and
    the container as they were; on the input [{}] they return no error and
    leave the container empty: [Len] is 0 and [Keys] is empty. *)
Theorem C8_empty_input `{GoLib} (visit : range_order) (h : heap) (om : OrderedMap)
    (opts : option JSONOptions) :
  is_range visit ->
  UnmarshalJSON visit h om "" = (h, om, Some SyntaxError) /\
  FromJSON visit h om "" opts = (h, om, Some EOF) /\
  (let r := UnmarshalJSON visit h om "{}" in
   r.2 = None /\ (Len r.1.2).2 = 0 /\ (Keys r.1.1 r.1.2).2 = Some []) /\
  (let r := FromJSON visit h om "{}" opts in
   r.2 = None /\ (Len r.1.2).2 = 0 /\ (Keys r.1.1 r.1.2).2 = Some []).
Proof.
  intros Hv. split; [reflexivity|]. split; [reflexivity|]. split.
  - cbv zeta. unfold UnmarshalJSON.
    change (json_Unmarshal "{}" ∅) with (@inr err _ (∅ : gmap string any)).
    cbv beta iota. rewrite (is_range_nil _ Hv). simpl. repeat split.
  - cbv zeta. unfold FromJSON.
    change (Decoder_Decode _ "{}" ∅) with (@inr err _ (∅ : gmap string any)).
    cbv beta iota. rewrite (is_range_nil _ Hv). simpl. repeat split.
Qed.

Lemma C8_witness :
  let s := run_Set [(KString "a", Int 1)] (∅, NewOrderedMap) in
  is_range map_to_list /\
  (@UnmarshalJSON exact_lib map_to_list s.1 s.2 "").2 = Some SyntaxError /\
  (Len (@FromJSON exact_lib map_to_list s.1 s.2 "{}" None).1.2).2 = 0.
Proof.
  split; [exact is_range_identity|].
  destruct (@C8_empty_input exact_lib map_to_list
              (run_Set [(KString "a", Int 1)] (∅, NewOrderedMap)).1
              (run_Set [(KString "a", Int 1)] (∅, NewOrderedMap)).2 None
              is_range_identity) as (H1 & _ & _ & (_ & H4 & _)).
  split; [by rewrite H1|exact H4].
Defined.









(* ===================================================================== *)
(** * Further properties of the code *)
(* ===================================================================== *)

(** X1. After [Set] of a key that is not nil, [Get] and [Has] of a key
    equal to it give the new value; of any other key they give what they
    gave before. *)
Theorem X1_lookup_after_Set (h : heap) (om : OrderedMap) (k : key) (v : any) (k' : key) :
  wf h om -> is_nil k = false ->
  let r := Set_ h om k v in
  r.2 = None /\ wf r.1.1 r.1.2 /\
  (Get r.1.1 r.1.2 k').2 = (if key_eqb k k' then (v, true) else (Get h om k').2) /\
  (Has r.1.2 k').2 = (key_eqb k k' || (Has om k').2).
Proof.
  intros [ls Hi] Hk r. subst r.
  destruct (Set_spec h om ls k v Hi Hk) as (Hi' & He & _ & Hr & _).
  cbv zeta in *. split; [done|]. split; [by eexists|].
  rewrite (Get_spec _ _ _ _ Hi'), (Has_spec _ _ _ _ Hi'), He.
  rewrite (Get_spec _ _ _ _ Hi), (Has_spec _ _ _ _ Hi).
  rewrite !has_key_get, assoc_get_set.
  destruct (key_eqb k k'); [split; [done|]; apply bool_decide_eq_true; eauto|done].
Qed.

Lemma X1_witness :
  let s := run_Set [(KString "a", Int 1); (KString "b", Int 2)] (∅, NewOrderedMap) in
  let r := Set_ s.1 s.2 (KString "a") (Int 3) in
  (Get r.1.1 r.1.2 (KString "a")).2 = (Int 3, true) /\
  (Get r.1.1 r.1.2 (KString "b")).2 = (Int 2, true).
Proof.
  set (ops := [(KString "a", Int 1); (KString "b", Int 2)]). cbv zeta.
  assert (Hwf : wf (run_Set ops (∅, NewOrderedMap)).1 (run_Set ops (∅, NewOrderedMap)).2).
  { destruct (run_Set_new ops) as (ls & Hi & _). by exists ls. }
  split.
  - exact (proj1 (proj2 (proj2 (X1_lookup_after_Set _ _ (KString "a") (Int 3) (KString "a")
                                  Hwf eq_refl)))).
  - exact (proj1 (proj2 (proj2 (X1_lookup_after_Set _ _ (KString "a") (Int 3) (KString "b")
                                  Hwf eq_refl)))).
Defined.

(** X2. After [Delete] of a key that is not nil, [Get] and [Has] of a key
    equal to it find nothing; of any other key they give what they gave
    before. *)
Theorem X2_lookup_after_Delete (h : heap) (om : OrderedMap) (k k' : key) :
  wf h om -> is_nil k = false ->
  let r := Delete h om k in
  r.2 = None /\ wf r.1.1 r.1.2 /\
  (Get r.1.1 r.1.2 k').2 = (if key_eqb k k' then (Nil, false) else (Get h om k').2) /\
  (Has r.1.2 k').2 = (negb (key_eqb k k') && (Has om k').2).
Proof.
  intros [ls Hi] Hk r. subst r.
  destruct (Delete_spec h om ls k Hi Hk) as (ls' & Hi' & He & _ & _ & Hr & _).
  split; [done|]. split; [by eexists|].
  rewrite (Get_spec _ _ _ _ Hi'), (Has_spec _ _ _ _ Hi'), He.
  rewrite (Get_spec _ _ _ _ Hi), (Has_spec _ _ _ _ Hi).
  rewrite !has_key_get, assoc_get_remove
    by (rewrite keys_entries; apply (inv_distinct _ _ _ Hi)).
  by destruct (key_eqb k k').
Qed.

Lemma X2_witness :
  let s := run_Set [(KString "a", Int 1); (KString "b", Int 2)] (∅, NewOrderedMap) in
  let r := Delete s.1 s.2 (KString "a") in
  (Get r.1.1 r.1.2 (KString "a")).2 = (Nil, false) /\
  (Get r.1.1 r.1.2 (KString "b")).2 = (Int 2, true).
Proof.
  set (ops := [(KString "a", Int 1); (KString "b", Int 2)]). cbv zeta.
  assert (Hwf : wf (run_Set ops (∅, NewOrderedMap)).1 (run_Set ops (∅, NewOrderedMap)).2).
  { destruct (run_Set_new ops) as (ls & Hi & _). by exists ls. }
  split.
  - exact (proj1 (proj2 (proj2 (X2_lookup_after_Delete _ _ (KString "a") (KString "a")
                                  Hwf eq_refl)))).
  - exact (proj1 (proj2 (proj2 (X2_lookup_after_Delete _ _ (KString "a") (KString "b")
                                  Hwf eq_refl)))).
Defined.

(** X3. [Delete] of a key and then [Set] of the same key puts the key at
    the end: the keys and values are those after the [Delete], followed
    by the new pair, and [Last] returns the new pair. *)
Theorem X3_Delete_then_Set_moves_to_end (h : heap) (om : OrderedMap) (k : key) (v : any) :
  wf h om -> is_nil k = false ->
  let d := Delete h om k in
  let s := Set_ d.1.1 d.1.2 k v in
  d.2 = None /\ s.2 = None /\
  (Keys s.1.1 s.1.2).2 = (fun ks => ks ++ [k]) <$> (Keys d.1.1 d.1.2).2 /\
  (Values s.1.1 s.1.2).2 = (fun vs => vs ++ [v]) <$> (Values d.1.1 d.1.2).2 /\
  (Last s.1.1 s.1.2).2 = (k, v, true).
Proof.
  intros [ls Hi] Hk d s. subst d s.
  destruct (Delete_spec h om ls k Hi Hk) as (ls' & Hi' & He & _ & _ & Hr & _).
  destruct (Delete h om k) as [[h1 om1] e1]. cbn [fst snd] in *.
  assert (has_key k (entries h1 ls') = false) as Hh.
  { rewrite He. apply has_key_remove. rewrite keys_entries. apply Hi. }
  destruct (Set_spec h1 om1 ls' k v Hi' Hk) as (Hi2 & He2 & _ & Hr2 & _).
  cbv zeta in *. rewrite Hh in Hi2, He2. unfold assoc_set in He2. rewrite Hh in He2.
  split; [done|]. split; [done|].
  rewrite (Keys_spec _ _ _ Hi2), (Values_spec _ _ _ Hi2), (Last_spec _ _ _ Hi2).
  rewrite (Keys_spec _ _ _ Hi'), (Values_spec _ _ _ Hi'), He2.
  rewrite !map_app, last_snoc. done.
Qed.

Lemma X3_witness :
  let s0 := run_Set [(KString "a", Int 1); (KString "b", Int 2)] (∅, NewOrderedMap) in
  let d := Delete s0.1 s0.2 (KString "a") in
  let s := Set_ d.1.1 d.1.2 (KString "a") (Int 3) in
  (Keys s.1.1 s.1.2).2 = Some [KString "b"; KString "a"] /\
  (Last s.1.1 s.1.2).2 = (KString "a", Int 3, true).
Proof.
  set (ops := [(KString "a", Int 1); (KString "b", Int 2)]). cbv zeta.
  assert (Hwf : wf (run_Set ops (∅, NewOrderedMap)).1 (run_Set ops (∅, NewOrderedMap)).2).
  { destruct (run_Set_new ops) as (ls & Hi & _). by exists ls. }
  destruct (X3_Delete_then_Set_moves_to_end _ _ (KString "a") (Int 3) Hwf eq_refl)
    as (_ & _ & Hkeys & _ & Hlast).
  split; [|exact Hlast]. rewrite Hkeys. vm_compute. reflexivity.
Defined.

(** X4. [Set] of a key that is not in the container, and is equal to
    itself, and then [Delete] of that key leaves the keys, the values and
    the count as they were. *)
Theorem X4_Set_then_Delete_restores (h : heap) (om : OrderedMap) (k : key) (v : any) :
  wf h om -> is_nil k = false -> key_eqb k k = true -> (Has om k).2 = false ->
  let s := Set_ h om k v in
  let d := Delete s.1.1 s.1.2 k in
  s.2 = None /\ d.2 = None /\
  (Keys d.1.1 d.1.2).2 = (Keys h om).2 /\
  (Values d.1.1 d.1.2).2 = (Values h om).2 /\
  (Len d.1.2).2 = (Len om).2.
Proof.
  intros [ls Hi] Hk Hrefl Hhas s d. subst s d.
  rewrite (Has_spec _ _ _ _ Hi) in Hhas.
  destruct (Set_spec h om ls k v Hi Hk) as (Hi1 & He1 & _ & Hr1 & _).
  cbv zeta in *. rewrite Hhas in Hi1, He1.
  unfold assoc_set in He1. rewrite Hhas in He1.
  destruct (Set_ h om k v) as [[h1 om1] e1]. cbn [fst snd] in *.
  destruct (Delete_spec h1 om1 _ k Hi1 Hk) as (ls2 & Hi2 & He2 & _ & _ & Hr2 & _).
  rewrite He1, assoc_remove_snoc in He2 by done.
  split; [done|]. split; [done|].
  destruct (Keys_Values_entries _ _ _ _ _ _ Hi2 Hi He2) as [HK HV].
  split; [done|]. split; [done|].
  rewrite (Len_spec _ _ _ Hi2), (Len_spec _ _ _ Hi).
  rewrite <- (entries_length _ _ _ Hi2), <- (entries_length _ _ _ Hi). by rewrite He2.
Qed.

Lemma X4_witness :
  let s0 := run_Set [(KString "a", Int 1)] (∅, NewOrderedMap) in
  let s := Set_ s0.1 s0.2 (KString "b") (Int 2) in
  let d := Delete s.1.1 s.1.2 (KString "b") in
  (Keys d.1.1 d.1.2).2 = Some [KString "a"] /\ (Len d.1.2).2 = 1.
Proof.
  set (ops := [(KString "a", Int 1)]). cbv zeta.
  assert (Hwf : wf (run_Set ops (∅, NewOrderedMap)).1 (run_Set ops (∅, NewOrderedMap)).2).
  { destruct (run_Set_new ops) as (ls & Hi & _). by exists ls. }
  destruct (X4_Set_then_Delete_restores _ _ (KString "b") (Int 2) Hwf eq_refl eq_refl eq_refl)
    as (_ & _ & Hkeys & _ & Hlen).
  split; [rewrite Hkeys|rewrite Hlen]; vm_compute; reflexivity.
Defined.

(** X5. A key that is not equal to itself under [==], a float that is
    NaN, is added by every [Set] as a new last entry; [Get] and [Has]
    never find it, and [Delete] of it removes nothing. *)
Theorem X5_key_not_equal_to_itself (h : heap) (om : OrderedMap) (k : key) (v : any) :
  wf h om -> key_eqb k k = false ->
  let s := Set_ h om k v in
  s.2 = None /\
  (Keys s.1.1 s.1.2).2 = (fun ks => ks ++ [k]) <$> (Keys h om).2 /\
  (Values s.1.1 s.1.2).2 = (fun vs => vs ++ [v]) <$> (Values h om).2 /\
  (Get s.1.1 s.1.2 k).2 = (Nil, false) /\
  (Has s.1.2 k).2 = false /\
  Delete s.1.1 s.1.2 k = (s.1.1, Unlock (Lock s.1.2), None).
Proof.
  intros [ls Hi] Hirr s. subst s.
  pose proof (key_irreflexive_not_nil _ Hirr) as Hk.
  destruct (Set_spec h om ls k v Hi Hk) as (Hi1 & He1 & _ & Hr1 & _).
  cbv zeta in *. rewrite (has_key_irreflexive _ _ Hirr) in Hi1, He1.
  unfold assoc_set in He1. rewrite (has_key_irreflexive _ _ Hirr) in He1.
  split; [done|].
  rewrite (Keys_spec _ _ _ Hi1), (Values_spec _ _ _ Hi1), (Get_spec _ _ _ _ Hi1).
  rewrite (Has_spec _ _ _ _ Hi1), (Keys_spec _ _ _ Hi), (Values_spec _ _ _ Hi), He1.
  rewrite !map_app.
  rewrite (assoc_get_none _ _ (has_key_irreflexive _ _ Hirr)).
  rewrite (has_key_irreflexive _ _ Hirr).
  do 4 (split; [done|]).
  apply (Delete_absent _ _ _ _ Hi1 Hk).
  rewrite (Has_spec _ _ _ _ Hi1). by apply has_key_irreflexive.
Qed.

Lemma X5_witness :
  let s0 := run_Set [(KFloat64 S754_nan, Int 1)] (∅, NewOrderedMap) in
  let s := Set_ s0.1 s0.2 (KFloat64 S754_nan) (Int 2) in
  (Keys s.1.1 s.1.2).2 = Some [KFloat64 S754_nan; KFloat64 S754_nan] /\
  (Get s.1.1 s.1.2 (KFloat64 S754_nan)).2 = (Nil, false).
Proof.
  set (ops := [(KFloat64 S754_nan, Int 1)]). cbv zeta.
  assert (Hwf : wf (run_Set ops (∅, NewOrderedMap)).1 (run_Set ops (∅, NewOrderedMap)).2).
  { destruct (run_Set_new ops) as (ls & Hi & _). by exists ls. }
  destruct (X5_key_not_equal_to_itself _ _ (KFloat64 S754_nan) (Int 2) Hwf eq_refl)
    as (_ & Hkeys & _ & Hget & _).
  split; [|exact Hget]. rewrite Hkeys. vm_compute. reflexivity.
Defined.

(** X6. [First] and [Last] return the first and the last pair in the
    order of the list, and they report that there is none exactly when
    the list is empty. *)
Theorem X6_First_Last (h : heap) (om : OrderedMap) (kvs : list (key * any)) :
  wf h om -> (Range h om (fun _ _ => true)).2 = Some kvs ->
  (First h om).2 = match kvs with
                   | [] => (KNil, Nil, false)
                   | e :: _ => (e.1, e.2, true)
                   end /\
  (Last h om).2 = match last kvs with
                  | None => (KNil, Nil, false)
                  | Some e => (e.1, e.2, true)
                  end /\
  ((First h om).2.2 = false <-> kvs = []) /\
  ((Last h om).2.2 = false <-> kvs = []).
Proof.
  intros [ls Hi] Hr. rewrite (Range_all _ _ _ Hi) in Hr. injection Hr as <-.
  rewrite (First_spec _ _ _ Hi), (Last_spec _ _ _ Hi).
  split; [done|]. split; [done|]. split.
  - by destruct (entries h ls).
  - destruct (entries h ls) as [|e l] using rev_ind; [done|].
    rewrite last_snoc. cbn. split; [done|]. by destruct l.
Qed.

Lemma X6_witness :
  let s := run_Set [(KString "a", Int 1); (KString "b", Int 2)] (∅, NewOrderedMap) in
  (First s.1 s.2).2 = (KString "a", Int 1, true) /\
  (Last s.1 s.2).2 = (KString "b", Int 2, true).
Proof.
  set (ops := [(KString "a", Int 1); (KString "b", Int 2)]). cbv zeta.
  assert (Hwf : wf (run_Set ops (∅, NewOrderedMap)).1 (run_Set ops (∅, NewOrderedMap)).2).
  { destruct (run_Set_new ops) as (ls & Hi & _). by exists ls. }
  destruct (X6_First_Last _ _ ops Hwf) as (HF & HL & _).
  - vm_compute. reflexivity.
  - by split.
Defined.

(** X7. [Range] calls the visitor on the pairs in the order of the list
    and stops after the first pair on which it returns false: the pairs it
    is called on are the first [n] pairs, all of them but the last passed,
    and either these are all the pairs or the last of them failed. *)
Theorem X7_Range_stops_at_first_false (h : heap) (om : OrderedMap)
    (f : key -> any -> bool) (kvs : list (key * any)) :
  wf h om -> (Range h om (fun _ _ => true)).2 = Some kvs ->
  exists n,
    (n <= List.length kvs)%nat /\
    (Range h om f).2 = Some (take n kvs) /\
    Forall (fun e => f e.1 e.2 = true) (take (pred n) kvs) /\
    (n = List.length kvs \/
     ((0 < n)%nat /\ exists e, kvs !! pred n = Some e /\ f e.1 e.2 = false)).
Proof.
  intros [ls Hi] Hr. rewrite (Range_all _ _ _ Hi) in Hr. injection Hr as <-.
  change ((Range h om f).2) with (visit f <$> walk (enough h) h (head om)).
  rewrite (walk_inv _ _ _ Hi). cbn [fmap option_fmap option_map].
  destruct (visit_spec f (nodes_at h ls)) as (n & Hn & Hv & Hall & Hend).
  exists n. fold (entries h ls) in *. rewrite Hv. auto.
Qed.

Lemma X7_witness :
  let s := run_Set [(KString "a", Int 1); (KString "b", Int 2); (KString "c", Int 3)]
             (∅, NewOrderedMap) in
  exists n,
    (Range s.1 s.2 (fun k _ => key_eqb k (KString "a"))).2 =
      Some (take n [(KString "a", Int 1); (KString "b", Int 2); (KString "c", Int 3)]) /\
    (n = 3%nat \/ (0 < n)%nat).
Proof.
  set (ops := [(KString "a", Int 1); (KString "b", Int 2); (KString "c", Int 3)]). cbv zeta.
  assert (Hwf : wf (run_Set ops (∅, NewOrderedMap)).1 (run_Set ops (∅, NewOrderedMap)).2).
  { destruct (run_Set_new ops) as (ls & Hi & _). by exists ls. }
  destruct (X7_Range_stops_at_first_false _ _ (fun k _ => key_eqb k (KString "a")) ops Hwf)
    as (n & _ & Hr & _ & Hend).
  - vm_compute. reflexivity.
  - exists n. split; [exact Hr|]. destruct Hend as [->|[Hpos _]]; [by left|by right].
Defined.

(** X8. [Clear] leaves an empty container, whatever the container was:
    the count is 0, there are no keys and no values, [Get] and [Has] find
    nothing, [First] and [Last] report none, and the mutex is not
    touched; a [Set] after it starts a new list. *)
Theorem X8_Clear_empties (h : heap) (om : OrderedMap) (k : key) (v : any) (k' : key) :
  let c := Clear om in
  wf h c /\ mu c = mu om /\
  (Len c).2 = 0 /\ (Keys h c).2 = Some [] /\ (Values h c).2 = Some [] /\
  (Get h c k').2 = (Nil, false) /\ (Has c k').2 = false /\
  (First h c).2 = (KNil, Nil, false) /\ (Last h c).2 = (KNil, Nil, false) /\
  (is_nil k = false ->
   let s := Set_ h c k v in
   s.2 = None /\ (Keys s.1.1 s.1.2).2 = Some [k] /\ (Values s.1.1 s.1.2).2 = Some [v] /\
   (Len s.1.2).2 = 1).
Proof.
  cbv zeta. pose proof (inv_empty h om) as Hi.
  split; [by exists []|]. split; [done|]. split; [done|].
  rewrite (Keys_spec _ _ _ Hi), (Values_spec _ _ _ Hi), (Get_spec _ _ _ _ Hi).
  rewrite (Has_spec _ _ _ _ Hi), (First_spec _ _ _ Hi), (Last_spec _ _ _ Hi).
  do 6 (split; [done|]).
  intros Hk. destruct (Set_spec h (Clear om) [] k v Hi Hk) as (Hi1 & He1 & _ & Hr1 & _).
  cbv zeta in *. change (has_key k (entries h [])) with false in *.
  cbn iota in Hi1, He1.
  rewrite (Keys_spec _ _ _ Hi1), (Values_spec _ _ _ Hi1), (Len_spec _ _ _ Hi1), He1.
  done.
Qed.

Lemma X8_witness :
  let s0 := run_Set [(KString "a", Int 1); (KString "b", Int 2)] (∅, NewOrderedMap) in
  let s := Set_ s0.1 (Clear s0.2) (KString "c") (Int 3) in
  (Keys s.1.1 s.1.2).2 = Some [KString "c"] /\ (Len s.1.2).2 = 1.
Proof.
  cbv zeta.
  destruct (X8_Clear_empties
              (run_Set [(KString "a", Int 1); (KString "b", Int 2)] (∅, NewOrderedMap)).1
              (run_Set [(KString "a", Int 1); (KString "b", Int 2)] (∅, NewOrderedMap)).2
              (KString "c") (Int 3) KNil)
    as (_ & _ & _ & _ & _ & _ & _ & _ & _ & Hset).
  destruct (Hset eq_refl) as (_ & Hk & _ & Hl). by split.
Defined.

(** X9. [Reverse] returns a new container with the pairs of the source in
    the opposite order and the same count, under a read lock that it
    releases; the source keeps its keys and values, and the two share no
    node: later [Set] and [Delete] calls on one leave the other as it
    was. *)
Theorem X9_Reverse (h : heap) (om : OrderedMap) (ca cb : list call) :
  wf h om ->
  exists h1 om1 r,
    Reverse h om = Some (h1, om1, r) /\ wf h1 r /\
    (Keys h1 r).2 = (fun ks => rev ks) <$> (Keys h om).2 /\
    (Values h1 r).2 = (fun vs => rev vs) <$> (Values h om).2 /\
    (Len r).2 = (Len om).2 /\
    (Keys h1 om1).2 = (Keys h om).2 /\ (Values h1 om1).2 = (Values h om).2 /\
    mu om1 = mu om ++ [EvRLock; EvRUnlock] /\
    (let a := run_calls ca (h1, om1) in
     (Keys a.1 r).2 = (Keys h1 r).2 /\ (Values a.1 r).2 = (Values h1 r).2) /\
    (let b := run_calls cb (h1, r) in
     (Keys b.1 om1).2 = (Keys h1 om1).2 /\ (Values b.1 om1).2 = (Values h1 om1).2).
Proof.
  intros [ls Hi].
  destruct (Reverse_spec h om ls Hi) as (h1 & r & lr & HR & Hi1 & Hr & Hd & Her & Heo & _).
  exists h1, (RUnlock (RLock om)), r. split; [done|]. split; [by exists lr|].
  assert ((Keys h1 r).2 = (fun ks => rev ks) <$> (Keys h om).2) as HKr.
  { rewrite (Keys_spec _ _ _ Hr), (Keys_spec _ _ _ Hi), Her. by rewrite map_rev. }
  assert ((Values h1 r).2 = (fun vs => rev vs) <$> (Values h om).2) as HVr.
  { rewrite (Values_spec _ _ _ Hr), (Values_spec _ _ _ Hi), Her. by rewrite map_rev. }
  destruct (Keys_Values_entries _ _ _ _ _ _ Hi1 Hi Heo) as [HK HV].
  do 2 (split; [done|]). split.
  { rewrite (Len_spec _ _ _ Hr), (Len_spec _ _ _ Hi).
    rewrite <- (entries_length _ _ _ Hr), <- (entries_length _ _ _ Hi), Her.
    by rewrite length_rev. }
  do 2 (split; [done|]).
  split; [unfold RUnlock, RLock, mu_call; cbn [mu]; by rewrite <- app_assoc|]. split.
  - apply (separate_calls h1 _ ls r lr ca Hi1 Hr Hd).
  - apply (separate_calls h1 r lr _ ls cb Hr Hi1). by apply disjoint_sym_list.
Qed.

Lemma X9_witness :
  let s := run_Set [(KString "a", Int 1); (KString "b", Int 2); (KString "c", Int 3)]
             (∅, NewOrderedMap) in
  exists h1 om1 r,
    Reverse s.1 s.2 = Some (h1, om1, r) /\
    (Keys h1 r).2 = Some [KString "c"; KString "b"; KString "a"] /\
    (Values h1 r).2 = Some [Int 3; Int 2; Int 1].
Proof.
  set (ops := [(KString "a", Int 1); (KString "b", Int 2); (KString "c", Int 3)]). cbv zeta.
  assert (Hwf : wf (run_Set ops (∅, NewOrderedMap)).1 (run_Set ops (∅, NewOrderedMap)).2).
  { destruct (run_Set_new ops) as (ls & Hi & _). by exists ls. }
  destruct (X9_Reverse _ _ [] [] Hwf) as (h1 & om1 & r & HR & _ & Hk & Hv & _).
  exists h1, om1, r. split; [exact HR|]. rewrite Hk, Hv. by vm_compute.
Defined.

(** X10. [Reverse] of the result of [Reverse] has the keys and values of
    the first container, in its order. *)
Theorem X10_Reverse_twice (h : heap) (om : OrderedMap) :
  wf h om ->
  exists h1 om1 r h2 r1 rr,
    Reverse h om = Some (h1, om1, r) /\
    Reverse h1 r = Some (h2, r1, rr) /\
    (Keys h2 rr).2 = (Keys h om).2 /\ (Values h2 rr).2 = (Values h om).2.
Proof.
  intros [ls Hi].
  destruct (Reverse_spec h om ls Hi) as (h1 & r & lr & HR & _ & Hr & _ & Her & _).
  destruct (Reverse_spec h1 r lr Hr) as (h2 & rr & lrr & HRR & _ & Hrr & _ & Herr & _).
  exists h1, (RUnlock (RLock om)), r, h2, (RUnlock (RLock r)), rr.
  split; [done|]. split; [done|].
  apply (Keys_Values_entries _ _ _ _ _ _ Hrr Hi).
  by rewrite Herr, Her, rev_involutive.
Qed.

Lemma X10_witness :
  let s := run_Set [(KString "a", Int 1); (KString "b", Int 2)] (∅, NewOrderedMap) in
  exists h1 om1 r h2 r1 rr,
    Reverse s.1 s.2 = Some (h1, om1, r) /\
    Reverse h1 r = Some (h2, r1, rr) /\
    (Keys h2 rr).2 = Some [KString "a"; KString "b"].
Proof.
  set (ops := [(KString "a", Int 1); (KString "b", Int 2)]). cbv zeta.
  assert (Hwf : wf (run_Set ops (∅, NewOrderedMap)).1 (run_Set ops (∅, NewOrderedMap)).2).
  { destruct (run_Set_new ops) as (ls & Hi & _). by exists ls. }
  destruct (X10_Reverse_twice _ _ Hwf) as (h1 & om1 & r & h2 & r1 & rr & H1 & H2 & Hk & _).
  exists h1, om1, r, h2, r1, rr. split; [exact H1|]. split; [exact H2|].
  rewrite Hk. by vm_compute.
Defined.

(** X11. [Filter] returns a new container with exactly the pairs of the
    source on which the predicate holds, in the order of the source; the
    source keeps its keys and values, and the two share no node. *)
Theorem X11_Filter (h : heap) (om : OrderedMap) (predicate : key -> any -> bool)
    (ca cb : list call) :
  wf h om ->
  exists h1 om1 r,
    Filter h om predicate = Some (h1, om1, r) /\ wf h1 r /\
    (Range h1 r (fun _ _ => true)).2 =
      filter (fun e => predicate e.1 e.2) <$> (Range h om (fun _ _ => true)).2 /\
    (Keys h1 om1).2 = (Keys h om).2 /\ (Values h1 om1).2 = (Values h om).2 /\
    mu om1 = mu om ++ [EvRLock; EvRUnlock] /\
    (let a := run_calls ca (h1, om1) in
     (Keys a.1 r).2 = (Keys h1 r).2 /\ (Values a.1 r).2 = (Values h1 r).2) /\
    (let b := run_calls cb (h1, r) in
     (Keys b.1 om1).2 = (Keys h1 om1).2 /\ (Values b.1 om1).2 = (Values h1 om1).2).
Proof.
  intros [ls Hi].
  destruct (Filter_spec h om ls predicate Hi)
    as (h1 & r & lr & HR & Hi1 & Hr & Hd & Her & Heo & _).
  exists h1, (RUnlock (RLock om)), r. split; [done|]. split; [by exists lr|].
  split; [by rewrite (Range_all _ _ _ Hr), (Range_all _ _ _ Hi), Her|].
  destruct (Keys_Values_entries _ _ _ _ _ _ Hi1 Hi Heo) as [HK HV].
  do 2 (split; [done|]).
  split; [unfold RUnlock, RLock, mu_call; cbn [mu]; by rewrite <- app_assoc|]. split.
  - apply (separate_calls h1 _ ls r lr ca Hi1 Hr Hd).
  - apply (separate_calls h1 r lr _ ls cb Hr Hi1). by apply disjoint_sym_list.
Qed.

Lemma X11_witness :
  let s := run_Set [(KString "a", Int 1); (KString "b", Int 20); (KString "c", Int 30)]
             (∅, NewOrderedMap) in
  let big := fun (_ : key) (v : any) => match v with Int n => 10 <? n | _ => false end in
  exists h1 om1 r,
    Filter s.1 s.2 big = Some (h1, om1, r) /\
    (Range h1 r (fun _ _ => true)).2 = Some [(KString "b", Int 20); (KString "c", Int 30)].
Proof.
  set (ops := [(KString "a", Int 1); (KString "b", Int 20); (KString "c", Int 30)]). cbv zeta.
  assert (Hwf : wf (run_Set ops (∅, NewOrderedMap)).1 (run_Set ops (∅, NewOrderedMap)).2).
  { destruct (run_Set_new ops) as (ls & Hi & _). by exists ls. }
  destruct (X11_Filter _ _
              (fun (_ : key) (v : any) => match v with Int n => 10 <? n | _ => false end)
              [] [] Hwf) as (h1 & om1 & r & HR & _ & Hk & _).
  exists h1, om1, r. split; [exact HR|]. rewrite Hk. by vm_compute.
Defined.

(** X12. [Map] returns the container that [Set] calls with the mapped
    pairs, in the order of the source, build from a new container: a pair
    mapped to a nil key is dropped, the error of [Set] being ignored, and
    pairs mapped to equal keys become one entry; so the result never has
    more entries than the source.  The source keeps its keys and values,
    and the two share no node. *)
Theorem X12_Map_as_Set_calls (h : heap) (om : OrderedMap)
    (mapper : key -> any -> key * any) (kvs : list (key * any)) (ca cb : list call) :
  wf h om -> (Range h om (fun _ _ => true)).2 = Some kvs ->
  let s := run_Set (map (fun e => mapper e.1 e.2) kvs) (∅, NewOrderedMap) in
  exists h1 om1 r,
    Map h om mapper = Some (h1, om1, r) /\ wf h1 r /\
    (Keys h1 r).2 = (Keys s.1 s.2).2 /\ (Values h1 r).2 = (Values s.1 s.2).2 /\
    (exists ks, (Keys h1 r).2 = Some ks /\ (List.length ks <= List.length kvs)%nat) /\
    (Keys h1 om1).2 = (Keys h om).2 /\ (Values h1 om1).2 = (Values h om).2 /\
    mu om1 = mu om ++ [EvRLock; EvRUnlock] /\
    (let a := run_calls ca (h1, om1) in
     (Keys a.1 r).2 = (Keys h1 r).2 /\ (Values a.1 r).2 = (Values h1 r).2) /\
    (let b := run_calls cb (h1, r) in
     (Keys b.1 om1).2 = (Keys h1 om1).2 /\ (Values b.1 om1).2 = (Values h1 om1).2).
Proof.
  intros [ls Hi] HR s. subst s.
  rewrite (Range_all _ _ _ Hi) in HR. injection HR as <-.
  destruct (Map_spec h om ls mapper Hi)
    as (h1 & r & lr & HM & Hi1 & Hr & Hd & Her & Heo & _).
  exists h1, (RUnlock (RLock om)), r. split; [done|]. split; [by exists lr|].
  rewrite run_Set_calls, map_map.
  destruct (run_calls_spec
              (map (fun e => CallSet (mapper e.1 e.2).1 (mapper e.1 e.2).2) (entries h ls))
              ∅ NewOrderedMap [] (inv_new ∅)) as (l' & Hs & Hes & _).
  change (entries ∅ []) with (@nil (key * any)) in Hes.
  rewrite <- Her in Hes. symmetry in Hes.
  destruct (Keys_Values_entries _ _ _ _ _ _ Hr Hs Hes) as [HK HV].
  destruct (Keys_Values_entries _ _ _ _ _ _ Hi1 Hi Heo) as [HKo HVo].
  do 2 (split; [done|]). split.
  { exists (map fst (entries h1 lr)). split; [by apply Keys_spec|].
    rewrite length_map, Her.
    pose proof (fold_calls_length
                  (map (fun e => CallSet (mapper e.1 e.2).1 (mapper e.1 e.2).2) (entries h ls))
                  []) as Hl.
    rewrite length_map in Hl. exact Hl. }
  do 2 (split; [done|]).
  split; [unfold RUnlock, RLock, mu_call; cbn [mu]; by rewrite <- app_assoc|]. split.
  - apply (separate_calls h1 _ ls r lr ca Hi1 Hr Hd).
  - apply (separate_calls h1 r lr _ ls cb Hr Hi1). by apply disjoint_sym_list.
Qed.

Lemma X12_witness :
  let s := run_Set [(KString "a", Int 1); (KString "b", Int 2); (KString "c", Int 3)]
             (∅, NewOrderedMap) in
  let mapper := fun (k : key) (v : any) =>
    (if key_eqb k (KString "b") then KNil else KString "x", v) in
  exists h1 om1 r,
    Map s.1 s.2 mapper = Some (h1, om1, r) /\
    (Keys h1 r).2 = Some [KString "x"] /\ (Values h1 r).2 = Some [Int 3].
Proof.
  set (ops := [(KString "a", Int 1); (KString "b", Int 2); (KString "c", Int 3)]). cbv zeta.
  assert (Hwf : wf (run_Set ops (∅, NewOrderedMap)).1 (run_Set ops (∅, NewOrderedMap)).2).
  { destruct (run_Set_new ops) as (ls & Hi & _). by exists ls. }
  destruct (X12_Map_as_Set_calls _ _
              (fun (k : key) (v : any) =>
                 (if key_eqb k (KString "b") then KNil else KString "x", v))
              ops [] [] Hwf) as (h1 & om1 & r & HM & _ & Hk & Hv & _).
  - vm_compute. reflexivity.
  - exists h1, om1, r. split; [exact HM|]. rewrite Hk, Hv. by vm_compute.
Defined.

(** X13. [Map] with a mapper that returns the key it is given keeps the
    keys and their order, and puts the mapped value at each key. *)
Theorem X13_Map_keeping_keys (h : heap) (om : OrderedMap)
    (mapper : key -> any -> key * any) (kvs : list (key * any)) :
  wf h om -> (Range h om (fun _ _ => true)).2 = Some kvs ->
  (forall k v, (mapper k v).1 = k) ->
  exists h1 om1 r,
    Map h om mapper = Some (h1, om1, r) /\
    (Range h1 r (fun _ _ => true)).2 =
      Some (map (fun e => (e.1, (mapper e.1 e.2).2)) kvs) /\
    (Keys h1 r).2 = (Keys h om).2 /\
    (Len r).2 = (Len om).2.
Proof.
  intros [ls Hi] HR Hkeep.
  rewrite (Range_all _ _ _ Hi) in HR. injection HR as <-.
  destruct (Map_spec h om ls mapper Hi)
    as (h1 & r & lr & HM & Hi1 & Hr & Hd & Her & Heo & _).
  exists h1, (RUnlock (RLock om)), r. split; [done|].
  assert (entries h1 lr = map (fun e => (e.1, (mapper e.1 e.2).2)) (entries h ls)) as He.
  { rewrite Her.
    replace (map (fun e => CallSet (mapper e.1 e.2).1 (mapper e.1 e.2).2) (entries h ls))
      with (map (fun e : key * any => CallSet e.1 e.2)
              (map (fun e => (e.1, (mapper e.1 e.2).2)) (entries h ls))).
    2:{ rewrite map_map. apply map_ext. intros e. cbn [fst snd]. by rewrite Hkeep. }
    apply fold_calls_distinct.
    - apply Forall_forall. intros e He. apply list_elem_of_fmap in He as (e0 & -> & He0).
      pose proof (inv_nonnil_entries _ _ _ Hi) as Hnn. rewrite Forall_forall in Hnn.
      cbn [fst]. by apply Hnn.
    - rewrite map_map. cbn [fst]. rewrite keys_entries. apply Hi. }
  split; [by rewrite (Range_all _ _ _ Hr), He|].
  split.
  - rewrite (Keys_spec _ _ _ Hr), (Keys_spec _ _ _ Hi), He. by rewrite map_map.
  - rewrite (Len_spec _ _ _ Hr), (Len_spec _ _ _ Hi).
    rewrite <- (entries_length _ _ _ Hr), <- (entries_length _ _ _ Hi), He.
    by rewrite length_map.
Qed.

Lemma X13_witness :
  let s := run_Set [(KString "a", Int 1); (KString "b", Str "x")] (∅, NewOrderedMap) in
  let double := fun (k : key) (v : any) =>
    (k, match v with Int n => Int (wrap64 (n * 2)) | _ => v end) in
  exists h1 om1 r,
    Map s.1 s.2 double = Some (h1, om1, r) /\
    (Range h1 r (fun _ _ => true)).2 = Some [(KString "a", Int 2); (KString "b", Str "x")].
Proof.
  set (ops := [(KString "a", Int 1); (KString "b", Str "x")]). cbv zeta.
  assert (Hwf : wf (run_Set ops (∅, NewOrderedMap)).1 (run_Set ops (∅, NewOrderedMap)).2).
  { destruct (run_Set_new ops) as (ls & Hi & _). by exists ls. }
  destruct (X13_Map_keeping_keys _ _
              (fun (k : key) (v : any) =>
                 (k, match v with Int n => Int (wrap64 (n * 2)) | _ => v end))
              ops Hwf) as (h1 & om1 & r & HM & HR & _).
  - vm_compute. reflexivity.
  - reflexivity.
  - exists h1, om1, r. split; [exact HM|]. rewrite HR. by vm_compute.
Defined.

(** X14. [String] writes the pairs in the order of the list, each as the
    key, a colon, a blank and the value, separated by a comma and a
    blank, between braces; an empty container gives the two braces. *)
Theorem X14_String_lists_pairs `{GoLib} (h : heap) (om : OrderedMap)
    (kvs : list (key * any)) :
  wf h om -> (Range h om (fun _ _ => true)).2 = Some kvs ->
  (String_ h om).2 =
    Some ("{" +:+ join_with ", "
                    (map (fun e => Sprint e.1 +:+ ": " +:+ Sprint_any e.2) kvs)
          +:+ "}") /\
  (kvs = [] -> (String_ h om).2 = Some "{}") /\
  mu (String_ h om).1 = mu om ++ [EvRLock; EvRUnlock].
Proof.
  intros [ls Hi] HR. rewrite (Range_all _ _ _ Hi) in HR. injection HR as <-.
  rewrite (String_spec _ _ _ Hi). split; [done|]. split.
  - by intros ->.
  - unfold String_, RUnlock, RLock, mu_call. cbn [fst mu]. by rewrite <- app_assoc.
Qed.

Lemma X14_witness :
  let s := run_Set [(KString "key1", Str "value1"); (KInt 2, Nil);
                    (KBool true, Slice [Int 1; Str "x"])] (∅, NewOrderedMap) in
  (@String_ exact_lib s.1 s.2).2 = Some "{key1: value1, 2: <nil>, true: [1 x]}".
Proof.
  set (ops := [(KString "key1", Str "value1"); (KInt 2, Nil);
               (KBool true, Slice [Int 1; Str "x"])]). cbv zeta.
  assert (Hwf : wf (run_Set ops (∅, NewOrderedMap)).1 (run_Set ops (∅, NewOrderedMap)).2).
  { destruct (run_Set_new ops) as (ls & Hi & _). by exists ls. }
  destruct (@X14_String_lists_pairs exact_lib _ _ ops Hwf) as (HS & _).
  - vm_compute. reflexivity.
  - rewrite HS. by vm_compute.
Defined.

(** X15. [ToJSON] with nil options, or with keys as text, values as they
    are and no indentation, returns what [MarshalJSON] returns, and makes
    the same calls on the mutex. *)
Theorem X15_ToJSON_default_is_MarshalJSON `{GoLib} (h : heap) (om : OrderedMap)
    (o : JSONOptions) :
  ToJSON h om None = MarshalJSON h om /\
  (KeyAsString o = true -> PreserveType o = false -> PrettyPrint o = false ->
   ToJSON h om (Some o) = MarshalJSON h om).
Proof.
  assert (forall o', KeyAsString o' = true -> PreserveType o' = false ->
                     PrettyPrint o' = false ->
                     ToJSON h om (Some o') = MarshalJSON h om) as Hgen.
  { intros o' Hk Hp Hpp. unfold ToJSON, MarshalJSON.
    change (default default_ToJSON (Some o')) with o'.
    f_equal. destruct (walk (enough h) h (head (RLock om))) as [l|]; [|done].
    cbn [fmap option_fmap option_map].
    by rewrite (ToJSON_loop_MarshalJSON o' l ∅ Hk Hp), Hpp. }
  split; [|apply Hgen]. by apply (Hgen default_ToJSON).
Qed.

Lemma X15_witness :
  let s := run_Set [(KString "b", Int 1); (KInt 7, Str "x")] (∅, NewOrderedMap) in
  @ToJSON exact_lib s.1 s.2 (Some (mkJSONOptions true false false))
  = @MarshalJSON exact_lib s.1 s.2.
Proof.
  cbv zeta.
  exact (proj2 (@X15_ToJSON_default_is_MarshalJSON exact_lib _ _
                  (mkJSONOptions true false false)) eq_refl eq_refl eq_refl).
Defined.

(** X16. [FromJSON] reads the first value of its input and ignores what
    follows it, so two inputs with the same first value give the same
    result; [UnmarshalJSON] returns a syntax error, and changes nothing,
    when anything but white space follows the value; when nothing does,
    [FromJSON] with nil options and [UnmarshalJSON] do the same. *)
Theorem X16_trailing_data `{GoLib} (visit : range_order) (h : heap) (om : OrderedMap)
    (data data' : string) (j : json) (rest rest' : string) (opts : option JSONOptions) :
  parse data = Some (j, rest) ->
  (parse data' = Some (j, rest') ->
   FromJSON visit h om data' opts = FromJSON visit h om data opts) /\
  (skip_ws rest <> "" -> UnmarshalJSON visit h om data = (h, om, Some SyntaxError)) /\
  (skip_ws rest = "" -> FromJSON visit h om data None = UnmarshalJSON visit h om data).
Proof.
  intros Hp.
  assert (forall u d r, parse d = Some (j, r) ->
            Decoder_Decode u d ∅ = unmarshal_map u j ∅) as Hdec.
  { intros u d r Hd. unfold Decoder_Decode. rewrite Hd.
    pose proof (parse_not_blank _ _ _ Hd). by destruct (skip_ws d). }
  split; [|split].
  - intros Hp'. unfold FromJSON. by rewrite (Hdec _ _ _ Hp), (Hdec _ _ _ Hp').
  - intros Hr. unfold UnmarshalJSON, json_Unmarshal. rewrite Hp.
    by destruct (skip_ws rest).
  - intros Hr. unfold FromJSON, UnmarshalJSON, json_Unmarshal.
    change (default default_FromJSON None) with default_FromJSON.
    rewrite (Hdec _ _ _ Hp), Hp, Hr.
    change (PreserveType default_FromJSON) with false.
    by destruct (unmarshal_map false j ∅).
Qed.

Lemma X16_witness :
  let data := "{" +:+ quoted "a" +:+ ":1} trailing" in
  let data' := "{" +:+ quoted "a" +:+ ":1}" in
  @FromJSON exact_lib map_to_list ∅ NewOrderedMap data' None
    = @FromJSON exact_lib map_to_list ∅ NewOrderedMap data None /\
  @UnmarshalJSON exact_lib map_to_list ∅ NewOrderedMap data
    = (∅, NewOrderedMap, Some SyntaxError).
Proof.
  cbv zeta.
  destruct (@X16_trailing_data exact_lib map_to_list ∅ NewOrderedMap
              ("{" +:+ quoted "a" +:+ ":1} trailing") ("{" +:+ quoted "a" +:+ ":1}")
              (JObject [("a", JNumber "1")]) " trailing" "" None)
    as (H1 & H2 & _).
  - vm_compute. reflexivity.
  - split; [apply H1; vm_compute; reflexivity|apply H2; vm_compute; discriminate].
Defined.

(** X17. For a container of text keys and scalars, [MarshalJSON]
    succeeds, and [UnmarshalJSON] of the bytes, into any container, gives
    a container with the same keys, in the order in which the runtime
    visits the decoded map, the same count, and at each key the value that
    was there, an integer as the float nearest to it. *)
Theorem X17_MarshalJSON_UnmarshalJSON `{GoLib} (visit : range_order) (h : heap)
    (om : OrderedMap) (h2 : heap) (om2 : OrderedMap) (kvs : list (key * any)) :
  wf h om -> is_range visit ->
  (Range h om (fun _ _ => true)).2 = Some kvs ->
  Forall (pair_ok default_ToJSON) kvs ->
  exists bytes, (MarshalJSON h om).2 = Some (inr bytes) /\
    let r := UnmarshalJSON visit h2 om2 bytes in
    r.2 = None /\
    (forall s v, (KString s, v) ∈ kvs ->
       (Get r.1.1 r.1.2 (KString s)).2 = (json_image v, true)) /\
    (exists ks, (Keys r.1.1 r.1.2).2 = Some ks /\ ks ≡ₚ map fst kvs) /\
    (Len r.1.2).2 = (Len om).2.
Proof.
  intros [ls Hi] Hv HR Hok. rewrite (Range_all _ _ _ Hi) in HR. injection HR as <-.
  destruct (written_map default_ToJSON h om ls Hi Hok) as (m & Hm & Hsc & Hdom & Hval).
  rewrite ToJSON_loop_MarshalJSON in Hm by done. injection Hm as Hm.
  destruct (marshal_decode None false m Hsc) as (bytes & M & Hmm & _ & Hun & HMdom & HMval).
  specialize (Hun eq_refl).
  exists bytes. split.
  { change ((MarshalJSON h om).2) with
      ((fun l => json_Marshal (MarshalJSON_loop l ∅)) <$> walk (enough h) h (head om)).
    rewrite (walk_inv _ _ _ Hi). cbn [fmap option_fmap option_map].
    rewrite Hm. unfold json_Marshal. by rewrite Hmm. }
  destruct (UnmarshalJSON_entries visit h2 om2 bytes M Hv Hun) as (Hnone & _ & lr & Hr & Her).
  cbv zeta. split; [done|].
  assert (map fst (entries (UnmarshalJSON visit h2 om2 bytes).1.1 lr) ≡ₚ map fst (entries h ls))
    as Hperm.
  { rewrite Her, map_map. cbn [fst]. rewrite <- (map_map fst KString).
    apply (keys_after_load visit m M); try done.
    - apply distinct_text_NoDup; [rewrite keys_entries; apply Hi|by apply (text_keys default_ToJSON)].
    - by apply (text_keys default_ToJSON). }
  split; [|split].
  - intros s v Hsv. destruct (HMval s _ (Hval s v Hsv)) as (y & Hy & HMy).
    rewrite (UnmarshalJSON_Get visit h2 om2 bytes M s y Hv Hun HMy).
    rewrite Forall_forall in Hok. destruct (Hok _ Hsv) as [_ Hs]. cbn [snd] in Hs.
    destruct (to_any_scalar default_FromJSON s _ Hs) as (y' & Hy' & Hc).
    change (PreserveType default_FromJSON) with false in Hy'.
    assert (y' = y) as -> by congruence. f_equal. exact Hc.
  - exists (map fst (entries (UnmarshalJSON visit h2 om2 bytes).1.1 lr)).
    split; [by apply Keys_spec|done].
  - rewrite (Len_spec _ _ _ Hr), (Len_spec _ _ _ Hi).
    rewrite <- (entries_length _ _ _ Hr), <- (entries_length _ _ _ Hi).
    apply Permutation_length in Hperm. rewrite !length_map in Hperm. by rewrite Hperm.
Qed.

Lemma X17_witness :
  let s := run_Set [(KString "b", Int 42); (KString "a", Str "x")] (∅, NewOrderedMap) in
  exists bytes, (@MarshalJSON exact_lib s.1 s.2).2 = Some (inr bytes) /\
    let r := @UnmarshalJSON exact_lib map_to_list ∅ NewOrderedMap bytes in
    (Get r.1.1 r.1.2 (KString "b")).2 = (Float64 (float64_of_int 42), true) /\
    (Len r.1.2).2 = 2.
Proof.
  set (ops := [(KString "b", Int 42); (KString "a", Str "x")]). cbv zeta.
  assert (Hwf : wf (run_Set ops (∅, NewOrderedMap)).1 (run_Set ops (∅, NewOrderedMap)).2).
  { destruct (run_Set_new ops) as (ls & Hi & _). by exists ls. }
  destruct (@X17_MarshalJSON_UnmarshalJSON exact_lib map_to_list _ _ ∅ NewOrderedMap ops
              Hwf is_range_identity) as (bytes & HM & _ & Hget & _ & Hlen).
  - vm_compute. reflexivity.
  - repeat constructor; try (by eexists); vm_compute; auto.
  - exists bytes. split; [exact HM|]. split.
    + apply (Hget "b" (Int 42)). subst ops. repeat constructor.
    + rewrite Hlen. by vm_compute.
Defined.

(** X18. The object that [MarshalJSON] writes lists its members in the
    order of the bytes of the key texts, not in the order of the list,
    and each key text once: entries whose keys are written alike, as the
    integer 1 and the text [1], are one member, with the value of the
    last of them. *)
Theorem X18_MarshalJSON_sorted_and_merged `{GoLib} (h : heap) (om : OrderedMap)
    (kvs : list (key * any)) (bytes : string) :
  wf h om -> (Range h om (fun _ _ => true)).2 = Some kvs ->
  (MarshalJSON h om).2 = Some (inr bytes) ->
  exists ts,
    bytes = bracket None "{" "}" (map (member_text None) ts) /\
    Sorted (fun a b => String.leb a b = true) (map fst ts) /\
    NoDup (map fst ts) /\
    (forall s, s ∈ map fst ts <-> s ∈ map (fun e => Sprint e.1) kvs) /\
    (forall s t, (s, t) ∈ ts ->
       exists e, last (filter (fun e => Sprint e.1 = s) kvs) = Some e /\
                 marshal_any None e.2 = inr t).
Proof.
  intros [ls Hi] HR HM. rewrite (Range_all _ _ _ Hi) in HR. injection HR as <-.
  revert HM.
  change ((MarshalJSON h om).2) with
    ((fun l => json_Marshal (MarshalJSON_loop l ∅)) <$> walk (enough h) h (head om)).
  rewrite (walk_inv _ _ _ Hi). cbn [fmap option_fmap option_map]. intros [= HM].
  set (m := MarshalJSON_loop (nodes_at h ls) ∅) in *.
  assert (forall s, m !! s = snd <$> last (filter (fun e => Sprint e.1 = s) (entries h ls)))
    as Hm by (intros s; apply MarshalJSON_loop_entries).
  destruct (marshal_map_members None m bytes HM) as (ts & Hb & Hsort & Hnd & Hts & Hdom).
  exists ts. do 3 (split; [done|]). split.
  - intros s. split.
    + intros Hs. apply list_elem_of_fmap in Hs as ([s' t] & -> & Hst).
      destruct (Hts _ _ Hst) as (v & Hv & _). rewrite Hm in Hv.
      destruct (last _) as [e|] eqn:E; [|done].
      apply last_filter_elem in E as [He <-]. apply list_elem_of_fmap. by exists e.
    + intros Hs. apply list_elem_of_fmap in Hs as (e & -> & He).
      apply Hdom. rewrite Hm.
      assert (is_Some (last (filter (fun e0 : key * any => Sprint e0.1 = Sprint e.1)
                               (entries h ls)))) as [x Hx].
      { apply last_filter_Some. by exists e. }
      rewrite Hx. by eexists.
  - intros s t Hst. destruct (Hts _ _ Hst) as (v & Hv & Ht). rewrite Hm in Hv.
    destruct (last _) as [e|] eqn:E; [|done]. injection Hv as <-. by exists e.
Qed.

Lemma X18_witness :
  let s := run_Set [(KInt 1, Str "x"); (KString "b", Int 2); (KString "1", Str "y")]
             (∅, NewOrderedMap) in
  exists ts,
    "{" +:+ quoted "1" +:+ ":" +:+ quoted "y" +:+ "," +:+ quoted "b" +:+ ":2}"
      = bracket None "{" "}" (map (member_text None) ts) /\
    NoDup (map fst ts).
Proof.
  set (ops := [(KInt 1, Str "x"); (KString "b", Int 2); (KString "1", Str "y")]). cbv zeta.
  assert (Hwf : wf (run_Set ops (∅, NewOrderedMap)).1 (run_Set ops (∅, NewOrderedMap)).2).
  { destruct (run_Set_new ops) as (ls & Hi & _). by exists ls. }
  destruct (@X18_MarshalJSON_sorted_and_merged exact_lib _ _ ops
              ("{" +:+ quoted "1" +:+ ":" +:+ quoted "y" +:+ "," +:+ quoted "b" +:+ ":2}") Hwf)
    as (ts & Hb & _ & Hnd & _).
  - vm_compute. reflexivity.
  - vm_compute. reflexivity.
  - by exists ts.
Defined.

(** X19. After [UnmarshalJSON] the container holds exactly the members
    of the decoded object, whatever it held before, in the order in which
    the runtime visits the decoded map, not in the order of the input: a
    runtime that visits the map in the opposite order gives the opposite
    order of keys. *)
Theorem X19_UnmarshalJSON_order `{GoLib} (visit : range_order) (h : heap)
    (om : OrderedMap) (data : string) (tmpMap : gmap string any) :
  is_range visit -> json_Unmarshal data ∅ = inr tmpMap ->
  let r := UnmarshalJSON visit h om data in
  let r' := UnmarshalJSON (fun m => rev (visit m)) h om data in
  r.2 = None /\
  (Range r.1.1 r.1.2 (fun _ _ => true)).2 =
    Some (map (fun kv => (KString kv.1, kv.2)) (visit tmpMap)) /\
  (Len r.1.2).2 = wrap64 (Z.of_nat (size tmpMap)) /\
  mu r.1.2 = mu om ++ [EvLock; EvUnlock] /\
  is_range (fun m => rev (visit m)) /\
  (Range r'.1.1 r'.1.2 (fun _ _ => true)).2 =
    Some (rev (map (fun kv => (KString kv.1, kv.2)) (visit tmpMap))).
Proof.
  intros Hv Hd r r'. subst r r'.
  assert (is_range (fun m => rev (visit m))) as Hv'.
  { intros m. rewrite <- (Hv m). symmetry. apply Permutation_rev. }
  destruct (UnmarshalJSON_entries visit h om data tmpMap Hv Hd)
    as (Hnone & Hmu & lr & Hr & Her).
  destruct (UnmarshalJSON_entries _ h om data tmpMap Hv' Hd)
    as (_ & _ & lr' & Hr' & Her').
  split; [done|]. split; [by rewrite (Range_all _ _ _ Hr), Her|]. split.
  { rewrite (Len_spec _ _ _ Hr), <- (entries_length _ _ _ Hr), Her, length_map.
    by rewrite (Permutation_length (Hv tmpMap)), length_map_to_list. }
  split; [done|]. split; [done|].
  by rewrite (Range_all _ _ _ Hr'), Her', map_rev.
Qed.

Lemma X19_witness :
  let data := "{" +:+ quoted "b" +:+ ":1," +:+ quoted "a" +:+ ":2}" in
  let s := run_Set [(KString "old", Int 0)] (∅, NewOrderedMap) in
  let r := @UnmarshalJSON exact_lib map_to_list s.1 s.2 data in
  exists tmpMap,
    (Range r.1.1 r.1.2 (fun _ _ => true)).2 =
      Some (map (fun kv => (KString kv.1, kv.2)) (map_to_list tmpMap)) /\
    (Len r.1.2).2 = 2.
Proof.
  cbv zeta.
  destruct (@json_Unmarshal exact_lib ("{" +:+ quoted "b" +:+ ":1," +:+ quoted "a" +:+ ":2}") ∅)
    as [e|tmpMap] eqn:E; [by vm_compute in E|].
  assert (size tmpMap = 2%nat) as Hsize.
  { assert (inr tmpMap = @json_Unmarshal exact_lib
              ("{" +:+ quoted "b" +:+ ":1," +:+ quoted "a" +:+ ":2}") ∅) as E' by done.
    vm_compute in E'. injection E' as ->. by vm_compute. }
  destruct (@X19_UnmarshalJSON_order exact_lib map_to_list
              (run_Set [(KString "old", Int 0)] (∅, NewOrderedMap)).1
              (run_Set [(KString "old", Int 0)] (∅, NewOrderedMap)).2
              _ tmpMap is_range_identity E) as (_ & HR & HL & _).
  exists tmpMap. split; [exact HR|]. rewrite HL, Hsize. by vm_compute.
Defined.

(** X20. [ToJSON] with [KeyAsString] off returns an error for the first
    key, in the order of the list, that is not a text; the error names
    that key. *)
Theorem X20_ToJSON_non_string_key `{GoLib} (h : heap) (om : OrderedMap) (o : JSONOptions)
    (pre post : list (key * any)) (k : key) (v : any) :
  wf h om -> (Range h om (fun _ _ => true)).2 = Some (pre ++ (k, v) :: post) ->
  KeyAsString o = false ->
  Forall (fun e => exists s, e.1 = KString s) pre ->
  (forall s, k <> KString s) ->
  (ToJSON h om (Some o)).2 = Some (inl (non_string_key k)).
Proof.
  intros [ls Hi] HR Hk Hpre Hns. rewrite (Range_all _ _ _ Hi) in HR. injection HR as HR.
  unfold entries in HR.
  apply fmap_app_inv in HR as (npre & nrest & Hp1 & Hp2 & Hn).
  symmetry in Hp2. apply fmap_cons_inv in Hp2 as (nd & npost & Hnd & _ & ->).
  injection Hnd as -> ->.
  change ((ToJSON h om (Some o)).2) with
    ((fun l => match ToJSON_loop o l ∅ with
               | inl e => inl e
               | inr tmpMap =>
                   if PrettyPrint o then json_MarshalIndent tmpMap else json_Marshal tmpMap
               end) <$> walk (enough h) h (head om)).
  rewrite (walk_inv _ _ _ Hi), Hn. cbn [fmap option_fmap option_map].
  rewrite ToJSON_loop_non_string; [done|done| |done].
  subst pre. apply Forall_forall. intros x Hx. rewrite Forall_forall in Hpre.
  apply (Hpre (Key x, Value x)). apply list_elem_of_fmap. by exists x.
Qed.

Lemma X20_witness :
  let s := run_Set [(KString "a", Int 1); (KInt 7, Int 2); (KBool true, Int 3)]
             (∅, NewOrderedMap) in
  (@ToJSON exact_lib s.1 s.2 (Some (mkJSONOptions false false false))).2
  = Some (inl (Errorf "non-string key 7 cannot be converted to JSON")).
Proof.
  set (ops := [(KString "a", Int 1); (KInt 7, Int 2); (KBool true, Int 3)]). cbv zeta.
  assert (Hwf : wf (run_Set ops (∅, NewOrderedMap)).1 (run_Set ops (∅, NewOrderedMap)).2).
  { destruct (run_Set_new ops) as (ls & Hi & _). by exists ls. }
  apply (@X20_ToJSON_non_string_key exact_lib _ _ (mkJSONOptions false false false)
           [(KString "a", Int 1)] [(KBool true, Int 3)] (KInt 7) (Int 2) Hwf).
  - vm_compute. reflexivity.
  - reflexivity.
  - repeat constructor. by eexists.
  - intros s. discriminate.
Defined.

(** X21. [MarshalJSON], and [ToJSON] with nil options, return an error
    when a value of the container is a float that is NaN or infinite
    (the key texts being different from each other). *)
Theorem X21_non_finite_float `{GoLib} (h : heap) (om : OrderedMap)
    (kvs : list (key * any)) (k : key) (f : float64) :
  wf h om -> (Range h om (fun _ _ => true)).2 = Some kvs ->
  NoDup (map (fun e => Sprint e.1) kvs) ->
  (k, Float64 f) ∈ kvs -> is_finite f = false ->
  exists e, (MarshalJSON h om).2 = Some (inl e) /\ (ToJSON h om None).2 = Some (inl e).
Proof.
  intros [ls Hi] HR Hnd Hin Hf. rewrite (Range_all _ _ _ Hi) in HR. injection HR as <-.
  rewrite (ToJSON_nil_MarshalJSON h om).
  change ((MarshalJSON h om).2) with
    ((fun l => json_Marshal (MarshalJSON_loop l ∅)) <$> walk (enough h) h (head om)).
  rewrite (walk_inv _ _ _ Hi). cbn [fmap option_fmap option_map].
  set (m := MarshalJSON_loop (nodes_at h ls) ∅).
  assert (m !! Sprint k = Some (Float64 f)) as Hm.
  { unfold m. rewrite MarshalJSON_loop_entries. fold (entries h ls).
    by rewrite (last_filter_unique (fun e : key * any => Sprint e.1) _ (k, Float64 f)). }
  unfold json_Marshal, marshal_map.
  destruct (collect_inl
              (sort_members
                 (map (fun kv : string * any => (kv.1, marshal_any (S <$> None) kv.2))
                    (map_to_list m)))
              (Sprint k) UnsupportedValueError) as [e He].
  - unfold sort_members. rewrite merge_sort_Permutation. apply list_elem_of_fmap.
    exists (Sprint k, Float64 f). split; [|by apply elem_of_map_to_list].
    cbn [fst snd marshal_any]. by rewrite Hf.
  - exists e. by rewrite He.
Qed.

Lemma X21_witness :
  let s := run_Set [(KString "a", Float64 S754_nan)] (∅, NewOrderedMap) in
  exists e, (@MarshalJSON exact_lib s.1 s.2).2 = Some (inl e).
Proof.
  set (ops := [(KString "a", Float64 S754_nan)]). cbv zeta.
  assert (Hwf : wf (run_Set ops (∅, NewOrderedMap)).1 (run_Set ops (∅, NewOrderedMap)).2).
  { destruct (run_Set_new ops) as (ls & Hi & _). by exists ls. }
  destruct (@X21_non_finite_float exact_lib _ _ ops (KString "a") S754_nan Hwf)
    as (e & He & _).
  - vm_compute. reflexivity.
  - apply NoDup_singleton.
  - by left.
  - reflexivity.
  - by exists e.
Defined.

(** X22. Through [ToJSON] and [FromJSON] with keys kept as text, a
    container of text keys and scalars keeps its keys, in the order in
    which the runtime visits the decoded map, and its count. *)
Theorem X22_ToJSON_FromJSON_keys `{GoLib} (visit : range_order) (h : heap) (om : OrderedMap)
    (h2 : heap) (om2 : OrderedMap) (topts fopts : option JSONOptions)
    (kvs : list (key * any)) (bytes : string) :
  wf h om -> is_range visit ->
  (Range h om (fun _ _ => true)).2 = Some kvs ->
  Forall (pair_ok (default default_ToJSON topts)) kvs ->
  KeyAsString (default default_FromJSON fopts) = true ->
  (ToJSON h om topts).2 = Some (inr bytes) ->
  let r := FromJSON visit h2 om2 bytes fopts in
  r.2 = None /\
  (exists ks, (Keys r.1.1 r.1.2).2 = Some ks /\ ks ≡ₚ map fst kvs) /\
  (Len r.1.2).2 = (Len om).2.
Proof.
  intros [ls Hi] Hv HR Hok Hks HT r. subst r.
  rewrite (Range_all _ _ _ Hi) in HR. injection HR as <-.
  set (to := default default_ToJSON topts) in *.
  set (fo := default default_FromJSON fopts) in *.
  destruct (written_map to h om ls Hi Hok) as (m & Hm & Hsc & Hdom & Hval).
  set (ind := if PrettyPrint to then Some 0%nat else None).
  destruct (marshal_decode ind (PreserveType fo) m Hsc)
    as (bytes' & M & Hmm & Hdec & _ & HMdom & _).
  assert (bytes' = bytes) as ->.
  { revert HT.
    change ((ToJSON h om topts).2) with
      ((fun l => match ToJSON_loop to l ∅ with
                 | inl e => inl e
                 | inr tmpMap =>
                     if PrettyPrint to then json_MarshalIndent tmpMap else json_Marshal tmpMap
                 end) <$> walk (enough h) h (head om)).
    rewrite (walk_inv _ _ _ Hi). cbn [fmap option_fmap option_map]. rewrite Hm.
    unfold json_MarshalIndent, json_Marshal. subst ind.
    destruct (PrettyPrint to); rewrite Hmm; by intros [= ->]. }
  destruct (FromJSON_entries visit h2 om2 bytes fopts M Hv Hks Hdec) as (Hnone & lr & Hr & Her).
  split; [done|].
  assert (map fst (entries (FromJSON visit h2 om2 bytes fopts).1.1 lr) ≡ₚ map fst (entries h ls))
    as Hperm.
  { rewrite Her, map_map.
    rewrite (map_ext _ (fun kv => KString kv.1))
      by (intros kv; by apply FromJSON_convert_key).
    rewrite <- (map_map fst KString).
    apply (keys_after_load visit m M); try done.
    - apply distinct_text_NoDup; [rewrite keys_entries; apply Hi|by apply (text_keys to)].
    - by apply (text_keys to). }
  split.
  - exists (map fst (entries (FromJSON visit h2 om2 bytes fopts).1.1 lr)).
    split; [by apply Keys_spec|done].
  - rewrite (Len_spec _ _ _ Hr), (Len_spec _ _ _ Hi).
    rewrite <- (entries_length _ _ _ Hr), <- (entries_length _ _ _ Hi).
    apply Permutation_length in Hperm. rewrite !length_map in Hperm. by rewrite Hperm.
Qed.

Lemma X22_witness :
  let s := run_Set [(KString "b", Int 42); (KString "a", Str "x")] (∅, NewOrderedMap) in
  let bytes := "{" +:+ newline 1 +:+ quoted "a" +:+ ": " +:+ quoted "x" +:+ ","
               +:+ newline 1 +:+ quoted "b" +:+ ": 42" +:+ newline 0 +:+ "}" in
  let r := @FromJSON exact_lib map_to_list ∅ NewOrderedMap bytes None in
  r.2 = None /\ (Len r.1.2).2 = 2.
Proof.
  set (ops := [(KString "b", Int 42); (KString "a", Str "x")]). cbv zeta.
  assert (Hwf : wf (run_Set ops (∅, NewOrderedMap)).1 (run_Set ops (∅, NewOrderedMap)).2).
  { destruct (run_Set_new ops) as (ls & Hi & _). by exists ls. }
  destruct (@X22_ToJSON_FromJSON_keys exact_lib map_to_list _ _ ∅ NewOrderedMap
              (Some (mkJSONOptions true false true)) None ops
              ("{" +:+ newline 1 +:+ quoted "a" +:+ ": " +:+ quoted "x" +:+ ","
               +:+ newline 1 +:+ quoted "b" +:+ ": 42" +:+ newline 0 +:+ "}")
              Hwf is_range_identity) as (Hnone & _ & Hlen).
  - vm_compute. reflexivity.
  - repeat constructor; try (by eexists); vm_compute; auto.
  - reflexivity.
  - vm_compute. reflexivity.
  - split; [exact Hnone|]. rewrite Hlen. by vm_compute.
Defined.

(** X23. [FromJSON] with [KeyAsString] off stores a member whose key
    reads as an integer under an [int64] key: [Get] finds it with that
    [int64], and neither with the text of the key nor with an [int] of
    the same value (no other key of the object reading as that
    integer). *)
Theorem X23_FromJSON_integer_keys `{GoLib} (visit : range_order) (h : heap)
    (om : OrderedMap) (data : string) (o : JSONOptions) (tmpMap : gmap string any)
    (k : string) (v : any) (n : Z) :
  is_range visit -> KeyAsString o = false ->
  Decoder_Decode (PreserveType o) data ∅ = inr tmpMap ->
  tmpMap !! k = Some v -> ParseInt k = Some n ->
  (forall k' v', tmpMap !! k' = Some v' -> ParseInt k' = Some n -> k' = k) ->
  let r := FromJSON visit h om data (Some o) in
  r.2 = None /\
  (Get r.1.1 r.1.2 (KInt64 n)).2 = ((FromJSON_convert o (k, v)).2, true) /\
  (Get r.1.1 r.1.2 (KString k)).2 = (Nil, false) /\
  (Get r.1.1 r.1.2 (KInt n)).2 = (Nil, false).
Proof.
  intros Hv Hks Hd Hk Hn Huniq r. subst r.
  destruct (FromJSON_ok visit h om data (Some o) tmpMap Hd) as (Hnone & ls & Hi & He & _).
  change (default default_FromJSON (Some o)) with o in He.
  split; [done|].
  assert (forall kv, (FromJSON_convert o kv).1 =
            match ParseInt kv.1 with
            | Some i => KInt64 i
            | None => match ParseFloat kv.1 with
                      | Some f => KFloat64 f
                      | None => KString kv.1
                      end
            end) as Hconv.
  { intros kv. unfold FromJSON_convert. by rewrite Hks. }
  rewrite !(Get_spec _ _ _ _ Hi), He.
  rewrite (fold_assoc_set_map (FromJSON_convert o)), !assoc_get_fold_set.
  cbn [assoc_get].
  assert ((k, v) ∈ visit tmpMap) as Hin.
  { rewrite (Hv tmpMap). by apply elem_of_map_to_list. }
  rewrite (assoc_get_unique _ (KInt64 n) (FromJSON_convert o (k, v))).
  - split; [done|]. split.
    + rewrite assoc_get_absent; [done|]. intros e He'.
      rewrite elem_of_rev in He'.
      apply list_elem_of_fmap in He' as (kv & -> & Hkv). rewrite Hconv.
      destruct (ParseInt kv.1) eqn:E1; [done|].
      destruct (ParseFloat kv.1) eqn:E2; [done|]. cbn [key_eqb].
      apply String.eqb_neq. intros Heq. rewrite Heq in E1. congruence.
    + rewrite assoc_get_absent; [done|]. intros e He'.
      rewrite elem_of_rev in He'.
      apply list_elem_of_fmap in He' as (kv & -> & Hkv). rewrite Hconv.
      destruct (ParseInt kv.1); [done|]. by destruct (ParseFloat kv.1).
  - rewrite elem_of_rev.
    apply list_elem_of_fmap. by exists (k, v).
  - rewrite Hconv. cbn [fst]. rewrite Hn. cbn [key_eqb]. apply Z.eqb_refl.
  - intros e' He' Heq.
    rewrite elem_of_rev in He'.
    apply list_elem_of_fmap in He' as ([k' v'] & -> & Hkv).
    rewrite Hconv in Heq. cbn [fst] in Heq.
    rewrite (Hv tmpMap) in Hkv. apply elem_of_map_to_list in Hkv.
    destruct (ParseInt k') as [i|] eqn:E1.
    + cbn [key_eqb] in Heq. apply Z.eqb_eq in Heq. subst i.
      pose proof (Huniq _ _ Hkv E1) as ->. congruence.
    + by destruct (ParseFloat k').
Qed.

Lemma X23_witness :
  let data := "{" +:+ quoted "7" +:+ ":true}" in
  let r := @FromJSON exact_lib map_to_list ∅ NewOrderedMap data
             (Some (mkJSONOptions false false false)) in
  (Get r.1.1 r.1.2 (KInt64 7)).2 = (Bool true, true) /\
  (Get r.1.1 r.1.2 (KString "7")).2 = (Nil, false).
Proof.
  cbv zeta.
  destruct (@X23_FromJSON_integer_keys exact_lib map_to_list ∅ NewOrderedMap
              ("{" +:+ quoted "7" +:+ ":true}") (mkJSONOptions false false false)
              (<["7" := Bool true]> ∅) "7" (Bool true) 7 is_range_identity eq_refl)
    as (_ & H1 & H2 & _).
  - vm_compute. reflexivity.
  - by rewrite lookup_insert_eq.
  - vm_compute. reflexivity.
  - intros k' v' Hk' _. destruct (decide (k' = "7")) as [|Hne]; [done|].
    by rewrite lookup_insert_ne, lookup_empty in Hk'.
  - by split.
Defined.

(** X24. After any sequence of [Set] calls on a new container, [Get] of
    a key that is not nil returns the value of the last call whose key is
    equal to it, and reports no entry when there is no such call. *)
Theorem X24_Get_returns_last_Set (ops : list (key * any)) (k : key) :
  is_nil k = false ->
  let s := run_Set ops (∅, NewOrderedMap) in
  (Get s.1 s.2 k).2 = match last_set ops k with
                      | Some v => (v, true)
                      | None => (Nil, false)
                      end /\
  (Has s.2 k).2 = bool_decide (is_Some (last_set ops k)).
Proof.
  intros Hk s. subst s.
  assert (forall acc,
    assoc_get (fold_left model_call (map (fun kv : key * any => CallSet kv.1 kv.2) ops) acc) k =
    match assoc_get (rev ops) k with
    | Some v => Some v
    | None => assoc_get acc k
    end) as Hgen.
  { induction ops as [|[k0 v0] ops IH]; intros acc; [done|].
    cbn [map fold_left rev fst snd model_call]. rewrite IH, assoc_get_app_full.
    cbn [assoc_get]. destruct (assoc_get (rev ops) k); [done|].
    destruct (is_nil k0) eqn:E.
    - destruct k0; try discriminate. destruct k; try discriminate; reflexivity.
    - rewrite assoc_get_set. by destruct (key_eqb k0 k). }
  rewrite run_Set_calls.
  destruct (run_calls_spec (map (fun kv : key * any => CallSet kv.1 kv.2) ops)
              ∅ NewOrderedMap [] (inv_new ∅)) as (ls & Hi & He & _).
  change (entries ∅ []) with (@nil (key * any)) in He.
  rewrite (Get_spec _ _ _ _ Hi), (Has_spec _ _ _ _ Hi), has_key_get, He.
  rewrite Hgen. unfold last_set. cbn [assoc_get].
  split; [by destruct (assoc_get (rev ops) k)|].
  by destruct (assoc_get (rev ops) k).
Qed.

Lemma X24_witness :
  let s := run_Set [(KString "a", Int 1); (KString "b", Int 2); (KString "a", Int 3)]
             (∅, NewOrderedMap) in
  (Get s.1 s.2 (KString "a")).2 = (Int 3, true).
Proof.
  cbv zeta.
  exact (proj1 (X24_Get_returns_last_Set
                  [(KString "a", Int 1); (KString "b", Int 2); (KString "a", Int 3)]
                  (KString "a") eq_refl)).
Defined.
